(** * Graph algorithm visualizer: the step-generation engine

    A shallow embedding of the nine algorithm executors of
    [src/algorithms] (BFS, DFS, Dijkstra, A*, Kruskal, Prim, topological
    sort, cycle detection, connected components), of the graph helpers of
    [src/core/graph/graphUtils.ts] and of the trace types of
    [src/types/index.ts], of the lookup functions of
    [src/algorithms/index.ts] and of the two stores that play the traces
    ([src/store/algorithmStore.ts], [src/store/comparisonStore.ts]),
    followed by the properties of their traces.

    Conventions of the embedding:
    - a JavaScript [number] is a binary64 float ([PrimFloat.float]), with
      the operators of IEEE 754; counters that only count are [nat], the
      in-degree table of the topological sort is [Z];
    - a [Map<string, V>] that is only read by key is a [gmap string V]; a
      [Set] or [Map] whose iteration order is displayed is a list in
      insertion order;
    - a template literal is the list of its fragments ([Text]); the
      rendering of numbers to characters is left to the consumer;
    - the mutable locals of an executor are threaded as a state [St L]:
      the part shared by all executors ([Run]: steps, metrics, node and
      edge states) and the locals [L] of the executor;
    - a [TypeError] (reading [.label] of [undefined]) is the result
      [Threw]; a loop whose bound is exhausted is [OutOfFuel]. *)

From Stdlib Require Import Floats ZArith.
From stdpp Require Import base gmap list strings.

Local Open Scope string_scope.
Local Open Scope list_scope.
Local Open Scope nat_scope.

(** ** src/types/index.ts *)

Record Node := mkNode {
  node_id : string;
  label : string;
  x : float;
  y : float
}.

Record Edge := mkEdge {
  edge_id : string;
  source : string;
  target : string;
  weight : float
}.

Record Graph := mkGraph {
  nodes : list Node;
  edges : list Edge;
  directed : bool;
  weighted : bool
}.

Module NodeState.
Inductive t := UNVISITED | VISITING | VISITED | IN_PATH | IN_SOLUTION | CURRENT.
#[global] Instance eq_dec : EqDecision t.
Proof. solve_decision. Defined.
End NodeState.

Module EdgeState.
Inductive t := UNEXAMINED | EXAMINING | IN_SOLUTION | REJECTED.
#[global] Instance eq_dec : EqDecision t.
Proof. solve_decision. Defined.
End EdgeState.

Record AlgorithmMetrics := mkMetrics {
  nodesVisited : nat;
  edgesExamined : nat;
  operationsCount : nat;
  comparisons : nat
}.

Inductive Heuristic := manhattan | euclidean.

Record AlgorithmParams := mkParams {
  startNodeId : option string;
  endNodeId : option string;
  heuristic : option Heuristic
}.

(** A template literal, fragment by fragment. *)
Inductive Frag :=
| T (s : string)                              (* literal text *)
| Lb (l : option string)                      (* a string (a label), [undefined] when missing *)
| Fl (v : option float)                       (* a number, [undefined] when absent *)
| Fx (v : option float)                       (* [v?.toFixed(1)] *)
| Ct (n : nat)                                (* a count *)
| Zn (z : Z)                                  (* an integer *)
| Jn (sep : string) (ls : list (option string)). (* [labels.join(sep)] *)

Abbreviation Text := (list Frag).

(** The values stored in [dataStructures]. *)
Inductive View :=
| VLabels (ls : list (option string))
| VTexts (ts : list Text)
| VRecord (kv : list (option string * Text))
| VGroups (kv : list (Text * list string))
| VNumber (v : float)
| VText (t : Text)
| VCount (n : nat)
| VBool (b : bool).

Record AlgorithmStep := mkStep {
  stepNumber : nat;
  description : Text;
  pseudocodeLine : nat;
  nodeStates : gmap string NodeState.t;
  edgeStates : gmap string EdgeState.t;
  dataStructures : list (string * View);
  currentOperation : Text;
  metrics : AlgorithmMetrics
}.

(** What a call of an executor does. *)
Inductive Outcome (A : Type) :=
| Returned (a : A)
| Threw
| OutOfFuel.
Arguments Returned {A} a.
Arguments Threw {A}.
Arguments OutOfFuel {A}.

#[global] Instance Outcome_bind : MBind Outcome := fun A B k c =>
  match c with
  | Returned a => k a
  | Threw => Threw
  | OutOfFuel => OutOfFuel
  end.

(** Monadic [for ... of] over a list, for loop bodies that may throw. *)
Fixpoint forEach {A S : Type} (body : S → A → Outcome S) (st : S) (l : list A) : Outcome S :=
  match l with
  | [] => Returned st
  | a :: l => st ← body st a; forEach body st l
  end.

(** ** JavaScript numbers *)

Module Js.
Definition isNaN (v : float) : bool := negb (PrimFloat.eqb v v).

(** Truthiness of a number: [0], [-0] and [NaN] are falsy. *)
Definition truthy (v : float) : bool :=
  negb (PrimFloat.eqb v 0%float || isNaN v).

(** [o || d] for a number that may be [undefined]. *)
Definition or_else (o : option float) (d : float) : float :=
  match o with
  | Some v => if truthy v then v else d
  | None => d
  end.

Definition lt (a b : float) : bool := PrimFloat.ltb a b.
Definition gt (a b : float) : bool := PrimFloat.ltb b a.
Definition isInfinity (v : float) : bool := PrimFloat.eqb v infinity.

(** Truthiness of a string that may be [undefined]. *)
Definition truthyStr (o : option string) : option string :=
  match o with
  | Some s => if bool_decide (s = "") then None else Some s
  | None => None
  end.

(** The comparator [(a, b) => a - b]: a [NaN] difference counts as [0]. *)
Definition bySubtraction (a b : float) : comparison :=
  let d := PrimFloat.sub a b in
  if PrimFloat.ltb d 0%float then Lt
  else if PrimFloat.ltb 0%float d then Gt
  else Eq.

(** [Array.prototype.sort] is stable; on a comparator that is a total
    preorder it is the stable sort, written here by insertion. *)
Fixpoint insertBy {A} (cmp : A → A → comparison) (a : A) (l : list A) : list A :=
  match l with
  | [] => [a]
  | b :: l' =>
      match cmp a b with
      | Gt => b :: insertBy cmp a l'
      | _ => a :: l
      end
  end.

Definition sortBy {A} (cmp : A → A → comparison) (l : list A) : list A :=
  foldr (insertBy cmp) [] l.

(** [Map.prototype.set] and [get] on a map kept in insertion order. *)
Fixpoint mapSet {V} (k : string) (v : V) (m : list (string * V)) : list (string * V) :=
  match m with
  | [] => [(k, v)]
  | kv :: m' => if bool_decide (kv.1 = k) then (k, v) :: m' else kv :: mapSet k v m'
  end.

Definition mapGet {V} (k : string) (m : list (string * V)) : option V :=
  snd <$> List.find (fun kv => bool_decide (kv.1 = k)) m.

(** [Set.prototype.add] on a set kept in insertion order. *)
Definition setAdd (k : string) (s : list string) : list string :=
  if bool_decide (k ∈ s) then s else s ++ [k].

Definition setHas (k : string) (s : list string) : bool := bool_decide (k ∈ s).
End Js.

(** ** src/core/graph/graphUtils.ts *)

Definition getNode (graph : Graph) (nodeId : string) : option Node :=
  List.find (fun n => bool_decide (node_id n = nodeId)) (nodes graph).

(** [getNode(graph, id)?.label] *)
Definition labelOf (graph : Graph) (nodeId : string) : option string :=
  label <$> getNode graph nodeId.

Definition getEdgeBetween (graph : Graph) (src tgt : string) : option Edge :=
  List.find (fun edge =>
    if directed graph then
      bool_decide (source edge = src) && bool_decide (target edge = tgt)
    else
      (bool_decide (source edge = src) && bool_decide (target edge = tgt))
      || (bool_decide (source edge = tgt) && bool_decide (target edge = src)))
    (edges graph).

Abbreviation AdjList := (gmap string (list (string * float))).

(** [adjList.get(k)?.push(entry)] *)
Definition adjPush (k : string) (entry : string * float) (adjList : AdjList) : AdjList :=
  match adjList !! k with
  | Some l => <[k := l ++ [entry]]> adjList
  | None => adjList
  end.

Definition toAdjacencyList (graph : Graph) : AdjList :=
  let adjList := foldl (fun m node => <[node_id node := []]> m) ∅ (nodes graph) in
  foldl (fun m edge =>
           let m := adjPush (source edge) (target edge, weight edge) m in
           if directed graph then m
           else adjPush (target edge) (source edge, weight edge) m)
        adjList (edges graph).

(** [adjList.get(id) || []] *)
Definition neighborsOf (adjList : AdjList) (nodeId : string) : list (string * float) :=
  default [] (adjList !! nodeId).

Definition calculateDistance (node1 node2 : Node) (type : Heuristic) : float :=
  let dx := PrimFloat.abs (PrimFloat.sub (x node1) (x node2)) in
  let dy := PrimFloat.abs (PrimFloat.sub (y node1) (y node2)) in
  match type with
  | manhattan => PrimFloat.add dx dy
  | euclidean => PrimFloat.sqrt (PrimFloat.add (PrimFloat.mul dx dx) (PrimFloat.mul dy dy))
  end.

(** ** src/core/graph/graphUtils.ts: the helpers the executors do not call *)



Definition getNeighbors (graph : Graph) (nodeId : string) : list string :=
  foldl (fun neighbors edge =>
           let neighbors := if bool_decide (source edge = nodeId)
                            then neighbors ++ [target edge] else neighbors in
           if negb (directed graph) && bool_decide (target edge = nodeId)
           then neighbors ++ [source edge] else neighbors)
        [] (edges graph).

Definition getNodeEdges (graph : Graph) (nodeId : string) : list Edge :=
  filter (fun edge => source edge = nodeId ∨ target edge = nodeId) (edges graph).

(** [getEdgeBetween(graph, source, target) !== undefined] *)
Definition hasEdge (graph : Graph) (src tgt : string) : bool :=
  bool_decide (getEdgeBetween graph src tgt ≠ None).

(** [nodeIds.indexOf(id)]: [None] is [-1]. *)
Fixpoint indexOf (id : string) (ids : list string) : option nat :=
  match ids with
  | [] => None
  | id' :: ids => if bool_decide (id' = id) then Some 0 else S <$> indexOf id ids
  end.

(** [matrix[i][j] = w] *)
Definition setCell (i j : nat) (w : float) (matrix : list (list float)) : list (list float) :=
  match matrix !! i with
  | Some row => <[i := <[j := w]> row]> matrix
  | None => matrix
  end.

Record AdjacencyMatrix := mkAdjacencyMatrix {
  matrix : list (list float);
  nodeIds : list string
}.

Definition toAdjacencyMatrix (graph : Graph) : AdjacencyMatrix :=
  let nodeIds := node_id <$> nodes graph in
  let n := length nodeIds in
  let matrix := replicate n (replicate n infinity) in
  let matrix := foldl (fun m i => setCell i i 0%float m) matrix (seq 0 n) in
  let matrix :=
    foldl (fun m edge =>
             match indexOf (source edge) nodeIds, indexOf (target edge) nodeIds with
             | Some i, Some j =>
                 let m := setCell i j (weight edge) m in
                 if negb (directed graph) then setCell j i (weight edge) m else m
             | _, _ => m
             end)
          matrix (edges graph) in
  mkAdjacencyMatrix matrix nodeIds.

(** [{ valid: boolean; error?: string }] *)
Record Validation := mkValidation { valid : bool; error : option string }.

(** [for (const edge of graph.edges) if (edge.weight < 0) return {...}] *)
Fixpoint firstNegative (es : list Edge) : option Edge :=
  match es with
  | [] => None
  | edge :: es => if Js.lt (weight edge) 0%float then Some edge else firstNegative es
  end.

Definition validateForDijkstra (graph : Graph) : Validation :=
  if weighted graph then
    match firstNegative (edges graph) with
    | Some _ => mkValidation false
                  (Some "Dijkstra's algorithm requires non-negative edge weights")
    | None => mkValidation true None
    end
  else mkValidation true None.

Definition validateForTopologicalSort (graph : Graph) : Validation :=
  if negb (directed graph)
  then mkValidation false (Some "Topological sort requires a directed graph")
  else mkValidation true None.

Definition createEmptyGraph (directed weighted : bool) : Graph :=
  mkGraph [] [] directed weighted.

(** ** The state shared by the executors *)

Record Run := mkRun {
  r_steps : list AlgorithmStep;
  r_metrics : AlgorithmMetrics;
  r_nodeStates : gmap string NodeState.t;
  r_edgeStates : gmap string EdgeState.t
}.

Record St (L : Type) := mkSt { run : Run; loc : L }.
Arguments mkSt {L} run loc.
Arguments run {L} s.
Arguments loc {L} s.

Definition zeroMetrics : AlgorithmMetrics := mkMetrics 0 0 0 0.

Section primitives.
Context {L : Type}.
Implicit Types (st : St L) (r : Run).

Definition onRun (f : Run → Run) st : St L := mkSt (f (run st)) (loc st).
Definition onLoc (f : L → L) st : St L := mkSt (run st) (f (loc st)).
Definition setLoc (l : L) st : St L := mkSt (run st) l.

Definition onMetrics (f : AlgorithmMetrics → AlgorithmMetrics) st : St L :=
  onRun (fun r => mkRun (r_steps r) (f (r_metrics r)) (r_nodeStates r) (r_edgeStates r)) st.

(** [metrics.nodesVisited += k] and the three others *)
Definition addNodesVisited (k : nat) : St L → St L :=
  onMetrics (fun m => mkMetrics (nodesVisited m + k) (edgesExamined m) (operationsCount m) (comparisons m)).
Definition addEdgesExamined (k : nat) : St L → St L :=
  onMetrics (fun m => mkMetrics (nodesVisited m) (edgesExamined m + k) (operationsCount m) (comparisons m)).
Definition addOperationsCount (k : nat) : St L → St L :=
  onMetrics (fun m => mkMetrics (nodesVisited m) (edgesExamined m) (operationsCount m + k) (comparisons m)).
Definition addComparisons (k : nat) : St L → St L :=
  onMetrics (fun m => mkMetrics (nodesVisited m) (edgesExamined m) (operationsCount m) (comparisons m + k)).

(** [nodeStates.set(id, s)] *)
Definition setNode (nodeId : string) (s : NodeState.t) : St L → St L :=
  onRun (fun r => mkRun (r_steps r) (r_metrics r) (<[nodeId := s]> (r_nodeStates r)) (r_edgeStates r)).

(** [edgeStates.set(id, s)] *)
Definition setEdge (edgeId : string) (s : EdgeState.t) : St L → St L :=
  onRun (fun r => mkRun (r_steps r) (r_metrics r) (r_nodeStates r) (<[edgeId := s]> (r_edgeStates r))).

(** [if (edge) edgeStates.set(edge.id, s)] *)
Definition setEdgeIf (edge : option Edge) (s : EdgeState.t) st : St L :=
  match edge with
  | Some e => setEdge (edge_id e) s st
  | None => st
  end.

(** [if (edge && edgeStates.get(edge.id) !== IN_SOLUTION) edgeStates.set(edge.id, REJECTED)] *)
Definition rejectUnlessInSolution (edge : option Edge) st : St L :=
  match edge with
  | Some e =>
      if bool_decide (r_edgeStates (run st) !! edge_id e = Some EdgeState.IN_SOLUTION)
      then st
      else setEdge (edge_id e) EdgeState.REJECTED st
  | None => st
  end.

(** [steps.push({ stepNumber: steps.length + 1, ..., nodeStates: new
    Map(nodeStates), edgeStates: new Map(edgeStates), metrics: {...metrics} })] *)
Definition pushStep (desc : Text) (line : nat) (ds : list (string * View)) (op : Text) : St L → St L :=
  onRun (fun r =>
    mkRun (r_steps r ++ [mkStep (length (r_steps r) + 1) desc line
                            (r_nodeStates r) (r_edgeStates r) ds op (r_metrics r)])
          (r_metrics r) (r_nodeStates r) (r_edgeStates r)).
End primitives.

(** [graph.nodes.forEach(n => nodeStates.set(n.id, UNVISITED));
    graph.edges.forEach(e => edgeStates.set(e.id, UNEXAMINED))] *)
Definition initialRun (graph : Graph) : Run :=
  mkRun [] zeroMetrics
    (foldl (fun m n => <[node_id n := NodeState.UNVISITED]> m) ∅ (nodes graph))
    (foldl (fun m e => <[edge_id e := EdgeState.UNEXAMINED]> m) ∅ (edges graph)).

(** ** src/algorithms/traversal/bfs.ts *)

Module bfs.
Record Locals := mkLocals { visited : list string; queue : list string }.

Definition view (graph : Graph) (l : Locals) : list (string * View) :=
  [("queue", VLabels (labelOf graph <$> queue l));
   ("visited", VLabels (labelOf graph <$> visited l))].

(** The body of [for (const { nodeId: neighborId } of neighbors)]. *)
Definition examine (graph : Graph) (currentId : string)
    (st : St Locals) (nb : string * float) : St Locals :=
  let neighborId := nb.1 in
  let currentNode := labelOf graph currentId in
  let neighborNode := labelOf graph neighborId in
  let edge := getEdgeBetween graph currentId neighborId in
  let st := addEdgesExamined 1 st in
  let st := addComparisons 1 st in
  let st := addOperationsCount 1 st in
  let st := setEdgeIf edge EdgeState.EXAMINING st in
  let st := pushStep [T "Examine edge from "; Lb currentNode; T " to "; Lb neighborNode; T "."]
              7 (view graph (loc st)) [T "Check neighbor "; Lb neighborNode] st in
  if negb (Js.setHas neighborId (visited (loc st))) then
    let st := onLoc (fun l => mkLocals (Js.setAdd neighborId (visited l)) (queue l ++ [neighborId])) st in
    let st := setNode neighborId NodeState.VISITING st in
    let st := addNodesVisited 1 st in
    let st := setEdgeIf edge EdgeState.IN_SOLUTION st in
    pushStep [T "Node "; Lb neighborNode; T " not visited. Mark as visited and add to queue."]
      9 (view graph (loc st)) [T "Enqueue "; Lb neighborNode] st
  else
    rejectUnlessInSolution edge st.

(** One turn of [while (queue.length > 0)], the queue being [currentId :: rest]. *)
Definition turn (graph : Graph) (adjList : AdjList) (currentId : string) (rest : list string)
    (st : St Locals) : St Locals :=
  let st := onLoc (fun l => mkLocals (visited l) rest) st in
  let currentNode := labelOf graph currentId in
  let st := setNode currentId NodeState.CURRENT st in
  let st := addOperationsCount 1 st in
  let st := pushStep [T "Dequeue node "; Lb currentNode; T " from queue."]
              5 (view graph (loc st)) [T "Dequeue "; Lb currentNode] st in
  let st := foldl (examine graph currentId) st (neighborsOf adjList currentId) in
  let st := setNode currentId NodeState.VISITED st in
  pushStep [T "Finished processing node "; Lb currentNode; T "."]
    6 (view graph (loc st)) [T "Complete "; Lb currentNode] st.

Fixpoint while (fuel : nat) (graph : Graph) (adjList : AdjList) (st : St Locals)
    : Outcome (St Locals) :=
  match queue (loc st) with
  | [] => Returned st
  | currentId :: rest =>
      match fuel with
      | 0 => OutOfFuel
      | S fuel => while fuel graph adjList (turn graph adjList currentId rest st)
      end
  end.

(** Every turn dequeues one id, and an id is enqueued at most once: each
    enqueued id other than the start is an end of some edge. *)
Definition fuelFor (graph : Graph) : nat := 2 * length (edges graph) + 2.

(** The state when the loop is entered, and when it is left. *)
Definition start (graph : Graph) (startNodeId : string) : St Locals :=
  let st := mkSt (initialRun graph) (mkLocals [] []) in
  let st := onLoc (fun l => mkLocals (Js.setAdd startNodeId (visited l)) (queue l ++ [startNodeId])) st in
  let st := setNode startNodeId NodeState.VISITING st in
  let st := addNodesVisited 1 st in
  let st := addOperationsCount 1 st in
  pushStep [T "Start BFS from node "; Lb (labelOf graph startNodeId); T ". Add to queue."]
    3 (view graph (loc st)) [T "Initialize"] st.

Definition finish (graph : Graph) (st : St Locals) : St Locals :=
  let st := foldl (fun st id => setNode id NodeState.IN_SOLUTION st) st (visited (loc st)) in
  pushStep [T "BFS complete. Visited "; Ct (length (visited (loc st))); T " nodes."]
    10 [("queue", VLabels []); ("visited", VLabels (labelOf graph <$> visited (loc st)))]
    [T "Complete"] st.

Definition executeBFS (graph : Graph) (params : AlgorithmParams) : Outcome (list AlgorithmStep) :=
  match Js.truthyStr (startNodeId params) with
  | None => Returned []
  | Some startNodeId =>
      match getNode graph startNodeId with
      | None => Returned []
      | Some _ =>
          st ← while (fuelFor graph) graph (toAdjacencyList graph) (start graph startNodeId);
          Returned (r_steps (run (finish graph st)))
      end
  end.
End bfs.

(** ** src/algorithms/traversal/dfs.ts *)

Module dfs.
(** The array [stack] is kept top first: [stack.push] conses, [stack.pop]
    takes the head, and [[...stack].reverse()] is the list itself. *)
Record Locals := mkLocals { visited : list string; stack : list string }.

Definition view (graph : Graph) (l : Locals) : list (string * View) :=
  [("stack", VLabels (labelOf graph <$> stack l));
   ("visited", VLabels (labelOf graph <$> visited l))].

(** The body of [for (let i = neighbors.length - 1; i >= 0; i--)]. *)
Definition pushNeighbor (graph : Graph) (currentId : string)
    (st : St Locals) (nb : string * float) : St Locals :=
  let neighborId := nb.1 in
  let neighborNode := labelOf graph neighborId in
  let edge := getEdgeBetween graph currentId neighborId in
  let st := addEdgesExamined 1 st in
  let st := addOperationsCount 1 st in
  let st := if negb (Js.setHas neighborId (visited (loc st)))
            then setEdgeIf edge EdgeState.EXAMINING st else st in
  if negb (Js.setHas neighborId (visited (loc st))) then
    let st := onLoc (fun l => mkLocals (visited l) (neighborId :: stack l)) st in
    let st := if bool_decide (r_nodeStates (run st) !! neighborId = Some NodeState.UNVISITED)
              then setNode neighborId NodeState.VISITING st else st in
    let st := setEdgeIf edge EdgeState.IN_SOLUTION st in
    pushStep [T "Push neighbor "; Lb neighborNode; T " onto stack."]
      9 (view graph (loc st)) [T "Push "; Lb neighborNode] st
  else
    rejectUnlessInSolution edge st.

(** One turn of [while (stack.length > 0)], the stack being [currentId :: rest]. *)
Definition turn (graph : Graph) (adjList : AdjList) (currentId : string) (rest : list string)
    (st : St Locals) : St Locals :=
  let st := onLoc (fun l => mkLocals (visited l) rest) st in
  let currentNode := labelOf graph currentId in
  let st := addOperationsCount 1 st in
  let st := addComparisons 1 st in
  if Js.setHas currentId (visited (loc st)) then
    pushStep [T "Node "; Lb currentNode; T " already visited. Skip."]
      5 (view graph (loc st)) [T "Skip "; Lb currentNode] st
  else
    let st := onLoc (fun l => mkLocals (Js.setAdd currentId (visited l)) (stack l)) st in
    let st := addNodesVisited 1 st in
    let st := setNode currentId NodeState.CURRENT st in
    let st := pushStep [T "Pop node "; Lb currentNode; T " from stack. Mark as visited."]
                6 (view graph (loc st)) [T "Visit "; Lb currentNode] st in
    let st := foldl (pushNeighbor graph currentId) st (reverse (neighborsOf adjList currentId)) in
    setNode currentId NodeState.VISITED st.

Fixpoint while (fuel : nat) (graph : Graph) (adjList : AdjList) (st : St Locals)
    : Outcome (St Locals) :=
  match stack (loc st) with
  | [] => Returned st
  | currentId :: rest =>
      match fuel with
      | 0 => OutOfFuel
      | S fuel => while fuel graph adjList (turn graph adjList currentId rest st)
      end
  end.

(** A turn pops one id; only the turn that visits an id pushes, at most
    once for each entry of the adjacency list of that id. *)
Definition fuelFor (graph : Graph) : nat := 2 * length (edges graph) + 2.

(** The state when the loop is entered, and when it is left. *)
Definition start (graph : Graph) (startNodeId : string) : St Locals :=
  let st := mkSt (initialRun graph) (mkLocals [] []) in
  let st := onLoc (fun l => mkLocals (visited l) (startNodeId :: stack l)) st in
  let st := addOperationsCount 1 st in
  let st := setNode startNodeId NodeState.VISITING st in
  pushStep [T "Start DFS from node "; Lb (labelOf graph startNodeId); T ". Push to stack."]
    2 (view graph (loc st)) [T "Initialize"] st.

Definition finish (graph : Graph) (st : St Locals) : St Locals :=
  let st := foldl (fun st id => setNode id NodeState.IN_SOLUTION st) st (visited (loc st)) in
  pushStep [T "DFS complete. Visited "; Ct (length (visited (loc st))); T " nodes."]
    9 [("stack", VLabels []); ("visited", VLabels (labelOf graph <$> visited (loc st)))]
    [T "Complete"] st.

Definition executeDFS (graph : Graph) (params : AlgorithmParams) : Outcome (list AlgorithmStep) :=
  match Js.truthyStr (startNodeId params) with
  | None => Returned []
  | Some startNodeId =>
      match getNode graph startNodeId with
      | None => Returned []
      | Some _ =>
          st ← while (fuelFor graph) graph (toAdjacencyList graph) (start graph startNodeId);
          Returned (r_steps (run (finish graph st)))
      end
  end.

(** The set [visited] when the loop is left: the ids in the order in which
    [visited.add] marked them. *)
Definition visitOrder (graph : Graph) (startNodeId : string) : Outcome (list string) :=
  st ← while (fuelFor graph) graph (toAdjacencyList graph) (start graph startNodeId);
  Returned (visited (loc st)).

(** [k] turns of the loop. *)
Fixpoint turns (k : nat) (graph : Graph) (adjList : AdjList) (st : St Locals) : St Locals :=
  match k with
  | 0 => st
  | S k =>
      match stack (loc st) with
      | [] => st
      | currentId :: rest => turns k graph adjList (turn graph adjList currentId rest st)
      end
  end.
End dfs.

(** The reference of the refinement, in the words of the spec: a recursive
    DFS that scans the adjacency list of each node in forward order;
    [depth] bounds the nesting of the calls. *)
Fixpoint recursiveVisit (depth : nat) (adjList : AdjList) (visited : list string) (v : string)
    : Outcome (list string) :=
  if Js.setHas v visited then Returned visited
  else
    match depth with
    | 0 => OutOfFuel
    | S depth =>
        forEach (recursiveVisit depth adjList) (Js.setAdd v visited) (neighborsOf adjList v).*1
    end.

Definition recursiveDFS (graph : Graph) (startNodeId : string) : Outcome (list string) :=
  recursiveVisit (dfs.fuelFor graph) (toAdjacencyList graph) [] startNodeId.

(** ** src/algorithms/shortestPath/dijkstra.ts *)

(** [class PriorityQueue] of dijkstra.ts and astar.ts: [items] in order. *)
Module PriorityQueue.
Abbreviation t := (list (float * string)).

Definition byPriority (a b : float * string) : comparison := Js.bySubtraction a.1 b.1.

Definition enqueue (value : string) (priority : float) (items : t) : t :=
  Js.sortBy byPriority (items ++ [(priority, value)]).

Definition has (value : string) (items : t) : bool :=
  bool_decide (value ∈ items.*2).
End PriorityQueue.

(** [const label = d === Infinity ? '∞' : String(d)] *)
Definition showInfinite (d : option float) : Text :=
  match d with
  | Some v => if Js.isInfinity v then [T "∞"] else [Fl d]
  | None => [Fl d]
  end.

(** Walks [curr = next(curr)] while [curr] is truthy, [unshift]ing each id. *)
Fixpoint walkBack (fuel : nat) (next : string → option string) (curr : option string)
    (path : list string) : Outcome (list string) :=
  match Js.truthyStr curr with
  | None => Returned path
  | Some c =>
      match fuel with
      | 0 => OutOfFuel
      | S fuel => walkBack fuel next (next c) (c :: path)
      end
  end.

Module dijkstra.
Record Locals := mkLocals {
  dist : gmap string float;
  parent : gmap string (option string);
  visited : list string;
  pq : PriorityQueue.t
}.

Definition formatDist (graph : Graph) (l : Locals) : View :=
  VRecord ((fun n => (Some (label n), showInfinite (dist l !! node_id n))) <$> nodes graph).

Definition formatQueue (graph : Graph) (l : Locals) : View :=
  VTexts ((fun item => [T "("; Fl (Some item.1); T ", "; Lb (labelOf graph item.2); T ")"]) <$> pq l).

Definition view (graph : Graph) (l : Locals) : list (string * View) :=
  [("distances", formatDist graph l); ("priorityQueue", formatQueue graph l)].

(** The body of [for (const { nodeId: neighborId, weight } of neighbors)]. *)
Definition relax (graph : Graph) (currentId : string)
    (st : St Locals) (nb : string * float) : St Locals :=
  let '(neighborId, weight) := nb in
  if Js.setHas neighborId (visited (loc st)) then st
  else
    let currentNode := labelOf graph currentId in
    let neighborNode := labelOf graph neighborId in
    let edge := getEdgeBetween graph currentId neighborId in
    let st := addEdgesExamined 1 st in
    let st := addComparisons 1 st in
    let st := addOperationsCount 1 st in
    let st := setEdgeIf edge EdgeState.EXAMINING st in
    let alt := PrimFloat.add (Js.or_else (dist (loc st) !! currentId) 0%float) weight in
    let currentNeighborDist := Js.or_else (dist (loc st) !! neighborId) infinity in
    let st := pushStep
        ([T "Check edge "; Lb currentNode; T " → "; Lb neighborNode; T " (weight: "; Fl (Some weight);
          T "). New distance: "; Fl (Some alt); T ", Current: "] ++ showInfinite (Some currentNeighborDist))
        10 (view graph (loc st)) [T "Relax edge to "; Lb neighborNode] st in
    if Js.lt alt currentNeighborDist then
      let st := onLoc (fun l => mkLocals (<[neighborId := alt]> (dist l))
                                  (<[neighborId := Some currentId]> (parent l))
                                  (visited l)
                                  (PriorityQueue.enqueue neighborId alt (pq l))) st in
      let st := if bool_decide (r_nodeStates (run st) !! neighborId = Some NodeState.VISITED)
                then st else setNode neighborId NodeState.VISITING st in
      pushStep [T "Update distance to "; Lb neighborNode; T ": "; Fl (Some alt); T " (via "; Lb currentNode; T ")"]
        12 (view graph (loc st)) [T "Update "; Lb neighborNode] st
    else
      setEdgeIf edge EdgeState.REJECTED st.

(** [for (let i = 0; i < path.length; i++)]: [prev] is [path[i - 1]]. *)
Fixpoint markPath (graph : Graph) (prev : option string) (path : list string)
    (st : St Locals) : St Locals :=
  match path with
  | [] => st
  | p :: rest =>
      let st := setNode p NodeState.IN_SOLUTION st in
      let st := match prev with
                | Some q => setEdgeIf (getEdgeBetween graph q p) EdgeState.IN_SOLUTION st
                | None => st
                end in
      markPath graph (Some p) rest st
  end.

(** The branch [if (endNodeId && currentId === endNodeId)], which returns. *)
Definition reached (graph : Graph) (currentId : string) (currentDist : float)
    (st : St Locals) : Outcome (St Locals) :=
  let st := setNode currentId NodeState.IN_SOLUTION st in
  path ← walkBack (length (visited (loc st)) + 1)
           (fun c => mjoin (parent (loc st) !! c)) (Some currentId) [];
  let st := markPath graph None path st in
  Returned (pushStep
    [T "Target "; Lb (labelOf graph currentId); T " reached! Shortest path distance: ";
     Fl (Some currentDist); T ". Path: "; Jn " → " (labelOf graph <$> path)]
    7 [("distances", formatDist graph (loc st)); ("path", VLabels (labelOf graph <$> path))]
    [T "Path Found"] st).

Definition isTarget (endNodeId : option string) (currentId : string) : bool :=
  match Js.truthyStr endNodeId with
  | Some e => bool_decide (currentId = e)
  | None => false
  end.

(** [while (!pq.isEmpty())]; the flag tells that [return steps] was
    executed inside the loop. *)
Fixpoint while (fuel : nat) (graph : Graph) (adjList : AdjList) (endNodeId : option string)
    (st : St Locals) : Outcome (bool * St Locals) :=
  match pq (loc st) with
  | [] => Returned (false, st)
  | (currentDist, currentId) :: rest =>
      match fuel with
      | 0 => OutOfFuel
      | S fuel =>
          let st := onLoc (fun l => mkLocals (dist l) (parent l) (visited l) rest) st in
          let currentNode := labelOf graph currentId in
          let st := addOperationsCount 1 st in
          let st := addComparisons 1 st in
          if Js.gt currentDist (Js.or_else (dist (loc st) !! currentId) infinity)
          then while fuel graph adjList endNodeId st
          else if Js.setHas currentId (visited (loc st))
          then while fuel graph adjList endNodeId st
          else
            let st := onLoc (fun l => mkLocals (dist l) (parent l)
                                        (Js.setAdd currentId (visited l)) (pq l)) st in
            let st := addNodesVisited 1 st in
            let st := setNode currentId NodeState.CURRENT st in
            let st := pushStep
                [T "Extract minimum: node "; Lb currentNode; T " with distance "; Fl (Some currentDist)]
                6 (view graph (loc st)) [T "Process "; Lb currentNode] st in
            if isTarget endNodeId currentId then
              st ← reached graph currentId currentDist st;
              Returned (true, st)
            else
              let st := foldl (relax graph currentId) st (neighborsOf adjList currentId) in
              let st := setNode currentId NodeState.VISITED st in
              while fuel graph adjList endNodeId st
      end
  end.

Definition fuelFor (graph : Graph) : nat := 2 * length (edges graph) + 2.

Definition start (graph : Graph) (startNodeId : string) : St Locals :=
  let st := mkSt (initialRun graph)
              (mkLocals
                 (foldl (fun m n => <[node_id n :=
                            if bool_decide (node_id n = startNodeId) then 0%float else infinity]> m)
                        ∅ (nodes graph))
                 (foldl (fun m n => <[node_id n := None]> m) ∅ (nodes graph))
                 [] []) in
  let st := onLoc (fun l => mkLocals (dist l) (parent l) (visited l)
                              (PriorityQueue.enqueue startNodeId 0%float (pq l))) st in
  let st := setNode startNodeId NodeState.VISITING st in
  let st := addOperationsCount 1 st in
  pushStep [T "Initialize: Set distance to "; Lb (labelOf graph startNodeId); T " = 0, all others = ∞"]
    1 (view graph (loc st)) [T "Initialize"] st.

Definition finish (graph : Graph) (startNodeId : string) (endNodeId : option string)
    (st : St Locals) : St Locals :=
  match Js.truthyStr endNodeId with
  | None =>
      let st := foldl (fun st n =>
                  if negb (bool_decide (Js.isInfinity <$> dist (loc st) !! node_id n = Some true))
                  then setNode (node_id n) NodeState.IN_SOLUTION st else st) st (nodes graph) in
      pushStep [T "Dijkstra complete. Computed shortest paths from "; Lb (labelOf graph startNodeId);
                T " to all reachable nodes."]
        14 [("distances", formatDist graph (loc st))] [T "Complete"] st
  | Some e =>
      pushStep [T "No path found from "; Lb (labelOf graph startNodeId); T " to ";
                Lb (labelOf graph e); T "."]
        5 [("distances", formatDist graph (loc st))] [T "No Path"] st
  end.

Definition executeDijkstra (graph : Graph) (params : AlgorithmParams) : Outcome (list AlgorithmStep) :=
  match Js.truthyStr (startNodeId params) with
  | None => Returned []
  | Some startNodeId =>
      match getNode graph startNodeId with
      | None => Returned []
      | Some _ =>
          '(returned, st) ← while (fuelFor graph) graph (toAdjacencyList graph)
                              (endNodeId params) (start graph startNodeId);
          if returned : bool then Returned (r_steps (run st))
          else Returned (r_steps (run (finish graph startNodeId (endNodeId params) st)))
      end
  end.
End dijkstra.

(** ** src/algorithms/shortestPath/astar.ts *)

Module astar.
Record Locals := mkLocals {
  gScore : gmap string float;
  fScore : gmap string float;
  cameFrom : gmap string string;
  openSet : PriorityQueue.t;
  closedSet : list string
}.

(** [const h = (nodeId) => ...], the heuristic divided by 100. *)
Definition h (graph : Graph) (endNode : Node) (heuristic : Heuristic) (nodeId : string) : float :=
  match getNode graph nodeId with
  | None => infinity
  | Some node => PrimFloat.div (calculateDistance node endNode heuristic) 100%float
  end.

(** [v === Infinity ? '∞' : v?.toFixed(1)] *)
Definition showFixed (v : option float) : Text :=
  match v with
  | Some w => if Js.isInfinity w then [T "∞"] else [Fx v]
  | None => [Fx v]
  end.

Definition formatScores (graph : Graph) (l : Locals) : View :=
  VRecord ((fun n => (Some (label n),
                      [T "g:"] ++ showFixed (gScore l !! node_id n) ++
                      [T ", f:"] ++ showFixed (fScore l !! node_id n))) <$> nodes graph).

Definition openLabels (graph : Graph) (l : Locals) : View :=
  VLabels ((fun i => labelOf graph i.2) <$> openSet l).

(** The body of [for (const { nodeId: neighborId, weight } of neighbors)]. *)
Definition examine (graph : Graph) (endNode : Node) (heuristic : Heuristic) (currentId : string)
    (st : St Locals) (nb : string * float) : Outcome (St Locals) :=
  let '(neighborId, weight) := nb in
  if Js.setHas neighborId (closedSet (loc st)) then Returned st
  else
    match getNode graph neighborId with
    | None => Threw
    | Some neighborNode =>
        let edge := getEdgeBetween graph currentId neighborId in
        let st := addEdgesExamined 1 st in
        let st := addComparisons 1 st in
        let st := setEdgeIf edge EdgeState.EXAMINING st in
        let tentativeG := PrimFloat.add (Js.or_else (gScore (loc st) !! currentId) 0%float) weight in
        let st := pushStep
            ([T "Check neighbor "; Lb (Some (label neighborNode)); T ". Tentative g: ";
              Fx (Some tentativeG); T ", Current g: "] ++ showFixed (gScore (loc st) !! neighborId))
            9 [("scores", formatScores graph (loc st))]
            [T "Check "; Lb (Some (label neighborNode))] st in
        if Js.lt tentativeG (Js.or_else (gScore (loc st) !! neighborId) infinity) then
          let f := PrimFloat.add tentativeG (h graph endNode heuristic neighborId) in
          let st := onLoc (fun l => mkLocals (<[neighborId := tentativeG]> (gScore l))
                                      (<[neighborId := f]> (fScore l))
                                      (<[neighborId := currentId]> (cameFrom l))
                                      (openSet l) (closedSet l)) st in
          let st := if negb (PriorityQueue.has neighborId (openSet (loc st))) then
                      let st := onLoc (fun l => mkLocals (gScore l) (fScore l) (cameFrom l)
                                                  (PriorityQueue.enqueue neighborId f (openSet l))
                                                  (closedSet l)) st in
                      setNode neighborId NodeState.VISITING st
                    else st in
          Returned (pushStep
            [T "Update "; Lb (Some (label neighborNode)); T ": g="; Fx (Some tentativeG);
             T ", f="; Fx (fScore (loc st) !! neighborId)]
            13 [("scores", formatScores graph (loc st)); ("openSet", openLabels graph (loc st))]
            [T "Update "; Lb (Some (label neighborNode))] st)
        else
          Returned (setEdgeIf edge EdgeState.REJECTED st)
    end.

(** [for (let i = 0; i < path.length - 1; i++)] over the consecutive pairs. *)
Fixpoint markEdges (graph : Graph) (path : list string) (st : St Locals) : St Locals :=
  match path with
  | p :: (q :: _) as rest =>
      markEdges graph rest (setEdgeIf (getEdgeBetween graph p q) EdgeState.IN_SOLUTION st)
  | _ => st
  end.

(** The branch [if (currentId === endNodeId)], which returns. *)
Definition reached (graph : Graph) (endNodeId currentId : string)
    (st : St Locals) : Outcome (St Locals) :=
  path ← walkBack (length (closedSet (loc st)) + 1)
           (fun c => cameFrom (loc st) !! c) (Some currentId) [];
  let st := foldl (fun st id => setNode id NodeState.IN_SOLUTION st) st path in
  let st := markEdges graph path st in
  Returned (pushStep
    [T "Goal reached! Path: "; Jn " → " (labelOf graph <$> path); T ". Cost: ";
     Fx (gScore (loc st) !! endNodeId)]
    6 [("path", VLabels (labelOf graph <$> path))] [T "Path Found"] st).

Fixpoint while (fuel : nat) (graph : Graph) (adjList : AdjList) (endNode : Node)
    (heuristic : Heuristic) (endNodeId : string) (st : St Locals) : Outcome (bool * St Locals) :=
  match openSet (loc st) with
  | [] => Returned (false, st)
  | (_, currentId) :: rest =>
      match fuel with
      | 0 => OutOfFuel
      | S fuel =>
          let st := onLoc (fun l => mkLocals (gScore l) (fScore l) (cameFrom l) rest (closedSet l)) st in
          match getNode graph currentId with
          | None => Threw
          | Some currentNode =>
              let st := addOperationsCount 1 st in
              let st := setNode currentId NodeState.CURRENT st in
              let st := pushStep
                  [T "Select "; Lb (Some (label currentNode)); T " with lowest f-score: ";
                   Fx (fScore (loc st) !! currentId)]
                  5 [("scores", formatScores graph (loc st)); ("openSet", openLabels graph (loc st))]
                  [T "Process "; Lb (Some (label currentNode))] st in
              if bool_decide (currentId = endNodeId) then
                st ← reached graph endNodeId currentId st;
                Returned (true, st)
              else
                let st := onLoc (fun l => mkLocals (gScore l) (fScore l) (cameFrom l) (openSet l)
                                            (Js.setAdd currentId (closedSet l))) st in
                let st := setNode currentId NodeState.VISITED st in
                let st := addNodesVisited 1 st in
                st ← forEach (examine graph endNode heuristic currentId) st
                       (neighborsOf adjList currentId);
                while fuel graph adjList endNode heuristic endNodeId st
          end
      end
  end.

(** Every turn closes one more id, and a closed id is never opened again. *)
Definition fuelFor (graph : Graph) : nat := 2 * length (edges graph) + 2.

Definition start (graph : Graph) (endNode : Node) (heuristic : Heuristic)
    (startNodeId : string) : St Locals :=
  let st := mkSt (initialRun graph)
              (mkLocals (foldl (fun m n => <[node_id n := infinity]> m) ∅ (nodes graph))
                        (foldl (fun m n => <[node_id n := infinity]> m) ∅ (nodes graph))
                        ∅ [] []) in
  let f := h graph endNode heuristic startNodeId in
  let st := onLoc (fun l => mkLocals (<[startNodeId := 0%float]> (gScore l))
                              (<[startNodeId := f]> (fScore l)) (cameFrom l)
                              (PriorityQueue.enqueue startNodeId f (openSet l)) (closedSet l)) st in
  setNode startNodeId NodeState.VISITING st.

Definition heuristicName (heuristic : Heuristic) : string :=
  match heuristic with manhattan => "manhattan" | euclidean => "euclidean" end.

Definition executeAStar (graph : Graph) (params : AlgorithmParams) : Outcome (list AlgorithmStep) :=
  let heuristic := default euclidean (heuristic params) in
  match Js.truthyStr (startNodeId params), Js.truthyStr (endNodeId params) with
  | Some startNodeId, Some endNodeId =>
      match getNode graph startNodeId, getNode graph endNodeId with
      | Some startNode, Some endNode =>
          let st := start graph endNode heuristic startNodeId in
          let st := pushStep
              [T "Initialize A*. Start: "; Lb (Some (label startNode)); T ", Goal: ";
               Lb (Some (label endNode)); T ". Using "; T (heuristicName heuristic); T " heuristic."]
              1 [("scores", formatScores graph (loc st)); ("openSet", openLabels graph (loc st))]
              [T "Initialize"] st in
          '(returned, st) ← while (fuelFor graph) graph (toAdjacencyList graph) endNode
                              heuristic endNodeId st;
          if returned : bool then Returned (r_steps (run st))
          else Returned (r_steps (run (pushStep
                 [T "No path found from "; Lb (Some (label startNode)); T " to ";
                  Lb (Some (label endNode)); T "."]
                 4 [] [T "No Path"] st)))
      | _, _ => Returned []
      end
  | _, _ => Returned []
  end.
End astar.

(** ** src/algorithms/mst/kruskal.ts *)

(** [class UnionFind]. A key or a stored value may be [undefined] (when an
    end of an edge is not a node of the graph), which is [None] here. *)
Module UnionFind.
Abbreviation key := (option string).

Record t := mk {
  parent : gmap key key;
  rank : gmap key nat
}.

(** [this.parent.get(x)] : [undefined] when [x] has no entry. *)
Definition parentOf (uf : t) (x : key) : key := default None (parent uf !! x).

(** [this.rank.get(x) || 0] *)
Definition rankOf (uf : t) (x : key) : nat := default 0 (rank uf !! x).

Definition new (nodes : list string) : t :=
  foldl (fun uf node => mk (<[Some node := Some node]> (parent uf)) (<[Some node := 0]> (rank uf)))
        (mk ∅ ∅) nodes.

Fixpoint find (fuel : nat) (x : key) (uf : t) : Outcome (key * t) :=
  match fuel with
  | 0 => OutOfFuel
  | S fuel =>
      if bool_decide (parentOf uf x ≠ x) then
        '(root, uf) ← find fuel (parentOf uf x) uf;
        let uf := mk (<[x := root]> (parent uf)) (rank uf) in
        Returned (parentOf uf x, uf)
      else Returned (parentOf uf x, uf)
  end.

Definition union (fuel : nat) (x y : key) (uf : t) : Outcome (bool * t) :=
  '(rootX, uf) ← find fuel x uf;
  '(rootY, uf) ← find fuel y uf;
  if bool_decide (rootX = rootY) then Returned (false, uf)
  else
    let rankX := rankOf uf rootX in
    let rankY := rankOf uf rootY in
    if bool_decide (rankX < rankY) then
      Returned (true, mk (<[rootX := rootY]> (parent uf)) (rank uf))
    else if bool_decide (rankY < rankX) then
      Returned (true, mk (<[rootY := rootX]> (parent uf)) (rank uf))
    else
      Returned (true, mk (<[rootY := rootX]> (parent uf)) (<[rootX := rankX + 1]> (rank uf))).
End UnionFind.

Module kruskal.
Record Locals := mkLocals {
  uf : UnionFind.t;
  mstEdges : list string;
  totalWeight : float
}.

Definition byWeight (a b : Edge) : comparison := Js.bySubtraction (weight a) (weight b).

(** [mstEdges.map(id => { const e = graph.edges.find(e => e.id === id)!; ... })] *)
Definition formatMst (graph : Graph) (l : Locals) : Outcome View :=
  ts ← forEach (fun acc id =>
          match List.find (fun e => bool_decide (edge_id e = id)) (edges graph) with
          | Some e => Returned (acc ++ [[Lb (labelOf graph (source e)); T "-"; Lb (labelOf graph (target e))]])
          | None => Threw
          end) [] (mstEdges l);
  Returned (VTexts ts).

Definition view (graph : Graph) (l : Locals) : Outcome (list (string * View)) :=
  mst ← formatMst graph l;
  Returned [("mstEdges", mst); ("totalWeight", VNumber (totalWeight l))].

(** The longest chain of parents [find] can meet. *)
Definition fuelFor (graph : Graph) : nat := length (edges graph) + 3.

(** The body of [for (const edge of sortedEdges)], up to the [break] test. *)
Definition consider (graph : Graph) (st : St Locals) (edge : Edge) : Outcome (St Locals) :=
  let sourceNode := labelOf graph (source edge) in
  let targetNode := labelOf graph (target edge) in
  let st := addEdgesExamined 1 st in
  let st := addComparisons 1 st in
  let st := addOperationsCount 1 st in
  let st := setEdge (edge_id edge) EdgeState.EXAMINING st in
  ds ← view graph (loc st);
  let st := pushStep [T "Consider edge "; Lb sourceNode; T "-"; Lb targetNode; T " (weight: ";
                      Fl (Some (weight edge)); T ")"]
              4 ds [T "Check edge"] st in
  '(joined, uf') ← UnionFind.union (fuelFor graph) (Some (source edge)) (Some (target edge)) (uf (loc st));
  let st := onLoc (fun l => mkLocals uf' (mstEdges l) (totalWeight l)) st in
  if joined : bool then
    let st := onLoc (fun l => mkLocals (uf l) (mstEdges l ++ [edge_id edge])
                                (PrimFloat.add (totalWeight l) (weight edge))) st in
    let st := setEdge (edge_id edge) EdgeState.IN_SOLUTION st in
    let st := setNode (source edge) NodeState.IN_SOLUTION st in
    let st := setNode (target edge) NodeState.IN_SOLUTION st in
    let st := addNodesVisited 2 st in
    ds ← view graph (loc st);
    Returned (pushStep [T "Add edge "; Lb sourceNode; T "-"; Lb targetNode; T " to MST. No cycle created."]
                6 ds [T "Add to MST"] st)
  else
    let st := setEdge (edge_id edge) EdgeState.REJECTED st in
    ds ← view graph (loc st);
    Returned (pushStep [T "Reject edge "; Lb sourceNode; T "-"; Lb targetNode; T ". Would create cycle."]
                5 ds [T "Reject edge"] st).

(** [for (const edge of sortedEdges) { ...; if (mstEdges.length ===
    graph.nodes.length - 1) break; }] *)
Fixpoint loop (graph : Graph) (sortedEdges : list Edge) (st : St Locals) : Outcome (St Locals) :=
  match sortedEdges with
  | [] => Returned st
  | edge :: rest =>
      st ← consider graph st edge;
      if bool_decide (Z.of_nat (length (mstEdges (loc st))) = (Z.of_nat (length (nodes graph)) - 1)%Z)
      then Returned st
      else loop graph rest st
  end.

Definition executeKruskal (graph : Graph) (params : AlgorithmParams) : Outcome (list AlgorithmStep) :=
  let sortedEdges := Js.sortBy byWeight (edges graph) in
  let st := mkSt (initialRun graph)
              (mkLocals (UnionFind.new (node_id <$> nodes graph)) [] 0%float) in
  let st := pushStep [T "Sort "; Ct (length (edges graph)); T " edges by weight."]
              1 [("sortedEdges", VTexts ((fun e =>
                    [Lb (labelOf graph (source e)); T "-"; Lb (labelOf graph (target e));
                     T "("; Fl (Some (weight e)); T ")"]) <$> sortedEdges))]
              [T "Sort edges"] st in
  st ← loop graph sortedEdges st;
  Returned (r_steps (run (pushStep
    [T "Kruskal's complete. MST has "; Ct (length (mstEdges (loc st)));
     T " edges with total weight: "; Fl (Some (totalWeight (loc st)))]
    8 [("totalWeight", VNumber (totalWeight (loc st))); ("edgeCount", VCount (length (mstEdges (loc st))))]
    [T "Complete"] st))).
End kruskal.

(** ** src/algorithms/mst/prim.ts *)

(** [class PriorityQueue] of prim.ts: an entry whose value is already
    queued is updated in place. *)
Module PrimQueue.
Abbreviation t := (list (float * string)).

(** [this.items.findIndex(item => item.value === value)] *)
Fixpoint findIndex (value : string) (items : t) : option nat :=
  match items with
  | [] => None
  | item :: items =>
      if bool_decide (item.2 = value) then Some 0
      else S <$> findIndex value items
  end.

Definition enqueue (value : string) (priority : float) (items : t) : t :=
  match findIndex value items with
  | Some existing =>
      match items !! existing with
      | Some item =>
          if Js.lt priority item.1
          then Js.sortBy PriorityQueue.byPriority (<[existing := (priority, item.2)]> items)
          else items
      | None => items
      end
  | None => Js.sortBy PriorityQueue.byPriority (items ++ [(priority, value)])
  end.
End PrimQueue.

Module prim.
Record Locals := mkLocals {
  key : gmap string float;
  parent : gmap string (option string);
  inMST : list string;
  pq : PrimQueue.t;
  totalWeight : float
}.

Definition formatKeys (graph : Graph) (l : Locals) : View :=
  VRecord ((fun n => (Some (label n), showInfinite (key l !! node_id n))) <$> nodes graph).

(** The body of [for (const { nodeId: neighborId, weight } of neighbors)]. *)
Definition check (graph : Graph) (currentId : string) (currentNode : Node)
    (st : St Locals) (nb : string * float) : Outcome (St Locals) :=
  let '(neighborId, weight) := nb in
  if Js.setHas neighborId (inMST (loc st)) then Returned st
  else
    match getNode graph neighborId with
    | None => Threw
    | Some neighborNode =>
        let edge := getEdgeBetween graph currentId neighborId in
        let st := addEdgesExamined 1 st in
        let st := addComparisons 1 st in
        let st := setEdgeIf edge EdgeState.EXAMINING st in
        let st := pushStep
            ([T "Check edge "; Lb (Some (label currentNode)); T "-"; Lb (Some (label neighborNode));
              T " (weight: "; Fl (Some weight); T "). Current key["; Lb (Some (label neighborNode));
              T "] = "] ++ showInfinite (key (loc st) !! neighborId))
            7 [("keys", formatKeys graph (loc st))] [T "Check "; Lb (Some (label neighborNode))] st in
        if Js.lt weight (Js.or_else (key (loc st) !! neighborId) infinity) then
          let st := onLoc (fun l => mkLocals (<[neighborId := weight]> (key l))
                                      (<[neighborId := Some currentId]> (parent l))
                                      (inMST l)
                                      (PrimQueue.enqueue neighborId weight (pq l))
                                      (totalWeight l)) st in
          let st := setNode neighborId NodeState.VISITING st in
          Returned (pushStep
            [T "Update key["; Lb (Some (label neighborNode)); T "] = "; Fl (Some weight);
             T ", parent = "; Lb (Some (label currentNode))]
            9 [("keys", formatKeys graph (loc st))] [T "Update "; Lb (Some (label neighborNode))] st)
        else
          Returned (rejectUnlessInSolution edge st)
    end.

(** The turn for an id that is not in the tree yet: from [inMST.add(currentId)]
    to the "Add" step; [currentNode.label] throws when the id is not a node. *)
Definition add (graph : Graph) (currentId : string) (st : St Locals) : Outcome (Node * St Locals) :=
  let st := onLoc (fun l => mkLocals (key l) (parent l) (Js.setAdd currentId (inMST l))
                              (pq l) (totalWeight l)) st in
  let st := setNode currentId NodeState.IN_SOLUTION st in
  let st := addNodesVisited 1 st in
  let parentId := Js.truthyStr (mjoin (parent (loc st) !! currentId)) in
  let st := match parentId with
            | Some parentId =>
                match getEdgeBetween graph parentId currentId with
                | Some edge =>
                    let st := setEdge (edge_id edge) EdgeState.IN_SOLUTION st in
                    onLoc (fun l => mkLocals (key l) (parent l) (inMST l) (pq l)
                                      (PrimFloat.add (totalWeight l) (weight edge))) st
                | None => st
                end
            | None => st
            end in
  match getNode graph currentId with
  | None => Threw
  | Some currentNode =>
      Returned (currentNode, pushStep
          ([T "Add "; Lb (Some (label currentNode)); T " to MST"] ++
           match parentId with
           | Some parentId => [T " via edge from "; Lb (labelOf graph parentId)]
           | None => [T ""]
           end ++ [T "."])
          5 [("keys", formatKeys graph (loc st)); ("totalWeight", VNumber (totalWeight (loc st)));
             ("mstSize", VCount (length (inMST (loc st))))]
          [T "Add "; Lb (Some (label currentNode))] st)
  end.

(** [const current = pq.dequeue()!; metrics.operationsCount++] *)
Definition dequeue (rest : PrimQueue.t) (st : St Locals) : St Locals :=
  let st := onLoc (fun l => mkLocals (key l) (parent l) (inMST l) rest (totalWeight l)) st in
  addOperationsCount 1 st.

(** One turn of [while (!pq.isEmpty())], the queue being [current :: rest];
    [onSkip] is the branch [if (inMST.has(currentId)) continue]. *)
Definition turnWith (onSkip : St Locals → Outcome (St Locals)) (graph : Graph) (adjList : AdjList)
    (currentId : string) (rest : PrimQueue.t) (st : St Locals) : Outcome (St Locals) :=
  let st := dequeue rest st in
  if Js.setHas currentId (inMST (loc st)) then onSkip st
  else
    '(currentNode, st) ← add graph currentId st;
    forEach (check graph currentId currentNode) st (neighborsOf adjList currentId).

Fixpoint whileWith (onSkip : St Locals → Outcome (St Locals)) (fuel : nat) (graph : Graph)
    (adjList : AdjList) (st : St Locals) : Outcome (St Locals) :=
  match pq (loc st) with
  | [] => Returned st
  | (_, currentId) :: rest =>
      match fuel with
      | 0 => OutOfFuel
      | S fuel =>
          st ← turnWith onSkip graph adjList currentId rest st;
          whileWith onSkip fuel graph adjList st
      end
  end.

(** The loop of the source: a skipped entry is dropped and the loop goes on. *)
Definition turn := turnWith Returned.
Definition while := whileWith Returned.

(** The queue starts with the nodes of the graph and never grows. *)
Definition fuelFor (graph : Graph) : nat := length (nodes graph) + 1.

(** [graph.nodes.forEach(n => { key.set(...); parent.set(n.id, null);
    pq.enqueue(n.id, ...) })], over the nodes [ns]. *)
Definition initLocals (startNodeId : string) (ns : list Node) : Locals :=
  foldl (fun l n =>
           let k := if bool_decide (node_id n = startNodeId) then 0%float else infinity in
           mkLocals (<[node_id n := k]> (key l)) (<[node_id n := None]> (parent l))
                    (inMST l) (PrimQueue.enqueue (node_id n) k (pq l)) (totalWeight l))
        (mkLocals ∅ ∅ [] [] 0%float) ns.

Definition start (graph : Graph) (startNodeId : string) : St Locals :=
  let st := mkSt (initialRun graph) (initLocals startNodeId (nodes graph)) in
  pushStep [T "Initialize Prim's from "; Lb (labelOf graph startNodeId); T ". Set key[";
            Lb (labelOf graph startNodeId); T "] = 0."]
    1 [("keys", formatKeys graph (loc st))] [T "Initialize"] st.

Definition finish (st : St Locals) : St Locals :=
  pushStep
    [T "Prim's complete. MST has "; Ct (length (inMST (loc st)));
     T " nodes with total weight: "; Fl (Some (totalWeight (loc st)))]
    9 [("totalWeight", VNumber (totalWeight (loc st))); ("nodeCount", VCount (length (inMST (loc st))))]
    [T "Complete"] st.

(** [executePrim], with the branch of the skipped entries as a parameter. *)
Definition executePrimWith (onSkip : St Locals → Outcome (St Locals))
    (graph : Graph) (params : AlgorithmParams) : Outcome (list AlgorithmStep) :=
  match Js.truthyStr (startNodeId params) with
  | None => Returned []
  | Some startNodeId =>
      st ← whileWith onSkip (fuelFor graph) graph (toAdjacencyList graph) (start graph startNodeId);
      Returned (r_steps (run (finish st)))
  end.

Definition executePrim : Graph → AlgorithmParams → Outcome (list AlgorithmStep) :=
  executePrimWith Returned.
End prim.

(** ** src/algorithms/other/topological.ts *)

Module topological.
Record Locals := mkLocals {
  inDegree : gmap string Z;
  queue : list string;
  result : list string
}.

(** [inDegree.get(id) || 0] *)
Definition degreeOf (l : Locals) (nodeId : string) : Z := default 0%Z (inDegree l !! nodeId).

Definition formatInDegrees (graph : Graph) (l : Locals) : View :=
  VRecord ((fun n => (Some (label n), [Zn (degreeOf l (node_id n))])) <$> nodes graph).

Definition view (graph : Graph) (l : Locals) : list (string * View) :=
  [("inDegrees", formatInDegrees graph l);
   ("queue", VLabels (labelOf graph <$> queue l));
   ("result", VLabels (labelOf graph <$> result l))].

(** The body of [for (const edge of graph.edges.filter(e => e.source === currentId))]. *)
Definition release (graph : Graph) (st : St Locals) (edge : Edge) : Outcome (St Locals) :=
  let neighborId := target edge in
  match getNode graph neighborId with
  | None => Threw
  | Some neighborNode =>
      let st := addEdgesExamined 1 st in
      let st := setEdge (edge_id edge) EdgeState.IN_SOLUTION st in
      let newDegree := (degreeOf (loc st) neighborId - 1)%Z in
      let st := onLoc (fun l => mkLocals (<[neighborId := newDegree]> (inDegree l)) (queue l) (result l)) st in
      let st := pushStep [T "Decrement in-degree of "; Lb (Some (label neighborNode)); T " to ";
                          Zn newDegree; T "."]
                  8 (view graph (loc st)) [T "Update "; Lb (Some (label neighborNode))] st in
      if bool_decide (newDegree = 0%Z) then
        let st := onLoc (fun l => mkLocals (inDegree l) (queue l ++ [neighborId]) (result l)) st in
        let st := setNode neighborId NodeState.VISITING st in
        Returned (pushStep [Lb (Some (label neighborNode)); T " has in-degree 0. Add to queue."]
                    9 (view graph (loc st)) [T "Enqueue "; Lb (Some (label neighborNode))] st)
      else Returned st
  end.

(** One turn of [while (queue.length > 0)], the queue being [currentId :: rest]. *)
Definition turn (graph : Graph) (currentId : string) (rest : list string)
    (st : St Locals) : Outcome (St Locals) :=
  let st := onLoc (fun l => mkLocals (inDegree l) rest (result l ++ [currentId])) st in
  match getNode graph currentId with
  | None => Threw
  | Some currentNode =>
      let st := addNodesVisited 1 st in
      let st := addOperationsCount 1 st in
      let st := setNode currentId NodeState.CURRENT st in
      let st := pushStep [T "Dequeue "; Lb (Some (label currentNode)); T ". Add to result."]
                  5 (view graph (loc st)) [T "Process "; Lb (Some (label currentNode))] st in
      st ← forEach (release graph) st
             (filter (fun e => source e = currentId) (edges graph));
      Returned (setNode currentId NodeState.IN_SOLUTION st)
  end.

Fixpoint while (fuel : nat) (graph : Graph) (st : St Locals) : Outcome (St Locals) :=
  match queue (loc st) with
  | [] => Returned st
  | currentId :: rest =>
      match fuel with
      | 0 => OutOfFuel
      | S fuel =>
          st ← turn graph currentId rest st;
          while fuel graph st
      end
  end.

(** A turn dequeues one id; an id is enqueued when its in-degree reaches
    zero, which happens at most once. *)
Definition fuelFor (graph : Graph) : nat := length (nodes graph) + length (edges graph) + 1.

Definition start (graph : Graph) : St Locals :=
  let counted := foldl (fun m n => <[node_id n := 0%Z]> m) ∅ (nodes graph) in
  let counted := foldl (fun m edge => <[target edge := (default 0%Z (m !! target edge) + 1)%Z]> m)
                   counted (edges graph) in
  let st := mkSt (initialRun graph) (mkLocals counted [] []) in
  let st := pushStep [T "Calculate in-degree for each vertex."]
              1 [("inDegrees", formatInDegrees graph (loc st))] [T "Calculate in-degrees"] st in
  let st := foldl (fun st n =>
              if bool_decide (inDegree (loc st) !! node_id n = Some 0%Z) then
                let st := onLoc (fun l => mkLocals (inDegree l) (queue l ++ [node_id n]) (result l)) st in
                setNode (node_id n) NodeState.VISITING st
              else st) st (nodes graph) in
  pushStep [T "Initialize queue with nodes having in-degree 0: ";
            Jn ", " (labelOf graph <$> queue (loc st))]
    2 [("inDegrees", formatInDegrees graph (loc st)); ("queue", VLabels (labelOf graph <$> queue (loc st)))]
    [T "Initialize queue"] st.

Definition finish (graph : Graph) (st : St Locals) : St Locals :=
  let result := result (loc st) in
  if bool_decide (length result < length (nodes graph)) then
    pushStep [T "Cycle detected! Only "; Ct (length result); T " of "; Ct (length (nodes graph));
              T " nodes processed."]
      10 [("result", VLabels (labelOf graph <$> result))] [T "Cycle Detected"] st
  else
    pushStep [T "Topological sort complete: "; Jn " → " (labelOf graph <$> result)]
      10 [("result", VLabels (labelOf graph <$> result))] [T "Complete"] st.

Definition executeTopologicalSort (graph : Graph) (params : AlgorithmParams)
    : Outcome (list AlgorithmStep) :=
  if negb (directed graph) then Returned []
  else
    st ← while (fuelFor graph) graph (start graph);
    Returned (r_steps (run (finish graph st))).
End topological.

(** ** src/algorithms/other/cycleDetection.ts *)

Module cycleDetection.
Inductive Color := WHITE | GRAY | BLACK.
#[global] Instance Color_eq_dec : EqDecision Color.
Proof. solve_decision. Defined.

Definition colorName (c : Color) : string :=
  match c with WHITE => "white" | GRAY => "gray" | BLACK => "black" end.

Record Locals := mkLocals {
  color : list (string * Color);
  cycleFound : bool;
  cycleEdge : option (string * string)
}.

Definition setColor (nodeId : string) (c : Color) (l : Locals) : Locals :=
  mkLocals (Js.mapSet nodeId c (color l)) (cycleFound l) (cycleEdge l).

Definition colors (graph : Graph) (l : Locals) : list (string * View) :=
  [("colors", VRecord ((fun kv => (labelOf graph kv.1, [T (colorName kv.2)])) <$> color l))].

(** [for (const { nodeId: neighborId } of neighbors)] inside [dfs(nodeId)];
    [recurse] is [dfs], and the flag is the value [dfs] returns when the
    loop is left by [return true]. *)
Fixpoint forNeighbors (recurse : string → St Locals → Outcome (bool * St Locals))
    (graph : Graph) (nodeId : string) (node : Node) (neighbors : list (string * float))
    (st : St Locals) : Outcome (bool * St Locals) :=
  match neighbors with
  | [] => Returned (false, st)
  | (neighborId, _) :: rest =>
      match getNode graph neighborId with
      | None => Threw
      | Some neighborNode =>
          let edge := getEdgeBetween graph nodeId neighborId in
          let st := addEdgesExamined 1 st in
          let st := addComparisons 1 st in
          let st := setEdgeIf edge EdgeState.EXAMINING st in
          let neighborColor := Js.mapGet neighborId (color (loc st)) in
          let st := pushStep [T "Check neighbor "; Lb (Some (label neighborNode)); T ". Color: ";
                              Lb (colorName <$> neighborColor); T "."]
                      10 (colors graph (loc st)) [T "Check "; Lb (Some (label neighborNode))] st in
          if bool_decide (neighborColor = Some GRAY) then
            let st := onLoc (fun l => mkLocals (color l) true (Some (nodeId, neighborId))) st in
            let st := setEdgeIf edge EdgeState.IN_SOLUTION st in
            let st := setNode neighborId NodeState.IN_SOLUTION st in
            Returned (true, pushStep
              [T "CYCLE DETECTED! Back edge from "; Lb (Some (label node)); T " to ";
               Lb (Some (label neighborNode)); T " (GRAY node)."]
              11 [("cycleEdge", VText [Lb (Some (label node)); T " → "; Lb (Some (label neighborNode))])]
              [T "Cycle Found"] st)
          else if bool_decide (neighborColor = Some WHITE) then
            let st := setEdgeIf edge EdgeState.IN_SOLUTION st in
            '(found, st) ← recurse neighborId st;
            if found : bool then Returned (true, st)
            else forNeighbors recurse graph nodeId node rest st
          else
            let st := setEdgeIf edge EdgeState.REJECTED st in
            forNeighbors recurse graph nodeId node rest st
      end
  end.

(** [function dfs(nodeId): boolean]; [fuel] bounds the depth of the calls. *)
Fixpoint dfs (fuel : nat) (graph : Graph) (adjList : AdjList) (nodeId : string)
    (st : St Locals) : Outcome (bool * St Locals) :=
  match fuel with
  | 0 => OutOfFuel
  | S fuel =>
      match getNode graph nodeId with
      | None => Threw
      | Some node =>
          let st := onLoc (setColor nodeId GRAY) st in
          let st := setNode nodeId NodeState.VISITING st in
          let st := addNodesVisited 1 st in
          let st := addOperationsCount 1 st in
          let st := pushStep [T "Visit "; Lb (Some (label node)); T ". Color GRAY (in current path)."]
                      9 (colors graph (loc st)) [T "Visit "; Lb (Some (label node))] st in
          '(found, st) ← forNeighbors (dfs fuel graph adjList) graph nodeId node
                           (neighborsOf adjList nodeId) st;
          if found : bool then Returned (true, st)
          else
            let st := onLoc (setColor nodeId BLACK) st in
            let st := setNode nodeId NodeState.VISITED st in
            Returned (false, pushStep
              [T "Finish "; Lb (Some (label node)); T ". Color BLACK (completely processed)."]
              13 (colors graph (loc st)) [T "Finish "; Lb (Some (label node))] st)
      end
  end.

(** [for (const node of graph.nodes) { if (color.get(node.id) === WHITE) {
    ...; if (dfs(node.id)) break; } }] *)
Fixpoint roots (fuel : nat) (graph : Graph) (adjList : AdjList) (ns : list Node)
    (st : St Locals) : Outcome (St Locals) :=
  match ns with
  | [] => Returned st
  | node :: rest =>
      if bool_decide (Js.mapGet (node_id node) (color (loc st)) = Some WHITE) then
        let st := pushStep [T "Start DFS from unvisited node "; Lb (Some (label node)); T "."]
                    3 (colors graph (loc st)) [T "Start from "; Lb (Some (label node))] st in
        '(found, st) ← dfs fuel graph adjList (node_id node) st;
        if found : bool then Returned st
        else roots fuel graph adjList rest st
      else roots fuel graph adjList rest st
  end.

(** A call of [dfs] on a white node colours it; the calls nest no deeper
    than there are nodes. *)
Definition fuelFor (graph : Graph) : nat := length (nodes graph) + 1.

Definition start (graph : Graph) : St Locals :=
  let st := mkSt (initialRun graph)
              (mkLocals (foldl (fun c n => Js.mapSet (node_id n) WHITE c) [] (nodes graph)) false None) in
  pushStep [T "Initialize: Color all vertices WHITE."]
    1 (colors graph (loc st)) [T "Initialize"] st.

Definition finish (graph : Graph) (st : St Locals) : Outcome (St Locals) :=
  if cycleFound (loc st) then
    match cycleEdge (loc st) with
    | None => Threw
    | Some (s, t) =>
        Returned (pushStep
          [T "Cycle detection complete. CYCLE FOUND via edge "; Lb (labelOf graph s); T " → ";
           Lb (labelOf graph t)]
          5 [("hasCycle", VBool true)] [T "Complete - Cycle Found"] st)
    end
  else
    let st := foldl (fun st n => setNode (node_id n) NodeState.IN_SOLUTION st) st (nodes graph) in
    Returned (pushStep [T "Cycle detection complete. NO CYCLE found. Graph is acyclic."]
                6 [("hasCycle", VBool false)] [T "Complete - No Cycle"] st).

Definition executeCycleDetection (graph : Graph) (params : AlgorithmParams)
    : Outcome (list AlgorithmStep) :=
  st ← roots (fuelFor graph) graph (toAdjacencyList graph) (nodes graph) (start graph);
  st ← finish graph st;
  Returned (r_steps (run st)).
End cycleDetection.

(** ** src/algorithms/other/connectedComponents.ts *)

Module connectedComponents.
Definition COMPONENT_COLORS : list NodeState.t :=
  [NodeState.IN_SOLUTION; NodeState.VISITING; NodeState.VISITED; NodeState.IN_PATH; NodeState.CURRENT].

Record Locals := mkLocals {
  visited : list string;
  component : list (string * nat);
  componentId : nat
}.

(** [if (!comps[key]) comps[key] = []; comps[key].push(name)] *)
Fixpoint groupPush (compId : nat) (name : string) (comps : list (nat * list string))
    : list (nat * list string) :=
  match comps with
  | [] => [(compId, [name])]
  | kv :: comps' =>
      if bool_decide (kv.1 = compId) then (compId, kv.2 ++ [name]) :: comps'
      else kv :: groupPush compId name comps'
  end.

Definition formatComponents (graph : Graph) (l : Locals) : View :=
  VGroups ((fun kv => ([T "Component "; Ct (kv.1 + 1)], kv.2)) <$>
    foldl (fun comps kv =>
             groupPush kv.2 (default kv.1 (Js.truthyStr (labelOf graph kv.1))) comps)
          [] (component l)).

(** [function dfs(nodeId, compId): void]; [fuel] bounds the depth of the calls. *)
Fixpoint dfs (fuel : nat) (graph : Graph) (adjList : AdjList) (compId : nat) (nodeId : string)
    (st : St Locals) : Outcome (St Locals) :=
  match fuel with
  | 0 => OutOfFuel
  | S fuel =>
      let st := onLoc (fun l => mkLocals (Js.setAdd nodeId (visited l))
                                  (Js.mapSet nodeId compId (component l)) (componentId l)) st in
      let st := setNode nodeId
                  (default NodeState.IN_SOLUTION
                     (COMPONENT_COLORS !! (compId mod length COMPONENT_COLORS))) st in
      let st := addNodesVisited 1 st in
      let st := addOperationsCount 1 st in
      match getNode graph nodeId with
      | None => Threw
      | Some node =>
          let st := pushStep [T "Visit "; Lb (Some (label node)); T ". Assign to component ";
                              Ct (compId + 1); T "."]
                      8 [("componentCount", VCount (compId + 1));
                         ("components", formatComponents graph (loc st))]
                      [T "Visit "; Lb (Some (label node))] st in
          forEach (fun st (nb : string * float) =>
                     let neighborId := nb.1 in
                     let edge := getEdgeBetween graph nodeId neighborId in
                     let st := addEdgesExamined 1 st in
                     if negb (Js.setHas neighborId (visited (loc st))) then
                       let st := setEdgeIf edge EdgeState.IN_SOLUTION st in
                       dfs fuel graph adjList compId neighborId st
                     else Returned st)
                  st (neighborsOf adjList nodeId)
      end
  end.

(** The body of [for (const node of graph.nodes)]. *)
Definition component_of (fuel : nat) (graph : Graph) (adjList : AdjList)
    (st : St Locals) (node : Node) : Outcome (St Locals) :=
  if negb (Js.setHas (node_id node) (visited (loc st))) then
    let compId := componentId (loc st) in
    let st := pushStep [T "Start new component "; Ct (compId + 1); T " from ";
                        Lb (Some (label node)); T "."]
                4 [("componentCount", VCount (compId + 1))]
                [T "New component from "; Lb (Some (label node))] st in
    st ← dfs fuel graph adjList compId (node_id node) st;
    Returned (onLoc (fun l => mkLocals (visited l) (component l) (componentId l + 1)) st)
  else Returned st.

(** A call of [dfs] visits an unvisited node, or throws at once. *)
Definition fuelFor (graph : Graph) : nat := length (nodes graph) + 1.

Definition start (graph : Graph) : St Locals :=
  let st := mkSt (initialRun graph) (mkLocals [] [] 0) in
  pushStep [T "Start finding connected components."]
    0 [("componentCount", VCount 0)] [T "Initialize"] st.

Definition executeConnectedComponents (graph : Graph) (params : AlgorithmParams)
    : Outcome (list AlgorithmStep) :=
  st ← forEach (component_of (fuelFor graph) graph (toAdjacencyList graph)) (start graph) (nodes graph);
  Returned (r_steps (run (pushStep
    [T "Found "; Ct (componentId (loc st)); T " connected component(s)."]
    5 [("componentCount", VCount (componentId (loc st)));
       ("components", formatComponents graph (loc st))]
    [T "Complete"] st))).
End connectedComponents.

(** ** src/algorithms/index.ts *)

Inductive Algorithm :=
| BFS | DFS | Dijkstra | AStar | Kruskal | Prim | TopologicalSort | CycleDetection | ConnectedComponents.

(** The applicability flags of [AlgorithmConfig] (the texts are left out). *)
Record AlgorithmConfig := mkConfig {
  config_id : string;
  requiresWeighted : bool;
  requiresDirected : option bool;
  requiresStartNode : bool;
  requiresEndNode : bool
}.

Definition config (a : Algorithm) : AlgorithmConfig :=
  match a with
  | BFS => mkConfig "bfs" false None true false
  | DFS => mkConfig "dfs" false None true false
  | Dijkstra => mkConfig "dijkstra" false None true true
  | AStar => mkConfig "astar" false None true true
  | Kruskal => mkConfig "kruskal" false (Some false) false false
  | Prim => mkConfig "prim" false (Some false) true false
  | TopologicalSort => mkConfig "topological" false (Some true) false false
  | CycleDetection => mkConfig "cycleDetection" false None false false
  | ConnectedComponents => mkConfig "connectedComponents" false (Some false) false false
  end.

Definition algorithms : list Algorithm :=
  [BFS; DFS; Dijkstra; AStar; Kruskal; Prim; TopologicalSort; CycleDetection; ConnectedComponents].

Definition execute (a : Algorithm) : Graph → AlgorithmParams → Outcome (list AlgorithmStep) :=
  match a with
  | BFS => bfs.executeBFS
  | DFS => dfs.executeDFS
  | Dijkstra => dijkstra.executeDijkstra
  | AStar => astar.executeAStar
  | Kruskal => kruskal.executeKruskal
  | Prim => prim.executePrim
  | TopologicalSort => topological.executeTopologicalSort
  | CycleDetection => cycleDetection.executeCycleDetection
  | ConnectedComponents => connectedComponents.executeConnectedComponents
  end.

(** ** src/algorithms/index.ts: lookup and applicability *)

(** [algorithms.find(a => a.id === id)] *)
Definition getAlgorithm (id : string) : option Algorithm :=
  List.find (fun a => bool_decide (config_id (config a) = id)) algorithms.

Definition getAlgorithmById : string → option Algorithm := getAlgorithm.

(** [{ valid: boolean; reason?: string }] *)
Module Validity.
Record t := mk { valid : bool; reason : option string }.
End Validity.

Definition isAlgorithmValidForGraph (algorithmId : string) (graph : Graph) : Validity.t :=
  match getAlgorithm algorithmId with
  | None => Validity.mk false (Some "Algorithm not found")
  | Some algo =>
      if bool_decide (requiresDirected (config algo) = Some true) && negb (directed graph)
      then Validity.mk false (Some "This algorithm requires a directed graph")
      else if bool_decide (requiresDirected (config algo) = Some false) && directed graph
      then Validity.mk false (Some "This algorithm requires an undirected graph")
      else Validity.mk true None
  end.

(** ** src/store/algorithmStore.ts *)

Module algorithmStore.
Inductive PlaybackSpeed := speed_half | speed_1 | speed_2 | speed_5.

Local Abbreviation stepNodeStates := nodeStates.
Local Abbreviation stepEdgeStates := edgeStates.

Record State := mkState {
  selectedAlgorithmId : option string;
  algorithmParams : AlgorithmParams;
  steps : list AlgorithmStep;
  currentStepIndex : Z;
  isPlaying : bool;
  speed : PlaybackSpeed;
  nodeStates : gmap string NodeState.t;
  edgeStates : gmap string EdgeState.t
}.

(** A [Partial<AlgorithmParams>]: a key is absent ([None]) or present with
    a value that may be [undefined]. *)
Record PartialParams := mkPartial {
  p_startNodeId : option (option string);
  p_endNodeId : option (option string);
  p_heuristic : option (option Heuristic)
}.

Definition initial : State :=
  mkState None (mkParams None None None) [] (-1) false speed_1 ∅ ∅.

Definition selectAlgorithm (algorithmId : option string) (s : State) : State :=
  mkState algorithmId (algorithmParams s) [] (-1) false (speed s) ∅ ∅.

(** [{ ...state.algorithmParams, ...params }] *)
Definition setAlgorithmParams (params : PartialParams) (s : State) : State :=
  let old := algorithmParams s in
  mkState (selectedAlgorithmId s)
    (mkParams (default (startNodeId old) (p_startNodeId params))
              (default (endNodeId old) (p_endNodeId params))
              (default (heuristic old) (p_heuristic params)))
    (steps s) (currentStepIndex s) (isPlaying s) (speed s) (nodeStates s) (edgeStates s).

Definition runAlgorithm (graph : Graph) (s : State) : Outcome State :=
  match Js.truthyStr (selectedAlgorithmId s) with
  | None => Returned s
  | Some id =>
      match List.find (fun a => bool_decide (config_id (config a) = id)) algorithms with
      | None => Returned s
      | Some algorithm =>
          steps ← execute algorithm graph (algorithmParams s);
          Returned (mkState (selectedAlgorithmId s) (algorithmParams s) steps (-1) false
                      (speed s) ∅ ∅)
      end
  end.

Definition resetExecution (s : State) : State :=
  mkState (selectedAlgorithmId s) (algorithmParams s) [] (-1) false (speed s) ∅ ∅.

Definition setPlaying (b : bool) (s : State) : State :=
  mkState (selectedAlgorithmId s) (algorithmParams s) (steps s) (currentStepIndex s) b
    (speed s) (nodeStates s) (edgeStates s).

Definition play : State → State := setPlaying true.
Definition pause : State → State := setPlaying false.

Definition applyStep (stepIndex : Z) (s : State) : State :=
  if bool_decide (0 ≤ stepIndex)%Z && bool_decide (stepIndex < Z.of_nat (length (steps s)))%Z then
    match steps s !! Z.to_nat stepIndex with
    | Some step =>
        mkState (selectedAlgorithmId s) (algorithmParams s) (steps s) stepIndex (isPlaying s)
          (speed s) (stepNodeStates step) (stepEdgeStates step)
    | None => s
    end
  else s.

Definition stepForward (s : State) : State :=
  if bool_decide (currentStepIndex s < Z.of_nat (length (steps s)) - 1)%Z
  then applyStep (currentStepIndex s + 1) s
  else setPlaying false s.

Definition stepBackward (s : State) : State :=
  if bool_decide (0 < currentStepIndex s)%Z then applyStep (currentStepIndex s - 1) s
  else if bool_decide (currentStepIndex s = 0)%Z then
    mkState (selectedAlgorithmId s) (algorithmParams s) (steps s) (-1) (isPlaying s)
      (speed s) ∅ ∅
  else s.

Definition jumpToStart (s : State) : State :=
  mkState (selectedAlgorithmId s) (algorithmParams s) (steps s) (-1) false (speed s) ∅ ∅.

Definition jumpToEnd (s : State) : State :=
  if bool_decide (0 < length (steps s))
  then setPlaying false (applyStep (Z.of_nat (length (steps s)) - 1) s)
  else s.

Definition setSpeed (sp : PlaybackSpeed) (s : State) : State :=
  mkState (selectedAlgorithmId s) (algorithmParams s) (steps s) (currentStepIndex s)
    (isPlaying s) sp (nodeStates s) (edgeStates s).

(** The actions of the store. *)
Inductive Action :=
| SelectAlgorithm (algorithmId : option string)
| SetAlgorithmParams (params : PartialParams)
| RunAlgorithm (graph : Graph)
| ResetExecution
| Play
| Pause
| StepForward
| StepBackward
| JumpToStart
| JumpToEnd
| SetSpeed (sp : PlaybackSpeed)
| ApplyStep (stepIndex : Z).

Definition dispatch (a : Action) (s : State) : Outcome State :=
  match a with
  | SelectAlgorithm id => Returned (selectAlgorithm id s)
  | SetAlgorithmParams p => Returned (setAlgorithmParams p s)
  | RunAlgorithm graph => runAlgorithm graph s
  | ResetExecution => Returned (resetExecution s)
  | Play => Returned (play s)
  | Pause => Returned (pause s)
  | StepForward => Returned (stepForward s)
  | StepBackward => Returned (stepBackward s)
  | JumpToStart => Returned (jumpToStart s)
  | JumpToEnd => Returned (jumpToEnd s)
  | SetSpeed sp => Returned (setSpeed sp s)
  | ApplyStep i => Returned (applyStep i s)
  end.

(** The store after an action: an action that throws has set nothing. *)
Definition after (s : State) (a : Action) : State :=
  match dispatch a s with
  | Returned s' => s'
  | _ => s
  end.
End algorithmStore.

(** ** src/store/comparisonStore.ts *)

Module comparisonStore.
Record State := mkState {
  isComparisonMode : bool;
  algorithm1Id : option string;
  algorithm2Id : option string;
  steps1 : list AlgorithmStep;
  steps2 : list AlgorithmStep;
  currentStep1 : Z;
  currentStep2 : Z;
  isPlaying : bool;
  speed : algorithmStore.PlaybackSpeed;
  nodeStates1 : gmap string NodeState.t;
  edgeStates1 : gmap string EdgeState.t;
  nodeStates2 : gmap string NodeState.t;
  edgeStates2 : gmap string EdgeState.t;
  startNodeId : option string;
  endNodeId : option string
}.

Definition initial : State :=
  mkState false None None [] [] (-1) (-1) false algorithmStore.speed_1 ∅ ∅ ∅ ∅ None None.

(** [steps[i]], for an integer [i]. *)
Definition at_ (steps : list AlgorithmStep) (i : Z) : option AlgorithmStep :=
  if bool_decide (0 ≤ i)%Z then steps !! Z.to_nat i else None.

(** [steps[i]?.nodeStates || new Map()] and [steps[i]?.edgeStates || new Map()] *)
Definition nodesAt (steps : list AlgorithmStep) (i : Z) : gmap string NodeState.t :=
  default ∅ (nodeStates <$> at_ steps i).
Definition edgesAt (steps : list AlgorithmStep) (i : Z) : gmap string EdgeState.t :=
  default ∅ (edgeStates <$> at_ steps i).

(** [set({ currentStep1, currentStep2, nodeStates1: steps1[..]?.nodeStates || new Map(), ... })] *)
Definition show (i1 i2 : Z) (playing : bool) (s : State) : State :=
  mkState (isComparisonMode s) (algorithm1Id s) (algorithm2Id s) (steps1 s) (steps2 s)
    i1 i2 playing (speed s)
    (nodesAt (steps1 s) i1) (edgesAt (steps1 s) i1)
    (nodesAt (steps2 s) i2) (edgesAt (steps2 s) i2)
    (startNodeId s) (endNodeId s).

Definition enableComparisonMode (s : State) : State :=
  mkState true (algorithm1Id s) (algorithm2Id s) (steps1 s) (steps2 s)
    (currentStep1 s) (currentStep2 s) (isPlaying s) (speed s)
    (nodeStates1 s) (edgeStates1 s) (nodeStates2 s) (edgeStates2 s)
    (startNodeId s) (endNodeId s).

Definition disableComparisonMode (s : State) : State :=
  mkState false None None [] [] (-1) (-1) false (speed s) ∅ ∅ ∅ ∅ (startNodeId s) (endNodeId s).

Definition selectAlgorithm1 (id : option string) (s : State) : State :=
  mkState (isComparisonMode s) id (algorithm2Id s) (steps1 s) (steps2 s)
    (currentStep1 s) (currentStep2 s) (isPlaying s) (speed s)
    (nodeStates1 s) (edgeStates1 s) (nodeStates2 s) (edgeStates2 s)
    (startNodeId s) (endNodeId s).

Definition selectAlgorithm2 (id : option string) (s : State) : State :=
  mkState (isComparisonMode s) (algorithm1Id s) id (steps1 s) (steps2 s)
    (currentStep1 s) (currentStep2 s) (isPlaying s) (speed s)
    (nodeStates1 s) (edgeStates1 s) (nodeStates2 s) (edgeStates2 s)
    (startNodeId s) (endNodeId s).

Definition setStartNode (nodeId : option string) (s : State) : State :=
  mkState (isComparisonMode s) (algorithm1Id s) (algorithm2Id s) (steps1 s) (steps2 s)
    (currentStep1 s) (currentStep2 s) (isPlaying s) (speed s)
    (nodeStates1 s) (edgeStates1 s) (nodeStates2 s) (edgeStates2 s)
    nodeId (endNodeId s).

Definition setEndNode (nodeId : option string) (s : State) : State :=
  mkState (isComparisonMode s) (algorithm1Id s) (algorithm2Id s) (steps1 s) (steps2 s)
    (currentStep1 s) (currentStep2 s) (isPlaying s) (speed s)
    (nodeStates1 s) (edgeStates1 s) (nodeStates2 s) (edgeStates2 s)
    (startNodeId s) nodeId.

(** [try { ... set({...}) } catch (error) { console.error(...) }]: when one
    of the two executors throws, nothing is set. *)
Definition runComparison (graph : Graph) (s : State) : State :=
  match Js.truthyStr (algorithm1Id s), Js.truthyStr (algorithm2Id s) with
  | Some id1, Some id2 =>
      match getAlgorithmById id1, getAlgorithmById id2 with
      | Some algo1, Some algo2 =>
          let params := mkParams (Js.truthyStr (startNodeId s)) (Js.truthyStr (endNodeId s)) None in
          match execute algo1 graph params, execute algo2 graph params with
          | Returned steps1, Returned steps2 =>
              mkState (isComparisonMode s) (algorithm1Id s) (algorithm2Id s) steps1 steps2
                0 0 (isPlaying s) (speed s)
                (nodesAt steps1 0) (edgesAt steps1 0) (nodesAt steps2 0) (edgesAt steps2 0)
                (startNodeId s) (endNodeId s)
          | _, _ => s
          end
      | _, _ => s
      end
  | _, _ => s
  end.

Definition resetComparison (s : State) : State :=
  mkState (isComparisonMode s) (algorithm1Id s) (algorithm2Id s) [] [] (-1) (-1) false (speed s)
    ∅ ∅ ∅ ∅ (startNodeId s) (endNodeId s).

Definition setPlaying (b : bool) (s : State) : State :=
  mkState (isComparisonMode s) (algorithm1Id s) (algorithm2Id s) (steps1 s) (steps2 s)
    (currentStep1 s) (currentStep2 s) b (speed s)
    (nodeStates1 s) (edgeStates1 s) (nodeStates2 s) (edgeStates2 s)
    (startNodeId s) (endNodeId s).

Definition play : State → State := setPlaying true.
Definition pause : State → State := setPlaying false.

Definition setSpeed (sp : algorithmStore.PlaybackSpeed) (s : State) : State :=
  mkState (isComparisonMode s) (algorithm1Id s) (algorithm2Id s) (steps1 s) (steps2 s)
    (currentStep1 s) (currentStep2 s) (isPlaying s) sp
    (nodeStates1 s) (edgeStates1 s) (nodeStates2 s) (edgeStates2 s)
    (startNodeId s) (endNodeId s).

Definition stepForward (s : State) : State :=
  let newStep1 := Z.min (currentStep1 s + 1) (Z.of_nat (length (steps1 s)) - 1) in
  let newStep2 := Z.min (currentStep2 s + 1) (Z.of_nat (length (steps2 s)) - 1) in
  let s := show newStep1 newStep2 (isPlaying s) s in
  if bool_decide (Z.of_nat (length (steps1 s)) - 1 ≤ newStep1)%Z &&
     bool_decide (Z.of_nat (length (steps2 s)) - 1 ≤ newStep2)%Z
  then setPlaying false s else s.

Definition stepBackward (s : State) : State :=
  let newStep1 := Z.max (currentStep1 s - 1) 0 in
  let newStep2 := Z.max (currentStep2 s - 1) 0 in
  show newStep1 newStep2 (isPlaying s) s.

Definition jumpToStart (s : State) : State := show 0 0 false s.

Definition jumpToEnd (s : State) : State :=
  show (Z.of_nat (length (steps1 s)) - 1) (Z.of_nat (length (steps2 s)) - 1) false s.

Inductive Action :=
| EnableComparisonMode
| DisableComparisonMode
| SelectAlgorithm1 (id : option string)
| SelectAlgorithm2 (id : option string)
| SetStartNode (nodeId : option string)
| SetEndNode (nodeId : option string)
| RunComparison (graph : Graph)
| ResetComparison
| Play
| Pause
| SetSpeed (sp : algorithmStore.PlaybackSpeed)
| StepForward
| StepBackward
| JumpToStart
| JumpToEnd.

Definition after (s : State) (a : Action) : State :=
  match a with
  | EnableComparisonMode => enableComparisonMode s
  | DisableComparisonMode => disableComparisonMode s
  | SelectAlgorithm1 id => selectAlgorithm1 id s
  | SelectAlgorithm2 id => selectAlgorithm2 id s
  | SetStartNode n => setStartNode n s
  | SetEndNode n => setEndNode n s
  | RunComparison graph => runComparison graph s
  | ResetComparison => resetComparison s
  | Play => play s
  | Pause => pause s
  | SetSpeed sp => setSpeed sp s
  | StepForward => stepForward s
  | StepBackward => stepBackward s
  | JumpToStart => jumpToStart s
  | JumpToEnd => jumpToEnd s
  end.
End comparisonStore.

(** * Properties *)

(** ** The shared state: complete maps and growing counters *)

Definition complete (graph : Graph) (ns : gmap string NodeState.t) (es : gmap string EdgeState.t) : Prop :=
  (∀ n, n ∈ nodes graph → is_Some (ns !! node_id n)) ∧
  (∀ e, e ∈ edges graph → is_Some (es !! edge_id e)).

Definition stepComplete (graph : Graph) (s : AlgorithmStep) : Prop :=
  complete graph (nodeStates s) (edgeStates s).

Definition metricsLe (a b : AlgorithmMetrics) : Prop :=
  nodesVisited a ≤ nodesVisited b ∧ edgesExamined a ≤ edgesExamined b ∧
  operationsCount a ≤ operationsCount b ∧ comparisons a ≤ comparisons b.

Definition monotone (steps : list AlgorithmStep) : Prop :=
  ∀ i s1 s2, steps !! i = Some s1 → steps !! S i = Some s2 → metricsLe (metrics s1) (metrics s2).

Record runOk (graph : Graph) (r : Run) : Prop := mkRunOk {
  ok_steps : Forall (stepComplete graph) (r_steps r);
  ok_maps : complete graph (r_nodeStates r) (r_edgeStates r);
  ok_mono : monotone (r_steps r);
  ok_last : ∀ s, last (r_steps r) = Some s → metricsLe (metrics s) (r_metrics r)
}.

Lemma metricsLe_refl m : metricsLe m m.
Proof. unfold metricsLe; lia. Qed.

Lemma metricsLe_trans a b c : metricsLe a b → metricsLe b c → metricsLe a c.
Proof. unfold metricsLe; lia. Qed.

Lemma foldl_insert_is_Some {A V} (f : A → string) (v : A → V) (l : list A) (m0 : gmap string V) k :
  is_Some (m0 !! k) ∨ k ∈ f <$> l →
  is_Some (foldl (fun m a => <[f a := v a]> m) m0 l !! k).
Proof.
  revert m0. induction l as [|a l IH]; intros m0 [H|H]; simpl; try done.
  - by apply elem_of_nil in H.
  - apply IH. left. destruct (decide (f a = k)) as [->|].
    + rewrite lookup_insert_eq. eauto.
    + by rewrite lookup_insert_ne.
  - apply elem_of_cons in H as [->|H].
    + apply IH. left. rewrite lookup_insert_eq. eauto.
    + apply IH. by right.
Qed.

Lemma initialRun_ok graph : runOk graph (initialRun graph).
Proof.
  split; simpl.
  - constructor.
  - split; intros a Ha.
    + apply (foldl_insert_is_Some node_id (fun _ => NodeState.UNVISITED)). right.
      by apply list_elem_of_fmap_2.
    + apply (foldl_insert_is_Some edge_id (fun _ => EdgeState.UNEXAMINED)). right.
      by apply list_elem_of_fmap_2.
  - intros i s1 s2 H. by rewrite lookup_nil in H.
  - done.
Qed.

Section run_ok.
Context {L : Type} (graph : Graph).
Implicit Types st : St L.

Lemma ok_onLoc (f : L → L) st : runOk graph (run st) → runOk graph (run (onLoc f st)).
Proof. done. Qed.

Lemma ok_setLoc (l : L) st : runOk graph (run st) → runOk graph (run (setLoc l st)).
Proof. done. Qed.

Lemma ok_onMetrics f st :
  (∀ m, metricsLe m (f m)) → runOk graph (run st) → runOk graph (run (onMetrics f st)).
Proof.
  intros Hf [H1 H2 H3 H4]. split; simpl; try done.
  intros s Hs. eapply metricsLe_trans; [by apply H4|apply Hf].
Qed.

Lemma ok_addNodesVisited k st : runOk graph (run st) → runOk graph (run (addNodesVisited k st)).
Proof. apply ok_onMetrics. intros m. unfold metricsLe; simpl; lia. Qed.

Lemma ok_addEdgesExamined k st : runOk graph (run st) → runOk graph (run (addEdgesExamined k st)).
Proof. apply ok_onMetrics. intros m. unfold metricsLe; simpl; lia. Qed.

Lemma ok_addOperationsCount k st : runOk graph (run st) → runOk graph (run (addOperationsCount k st)).
Proof. apply ok_onMetrics. intros m. unfold metricsLe; simpl; lia. Qed.

Lemma ok_addComparisons k st : runOk graph (run st) → runOk graph (run (addComparisons k st)).
Proof. apply ok_onMetrics. intros m. unfold metricsLe; simpl; lia. Qed.

Lemma ok_setNode k v st : runOk graph (run st) → runOk graph (run (setNode k v st)).
Proof.
  intros [H1 [H2 H2'] H3 H4]. split; simpl; try done.
  split; [|done]. intros n Hn. rewrite lookup_insert. case_decide; eauto.
Qed.

Lemma ok_setEdge k v st : runOk graph (run st) → runOk graph (run (setEdge k v st)).
Proof.
  intros [H1 [H2 H2'] H3 H4]. split; simpl; try done.
  split; [done|]. intros n Hn. rewrite lookup_insert. case_decide; eauto.
Qed.

Lemma ok_setEdgeIf e v st : runOk graph (run st) → runOk graph (run (setEdgeIf e v st)).
Proof. destruct e; simpl; [apply ok_setEdge|done]. Qed.

Lemma ok_rejectUnlessInSolution e st :
  runOk graph (run st) → runOk graph (run (rejectUnlessInSolution e st)).
Proof. destruct e; simpl; [|done]. case_bool_decide; [done|apply ok_setEdge]. Qed.

Lemma ok_pushStep desc line ds op st :
  runOk graph (run st) → runOk graph (run (pushStep desc line ds op st)).
Proof.
  intros [H1 H2 H3 H4]. split; simpl.
  - apply Forall_app. split; [done|]. by constructor.
  - done.
  - intros i s1 s2 Hs1 Hs2.
    destruct (decide (S i < length (r_steps (run st)))) as [Hi|Hi].
    + rewrite lookup_app_l in Hs1 by lia. rewrite lookup_app_l in Hs2 by lia. eauto.
    + apply lookup_lt_Some in Hs2 as Hlen. rewrite length_app in Hlen. simpl in Hlen.
      assert (S i = length (r_steps (run st))) as Hi' by lia.
      rewrite lookup_app_l in Hs1 by lia.
      rewrite lookup_app_r in Hs2 by lia.
      replace (S i - length (r_steps (run st))) with 0 in Hs2 by lia.
      simpl in Hs2. injection Hs2 as <-. simpl.
      apply H4. rewrite last_lookup. rewrite <- Hi'. done.
  - intros s. rewrite last_snoc. intros [= <-]. apply metricsLe_refl.
Qed.

Lemma ok_foldl {A} (f : St L → A → St L) (l : list A) st :
  (∀ st a, runOk graph (run st) → runOk graph (run (f st a))) →
  runOk graph (run st) → runOk graph (run (foldl f st l)).
Proof. intros Hf. revert st. induction l; simpl; eauto. Qed.

Lemma ok_forEach {A} (body : St L → A → Outcome (St L)) (l : list A) st st' :
  (∀ st a st', runOk graph (run st) → body st a = Returned st' → runOk graph (run st')) →
  runOk graph (run st) → forEach body st l = Returned st' → runOk graph (run st').
Proof.
  intros Hf. revert st. induction l as [|a l IH]; simpl; intros st Hst H.
  - by injection H as <-.
  - destruct (body st a) as [st1| |] eqn:E; simpl in H; try done. eauto.
Qed.
End run_ok.

Lemma bind_Returned {A B} (k : A → Outcome B) (c : Outcome A) (b : B) :
  c ≫= k = Returned b → ∃ a, c = Returned a ∧ k a = Returned b.
Proof. destruct c; simpl; [eauto|done|done]. Qed.

Lemma Returned_inj {A} (a b : A) : Returned a = Returned b → a = b.
Proof. by intros [= ->]. Qed.

(** Peels the writes of a straight-line block off the goal. *)
Ltac ok_step :=
  match goal with
  | |- runOk _ (run (pushStep _ _ _ _ _)) => apply ok_pushStep
  | |- runOk _ (run (setNode _ _ _)) => apply ok_setNode
  | |- runOk _ (run (setEdge _ _ _)) => apply ok_setEdge
  | |- runOk _ (run (setEdgeIf _ _ _)) => apply ok_setEdgeIf
  | |- runOk _ (run (rejectUnlessInSolution _ _)) => apply ok_rejectUnlessInSolution
  | |- runOk _ (run (addNodesVisited _ _)) => apply ok_addNodesVisited
  | |- runOk _ (run (addEdgesExamined _ _)) => apply ok_addEdgesExamined
  | |- runOk _ (run (addOperationsCount _ _)) => apply ok_addOperationsCount
  | |- runOk _ (run (addComparisons _ _)) => apply ok_addComparisons
  | |- runOk _ (run (onLoc _ _)) => apply ok_onLoc
  | |- runOk _ (run (setLoc _ _)) => apply ok_setLoc
  | |- runOk ?g (run (mkSt ?r _)) => change (runOk g r)
  | |- runOk _ (initialRun _) => apply initialRun_ok
  | |- runOk _ (run (foldl _ _ _)) => apply ok_foldl; [intros ? ? ?|]
  | |- runOk _ (run (match ?x with _ => _ end)) => destruct x eqn:?
  | |- runOk _ (run (let (_, _) := ?x in _)) => destruct x eqn:?
  | H : Returned _ = Returned ?b |- _ => apply Returned_inj in H; first [subst b | simplify_eq]
  | H : Threw = Returned _ |- _ => discriminate H
  | H : OutOfFuel = Returned _ |- _ => discriminate H
  | H : (match ?x with _ => _ end) = Returned _ |- _ => destruct x eqn:?
  | H : (let (_, _) := ?x in _) = Returned _ |- _ => destruct x eqn:?
  | H : mbind _ _ = Returned _ |- _ =>
      let E := fresh "E" in apply bind_Returned in H as (? & E & H)
  end.

Ltac ok_block := cbv beta zeta in *; repeat (first [assumption | ok_step]).

Create HintDb run_ok.

Ltac ok_auto := ok_block; try solve [eauto 3 with run_ok].

(** What the traces of all executors satisfy. *)
Definition traceOk (graph : Graph) (steps : list AlgorithmStep) : Prop :=
  Forall (stepComplete graph) steps ∧ monotone steps.

Lemma traceOk_nil graph : traceOk graph [].
Proof. split; [constructor|]. intros i s1 s2 H. by rewrite lookup_nil in H. Qed.

Lemma traceOk_run graph r : runOk graph r → traceOk graph (r_steps r).
Proof. intros [H1 _ H3 _]. by split. Qed.

#[export] Hint Resolve traceOk_nil traceOk_run : run_ok.

Section bfs_ok.
Context (graph : Graph).

Lemma bfs_examine_ok c st nb :
  runOk graph (run st) → runOk graph (run (bfs.examine graph c st nb)).
Proof. intros. unfold bfs.examine. ok_auto. Qed.
Hint Resolve bfs_examine_ok : run_ok.

Lemma bfs_turn_ok adj c rest st :
  runOk graph (run st) → runOk graph (run (bfs.turn graph adj c rest st)).
Proof. intros. unfold bfs.turn. ok_auto. Qed.
Hint Resolve bfs_turn_ok : run_ok.

Lemma bfs_while_ok fuel adj st st' :
  runOk graph (run st) → bfs.while fuel graph adj st = Returned st' → runOk graph (run st').
Proof.
  revert st. induction fuel as [|fuel IH]; intros st Hst H; simpl in H;
    destruct (bfs.queue (loc st)); ok_auto.
Qed.

Lemma executeBFS_ok params steps :
  bfs.executeBFS graph params = Returned steps → traceOk graph steps.
Proof.
  unfold bfs.executeBFS. intros H. ok_auto.
  apply traceOk_run. unfold bfs.finish. ok_auto.
  eapply bfs_while_ok; [|done]. unfold bfs.start. ok_auto.
Qed.
End bfs_ok.

Section dfs_ok.
Context (graph : Graph).

Lemma dfs_pushNeighbor_ok c st nb :
  runOk graph (run st) → runOk graph (run (dfs.pushNeighbor graph c st nb)).
Proof. intros. unfold dfs.pushNeighbor. ok_auto. Qed.
Hint Resolve dfs_pushNeighbor_ok : run_ok.

Lemma dfs_turn_ok adj c rest st :
  runOk graph (run st) → runOk graph (run (dfs.turn graph adj c rest st)).
Proof. intros. unfold dfs.turn. ok_auto. Qed.
Hint Resolve dfs_turn_ok : run_ok.

Lemma dfs_while_ok fuel adj st st' :
  runOk graph (run st) → dfs.while fuel graph adj st = Returned st' → runOk graph (run st').
Proof.
  revert st. induction fuel as [|fuel IH]; intros st Hst H; simpl in H;
    destruct (dfs.stack (loc st)); ok_auto.
Qed.

Lemma executeDFS_ok params steps :
  dfs.executeDFS graph params = Returned steps → traceOk graph steps.
Proof.
  unfold dfs.executeDFS. intros H. ok_auto.
  apply traceOk_run. unfold dfs.finish. ok_auto.
  eapply dfs_while_ok; [|done]. unfold dfs.start. ok_auto.
Qed.
End dfs_ok.

Section dijkstra_ok.
Context (graph : Graph).

Lemma dijkstra_relax_ok c st nb :
  runOk graph (run st) → runOk graph (run (dijkstra.relax graph c st nb)).
Proof. intros. unfold dijkstra.relax. ok_auto. Qed.
Hint Resolve dijkstra_relax_ok : run_ok.

Lemma dijkstra_markPath_ok prev path st :
  runOk graph (run st) → runOk graph (run (dijkstra.markPath graph prev path st)).
Proof. revert prev st. induction path; intros prev st H; simpl; [done|]. apply IHpath. ok_auto. Qed.
Hint Resolve dijkstra_markPath_ok : run_ok.

Lemma dijkstra_reached_ok c d st st' :
  runOk graph (run st) → dijkstra.reached graph c d st = Returned st' → runOk graph (run st').
Proof.
  intros Hst H. unfold dijkstra.reached in H. ok_auto.
  apply dijkstra_markPath_ok. ok_auto.
Qed.

Lemma dijkstra_while_ok fuel adj e st b st' :
  runOk graph (run st) → dijkstra.while fuel graph adj e st = Returned (b, st') →
  runOk graph (run st').
Proof.
  revert st. induction fuel as [|fuel IH]; intros st Hst H; simpl in H;
    destruct (dijkstra.pq (loc st)) as [|[d c] rest]; ok_auto.
  - eapply IH; [|done]. ok_auto.
  - eapply IH; [|done]. ok_auto.
  - eapply dijkstra_reached_ok; [|done]. ok_auto.
  - eapply IH; [|done]. ok_auto.
Qed.

Lemma executeDijkstra_ok params steps :
  dijkstra.executeDijkstra graph params = Returned steps → traceOk graph steps.
Proof.
  unfold dijkstra.executeDijkstra. intros H. ok_auto.
  - apply traceOk_run. eapply dijkstra_while_ok; [|done]. unfold dijkstra.start. ok_auto.
  - apply traceOk_run. unfold dijkstra.finish. ok_auto;
      (eapply dijkstra_while_ok; [|done]); unfold dijkstra.start; ok_auto.
Qed.
End dijkstra_ok.

Section astar_ok.
Context (graph : Graph).

Lemma astar_examine_ok endNode hr c st nb st' :
  runOk graph (run st) → astar.examine graph endNode hr c st nb = Returned st' →
  runOk graph (run st').
Proof. intros Hst H. unfold astar.examine in H. ok_auto. Qed.

Lemma astar_markEdges_ok path st :
  runOk graph (run st) → runOk graph (run (astar.markEdges graph path st)).
Proof.
  revert st. induction path as [|p [|q path] IH]; intros st H; simpl; try done.
  apply IH. ok_auto.
Qed.

Lemma astar_reached_ok e c st st' :
  runOk graph (run st) → astar.reached graph e c st = Returned st' → runOk graph (run st').
Proof.
  intros Hst H. unfold astar.reached in H. ok_auto.
  apply astar_markEdges_ok. ok_auto.
Qed.

Lemma astar_while_ok fuel adj endNode hr e st b st' :
  runOk graph (run st) → astar.while fuel graph adj endNode hr e st = Returned (b, st') →
  runOk graph (run st').
Proof.
  revert st. induction fuel as [|fuel IH]; intros st Hst H; simpl in H;
    destruct (astar.openSet (loc st)) as [|[d c] rest]; ok_auto.
  - eapply astar_reached_ok; [|done]. ok_auto.
  - eapply IH; [|done]. eapply ok_forEach; [|..|done].
    + intros ? ? ?. apply astar_examine_ok.
    + ok_auto.
Qed.

Lemma executeAStar_ok params steps :
  astar.executeAStar graph params = Returned steps → traceOk graph steps.
Proof.
  unfold astar.executeAStar. intros H. ok_auto.
  - apply traceOk_run. eapply astar_while_ok; [|done]. unfold astar.start. ok_auto.
  - apply traceOk_run. ok_auto. eapply astar_while_ok; [|done]. unfold astar.start. ok_auto.
Qed.
End astar_ok.

Section kruskal_ok.
Context (graph : Graph).

Lemma kruskal_consider_ok st edge st' :
  runOk graph (run st) → kruskal.consider graph st edge = Returned st' → runOk graph (run st').
Proof. intros Hst H. unfold kruskal.consider in H. ok_auto. Qed.

Lemma kruskal_loop_ok sorted st st' :
  runOk graph (run st) → kruskal.loop graph sorted st = Returned st' → runOk graph (run st').
Proof.
  revert st. induction sorted as [|edge rest IH]; intros st Hst H; simpl in H; ok_auto.
  - eapply kruskal_consider_ok; [|done]. done.
  - eapply IH; [|done]. eapply kruskal_consider_ok; [|done]. done.
Qed.

Lemma executeKruskal_ok params steps :
  kruskal.executeKruskal graph params = Returned steps → traceOk graph steps.
Proof.
  unfold kruskal.executeKruskal. intros H. ok_auto.
  apply traceOk_run. ok_auto. eapply kruskal_loop_ok; [|done]. ok_auto.
Qed.
End kruskal_ok.

Section prim_ok.
Context (graph : Graph).

Lemma prim_check_ok c node st nb st' :
  runOk graph (run st) → prim.check graph c node st nb = Returned st' → runOk graph (run st').
Proof. intros Hst H. unfold prim.check in H. ok_auto. Qed.

Lemma prim_add_ok c st node st' :
  runOk graph (run st) → prim.add graph c st = Returned (node, st') → runOk graph (run st').
Proof. intros Hst H. unfold prim.add in H. ok_auto. Qed.

Lemma prim_turn_ok adj c rest st st' :
  runOk graph (run st) → prim.turn graph adj c rest st = Returned st' → runOk graph (run st').
Proof.
  intros Hst H. unfold prim.turn, prim.turnWith, prim.dequeue in H. ok_auto.
  eapply ok_forEach; [|..|done]; [intros ? ? ?; apply prim_check_ok|].
  eapply prim_add_ok; [|done]. ok_auto.
Qed.

Lemma prim_while_ok fuel adj st st' :
  runOk graph (run st) → prim.while fuel graph adj st = Returned st' → runOk graph (run st').
Proof.
  unfold prim.while.
  revert st. induction fuel as [|fuel IH]; intros st Hst H; simpl in H;
    destruct (prim.pq (loc st)) as [|[d c] rest]; ok_auto.
  eapply IH; [|done]. eapply prim_turn_ok; [|done]. done.
Qed.

Lemma executePrim_ok params steps :
  prim.executePrim graph params = Returned steps → traceOk graph steps.
Proof.
  unfold prim.executePrim, prim.executePrimWith. intros H. ok_auto.
  apply traceOk_run. unfold prim.finish. ok_auto.
  eapply prim_while_ok; [|done]. unfold prim.start. ok_auto.
Qed.
End prim_ok.

Section topological_ok.
Context (graph : Graph).

Lemma topological_release_ok st edge st' :
  runOk graph (run st) → topological.release graph st edge = Returned st' → runOk graph (run st').
Proof. intros Hst H. unfold topological.release in H. ok_auto. Qed.

Lemma topological_turn_ok c rest st st' :
  runOk graph (run st) → topological.turn graph c rest st = Returned st' → runOk graph (run st').
Proof.
  intros Hst H. unfold topological.turn in H. ok_auto.
  eapply ok_forEach; [|..|done]; [intros ? ? ?; apply topological_release_ok|ok_auto].
Qed.

Lemma topological_while_ok fuel st st' :
  runOk graph (run st) → topological.while fuel graph st = Returned st' → runOk graph (run st').
Proof.
  revert st. induction fuel as [|fuel IH]; intros st Hst H; simpl in H;
    destruct (topological.queue (loc st)) as [|c rest]; ok_auto.
  eapply IH; [|done]. eapply topological_turn_ok; [|done]. done.
Qed.

Lemma executeTopologicalSort_ok params steps :
  topological.executeTopologicalSort graph params = Returned steps → traceOk graph steps.
Proof.
  unfold topological.executeTopologicalSort. intros H. ok_auto.
  apply traceOk_run. unfold topological.finish. ok_auto;
    (eapply topological_while_ok; [|done]); unfold topological.start; ok_auto.
Qed.
End topological_ok.

Section cycleDetection_ok.
Context (graph : Graph).

Lemma cycle_forNeighbors_ok recurse nodeId node nbs st b st' :
  (∀ id st b st', runOk graph (run st) → recurse id st = Returned (b, st') → runOk graph (run st')) →
  runOk graph (run st) →
  cycleDetection.forNeighbors recurse graph nodeId node nbs st = Returned (b, st') →
  runOk graph (run st').
Proof.
  intros Hrec. revert st. induction nbs as [|[n w] nbs IH]; intros st Hst H; simpl in H; ok_auto.
  - eapply Hrec; [|done]. ok_auto.
  - eapply IH; [|done]. eapply Hrec; [|done]. ok_auto.
  - eapply IH; [|done]. ok_auto.
Qed.

Lemma cycle_dfs_ok fuel adj nodeId st b st' :
  runOk graph (run st) → cycleDetection.dfs fuel graph adj nodeId st = Returned (b, st') →
  runOk graph (run st').
Proof.
  revert nodeId st b st'. induction fuel as [|fuel IH]; intros nodeId st b st' Hst H; simpl in H;
    ok_auto.
  - eapply cycle_forNeighbors_ok; [apply IH| |done]. ok_auto.
  - eapply cycle_forNeighbors_ok; [apply IH| |done]. ok_auto.
Qed.

Lemma cycle_roots_ok fuel adj ns st st' :
  runOk graph (run st) → cycleDetection.roots fuel graph adj ns st = Returned st' →
  runOk graph (run st').
Proof.
  revert st. induction ns as [|n ns IH]; intros st Hst H; simpl in H; ok_auto.
  - eapply cycle_dfs_ok; [|done]. ok_auto.
  - eapply IH; [|done]. eapply cycle_dfs_ok; [|done]. ok_auto.
Qed.

Lemma executeCycleDetection_ok params steps :
  cycleDetection.executeCycleDetection graph params = Returned steps → traceOk graph steps.
Proof.
  unfold cycleDetection.executeCycleDetection. intros H. ok_auto.
  apply traceOk_run. unfold cycleDetection.finish in *. ok_auto;
    (eapply cycle_roots_ok; [|done]); unfold cycleDetection.start; ok_auto.
Qed.
End cycleDetection_ok.

Section connectedComponents_ok.
Context (graph : Graph).

Lemma components_dfs_ok fuel adj compId nodeId st st' :
  runOk graph (run st) → connectedComponents.dfs fuel graph adj compId nodeId st = Returned st' →
  runOk graph (run st').
Proof.
  revert nodeId st st'. induction fuel as [|fuel IH]; intros nodeId st st' Hst H; simpl in H;
    ok_auto.
  eapply ok_forEach; [|..|done].
  - intros st1 nb st2 Hst1 H1. ok_auto. eapply IH; [|done]. ok_auto.
  - ok_auto.
Qed.

Lemma components_component_of_ok fuel adj st node st' :
  runOk graph (run st) → connectedComponents.component_of fuel graph adj st node = Returned st' →
  runOk graph (run st').
Proof.
  intros Hst H. unfold connectedComponents.component_of in H. ok_auto.
  eapply components_dfs_ok; [|done]. ok_auto.
Qed.

Lemma executeConnectedComponents_ok params steps :
  connectedComponents.executeConnectedComponents graph params = Returned steps →
  traceOk graph steps.
Proof.
  unfold connectedComponents.executeConnectedComponents. intros H. ok_auto.
  apply traceOk_run. ok_auto. eapply ok_forEach; [|..|done].
  - intros ? ? ?. apply components_component_of_ok.
  - unfold connectedComponents.start. ok_auto.
Qed.
End connectedComponents_ok.

Lemma execute_ok (a : Algorithm) graph params steps :
  execute a graph params = Returned steps → traceOk graph steps.
Proof.
  destruct a; simpl.
  - apply executeBFS_ok.
  - apply executeDFS_ok.
  - apply executeDijkstra_ok.
  - apply executeAStar_ok.
  - apply executeKruskal_ok.
  - apply executePrim_ok.
  - apply executeTopologicalSort_ok.
  - apply executeCycleDetection_ok.
  - apply executeConnectedComponents_ok.
Qed.

(** * The claims *)

(** ** Graphs of the examples *)

Definition node (name : string) : Node := mkNode name name 0%float 0%float.

Definition from (s : string) : AlgorithmParams := mkParams (Some s) None None.
Definition fromTo (s t : string) : AlgorithmParams := mkParams (Some s) (Some t) None.
Definition noParams : AlgorithmParams := mkParams None None None.

(** The undirected graph with the nodes A and B and the edge A-B. *)
Definition undirectedAB : Graph :=
  mkGraph [node "A"; node "B"] [mkEdge "A-B" "A" "B" 1%float] false false.

(** The directed graph with the edges A→B and B→A. *)
Definition directedABA : Graph :=
  mkGraph [node "A"; node "B"]
          [mkEdge "A>B" "A" "B" 1%float; mkEdge "B>A" "B" "A" 1%float] true false.

(** The undirected weighted triangle A-B (1), B-C (2), A-C (10). *)
Definition triangle : Graph :=
  mkGraph [node "A"; node "B"; node "C"]
          [mkEdge "A-B" "A" "B" 1%float; mkEdge "B-C" "B" "C" 2%float; mkEdge "A-C" "A" "C" 10%float]
          false true.

(** The DAG A→B, B→C, A→C and the cycle A→B, B→C, C→A. *)
Definition dagABC : Graph :=
  mkGraph [node "A"; node "B"; node "C"]
          [mkEdge "A>B" "A" "B" 1%float; mkEdge "B>C" "B" "C" 1%float; mkEdge "A>C" "A" "C" 1%float]
          true false.

Definition cycleABC : Graph :=
  mkGraph [node "A"; node "B"; node "C"]
          [mkEdge "A>B" "A" "B" 1%float; mkEdge "B>C" "B" "C" 1%float; mkEdge "C>A" "C" "A" 1%float]
          true false.

(** A graph with the single node A. *)
Definition singleA : Graph := mkGraph [node "A"] [] false false.

(** ** Observations on a trace *)

Definition edgeStateAt (steps : list AlgorithmStep) (k : nat) (edgeId : string) : option EdgeState.t :=
  s ← steps !! k; edgeStates s !! edgeId.

(** No edge that is [in_solution] in a step is [rejected] in a later step. *)
Definition neverDowngraded (steps : list AlgorithmStep) : Prop :=
  ∀ edgeId k j, k < j →
    edgeStateAt steps k edgeId = Some EdgeState.IN_SOLUTION →
    edgeStateAt steps j edgeId ≠ Some EdgeState.REJECTED.

(** The view stored under a name in [dataStructures]. *)
Definition viewOf (s : AlgorithmStep) (name : string) : option View :=
  snd <$> List.find (fun kv => bool_decide (kv.1 = name)) (dataStructures s).

(** ** C1 *)

(** C1 (fails on the code): in the trace of [executeBFS] an edge that is
    [in_solution] in a step is never [rejected] in a later step. On the
    undirected graph A-B from A, the edge is [in_solution] in the fourth
    step and [rejected] in the eighth: the second examination of the edge
    (from B) overwrites [in_solution] by [examining] before the guard
    [edgeStates.get(edge.id) !== IN_SOLUTION] is evaluated. *)
Theorem C1_bfs_downgrades_tree_edge :
  ∃ steps, bfs.executeBFS undirectedAB (from "A") = Returned steps ∧
    edgeStateAt steps 3 "A-B" = Some EdgeState.IN_SOLUTION ∧
    edgeStateAt steps 7 "A-B" = Some EdgeState.REJECTED ∧
    ¬ neverDowngraded steps.
Proof.
  eexists. split; [vm_compute; reflexivity|].
  split; [vm_compute; reflexivity|]. split; [vm_compute; reflexivity|].
  intros H. apply (H "A-B" 3 7); [lia|vm_compute; reflexivity|vm_compute; reflexivity].
Qed.

(** ** C2 *)

(** The last step of a run reports [hasCycle: b]. *)
Definition reportsCycle (o : Outcome (list AlgorithmStep)) (b : bool) : Prop :=
  ∃ steps s, o = Returned steps ∧ last steps = Some s ∧ viewOf s "hasCycle" = Some (VBool b).

(** Some step of a run is the "cycle detected" step for the back edge
    from the node labelled [u] to the node labelled [v]. *)
Definition backEdgeStep (o : Outcome (list AlgorithmStep)) (u v : string) : Prop :=
  ∃ steps s, o = Returned steps ∧ s ∈ steps ∧
    currentOperation s = [T "Cycle Found"] ∧
    description s = [T "CYCLE DETECTED! Back edge from "; Lb (Some u); T " to "; Lb (Some v);
                     T " (GRAY node)."].

(** C2 (fails on the code): [executeCycleDetection] reports no cycle on
    the undirected graph with the single edge A-B, and a cycle through a
    back edge on the directed graph A→B, B→A. The directed half holds; on
    the undirected edge the code reports [hasCycle: true]: from B the
    neighbour A, the node the search came from, is gray, and the edge just
    walked is taken for a back edge. *)
Theorem C2_cycle_detection_on_two_nodes :
  reportsCycle (cycleDetection.executeCycleDetection undirectedAB noParams) true ∧
  backEdgeStep (cycleDetection.executeCycleDetection undirectedAB noParams) "B" "A" ∧
  reportsCycle (cycleDetection.executeCycleDetection directedABA noParams) true ∧
  backEdgeStep (cycleDetection.executeCycleDetection directedABA noParams) "B" "A".
Proof.
  repeat split.
  - eexists _, _. split; [vm_compute; reflexivity|]. split; vm_compute; reflexivity.
  - eexists _, _. split; [vm_compute; reflexivity|].
    split; [do 6 apply list_elem_of_further; apply list_elem_of_here|].
    split; reflexivity.
  - eexists _, _. split; [vm_compute; reflexivity|]. split; vm_compute; reflexivity.
  - eexists _, _. split; [vm_compute; reflexivity|].
    split; [do 6 apply list_elem_of_further; apply list_elem_of_here|].
    split; reflexivity.
Qed.

(** ** C3 *)

(** BFS, DFS, Dijkstra and A* look the start node up and return no step
    when it is missing or is not a node of the graph. *)
Lemma unknown_start_gives_no_steps (a : Algorithm) graph params :
  In a [BFS; DFS; Dijkstra; AStar] →
  (∀ s, startNodeId params = Some s → getNode graph s = None) →
  execute a graph params = Returned [].
Proof.
  intros Ha Hs.
  assert (∀ s, Js.truthyStr (startNodeId params) = Some s → getNode graph s = None) as Hs'.
  { intros s. unfold Js.truthyStr. destruct (startNodeId params); [|done].
    case_bool_decide; [done|]. intros [= <-]. by apply Hs. }
  destruct Ha as [<-|[<-|[<-|[<-|[]]]]]; simpl.
  - unfold bfs.executeBFS. destruct (Js.truthyStr _) eqn:E; [|done]. by rewrite (Hs' _ eq_refl).
  - unfold dfs.executeDFS. destruct (Js.truthyStr _) eqn:E; [|done]. by rewrite (Hs' _ eq_refl).
  - unfold dijkstra.executeDijkstra. destruct (Js.truthyStr _) eqn:E; [|done].
    by rewrite (Hs' _ eq_refl).
  - unfold astar.executeAStar. destruct (Js.truthyStr _) eqn:E; [|done].
    rewrite (Hs' _ eq_refl). by destruct (Js.truthyStr (endNodeId params)).
Qed.

(** Prim returns no step when the start node is missing. *)
Lemma prim_missing_start_gives_no_steps graph params :
  startNodeId params = None → prim.executePrim graph params = Returned [].
Proof. intros H. unfold prim.executePrim, prim.executePrimWith. by rewrite H. Qed.

(** C3 (fails on the code): an executor that requires a start node
    returns no step when [startNodeId] is not the id of a node. [executePrim]
    only tests [!startNodeId]: on the graph with the single node A and the
    start id Z it returns three steps, and the node A ends [in_solution]. *)
Theorem C3_prim_runs_from_unknown_start :
  requiresStartNode (config Prim) = true ∧
  getNode singleA "Z" = None ∧
  ∃ steps s, execute Prim singleA (from "Z") = Returned steps ∧
    length steps = 3 ∧ last steps = Some s ∧
    nodeStates s !! "A" = Some NodeState.IN_SOLUTION.
Proof.
  split; [reflexivity|]. split; [reflexivity|].
  eexists _, _. split; [vm_compute; reflexivity|].
  split; [reflexivity|]. split; vm_compute; reflexivity.
Qed.

(** ** C4 *)


(** ** C8 *)

(** C8: on the DAG A→B, B→C, A→C the topological sort ends with the
    completion step, whose result is A, B, C; on the cycle A→B, B→C, C→A it
    ends with the "cycle detected" step, whose result is shorter than 3. *)
Theorem C8_topological_sort_examples :
  (∃ steps s, topological.executeTopologicalSort dagABC noParams = Returned steps ∧
     last steps = Some s ∧ currentOperation s = [T "Complete"] ∧
     viewOf s "result" = Some (VLabels [Some "A"; Some "B"; Some "C"])) ∧
  (∃ steps s result, topological.executeTopologicalSort cycleABC noParams = Returned steps ∧
     last steps = Some s ∧ currentOperation s = [T "Cycle Detected"] ∧
     viewOf s "result" = Some (VLabels result) ∧ length result < 3).
Proof.
  split.
  - eexists _, _. split; [vm_compute; reflexivity|]. repeat split; vm_compute; reflexivity.
  - eexists _, _, _. split; [vm_compute; reflexivity|].
    split; [vm_compute; reflexivity|]. split; [vm_compute; reflexivity|].
    split; [vm_compute; reflexivity|]. simpl. lia.
Qed.

(** ** C10 *)

Lemma foldl_insert_const {A V} (f : A → string) (v : V) (l : list A) (m0 : gmap string V) k :
  k ∈ f <$> l → foldl (fun m a => <[f a := v]> m) m0 l !! k = Some v.
Proof.
  revert m0. induction l as [|a l IH]; intros m0 H; simpl.
  - by apply elem_of_nil in H.
  - destruct (decide (k ∈ f <$> l)) as [Hin|Hin]; [by apply IH|].
    apply elem_of_cons in H as [->|H]; [|done].
    clear IH. revert m0. induction l as [|b l IH]; intros m0; simpl.
    + apply lookup_insert_eq.
    + rewrite fmap_cons in Hin. apply not_elem_of_cons in Hin as [Hne Hin].
      rewrite insert_insert_ne by done. by apply IH.
Qed.

Lemma initialRun_unexamined graph e :
  e ∈ edges graph → r_edgeStates (initialRun graph) !! edge_id e = Some EdgeState.UNEXAMINED.
Proof. intros H. apply (foldl_insert_const edge_id). by apply list_elem_of_fmap_2. Qed.

(** The A* search from a node to itself, step by step. *)
Lemma astar_same_node graph X n hr :
  X ≠ "" → getNode graph X = Some n →
  ∃ s1 s2 s3,
    astar.executeAStar graph (mkParams (Some X) (Some X) hr) = Returned [s1; s2; s3] ∧
    currentOperation s1 = [T "Initialize"] ∧
    currentOperation s2 = [T "Process "; Lb (Some (label n))] ∧
    currentOperation s3 = [T "Path Found"] ∧
    viewOf s3 "path" = Some (VLabels [Some (label n)]) ∧
    description s3 = [T "Goal reached! Path: "; Jn " → " [Some (label n)]; T ". Cost: ";
                      Fx (Some 0%float)] ∧
    edgeStates s1 = r_edgeStates (initialRun graph) ∧
    edgeStates s2 = r_edgeStates (initialRun graph) ∧
    edgeStates s3 = r_edgeStates (initialRun graph).
Proof.
  intros HX Hn. unfold astar.executeAStar. simpl.
  rewrite bool_decide_eq_false_2 by done. rewrite Hn.
  replace (astar.fuelFor graph) with (S (S (2 * length (edges graph))))
    by (unfold astar.fuelFor; lia).
  simpl. rewrite Hn. rewrite bool_decide_eq_true_2 by done.
  unfold astar.reached. simpl. rewrite bool_decide_eq_false_2 by done. simpl.
  rewrite lookup_empty. simpl.
  eexists _, _, _. split; [reflexivity|]. simpl.
  unfold labelOf. rewrite Hn. simpl. rewrite lookup_insert_eq.
  repeat split; reflexivity.
Qed.

(** A graph whose only node has the empty string as its id. *)
Definition unnamedNode : Graph := mkGraph [mkNode "" "N" 0%float 0%float] [] false false.

(** What C10 says of the search from the node [X], labelled as [n], to itself. *)
Definition searchToItself (graph : Graph) (X : string) (n : Node) (hr : option Heuristic) : Prop :=
  ∃ s1 s2 s3,
    astar.executeAStar graph (mkParams (Some X) (Some X) hr) = Returned [s1; s2; s3] ∧
    currentOperation s1 = [T "Initialize"] ∧
    currentOperation s2 = [T "Process "; Lb (Some (label n))] ∧
    currentOperation s3 = [T "Path Found"] ∧
    viewOf s3 "path" = Some (VLabels [Some (label n)]) ∧
    description s3 = [T "Goal reached! Path: "; Jn " → " [Some (label n)]; T ". Cost: ";
                      Fx (Some 0%float)] ∧
    ∀ s e, s ∈ [s1; s2; s3] → e ∈ edges graph →
      edgeStates s !! edge_id e = Some EdgeState.UNEXAMINED.

(** C10 (amended): for every graph and every node of it whose id [X] is not
    the empty string, [executeAStar] with start and goal [X] returns exactly
    three steps (initialize, select, path found); the last one reports the
    path [X] with cost 0, and in the three steps every edge is [unexamined]. *)
Theorem C10_astar_from_a_node_to_itself graph X n hr :
  X ≠ "" → getNode graph X = Some n → searchToItself graph X n hr.
Proof.
  intros HX Hn.
  destruct (astar_same_node graph X n hr HX Hn)
    as (s1 & s2 & s3 & Hrun & H1 & H2 & H3 & Hpath & Hdesc & E1 & E2 & E3).
  exists s1, s2, s3. repeat (split; [done|]).
  intros s e Hs He.
  assert (edgeStates s = r_edgeStates (initialRun graph)) as ->.
  { repeat (apply elem_of_cons in Hs as [->|Hs]; [done|]). by apply elem_of_nil in Hs. }
  by apply initialRun_unexamined.
Qed.

Lemma C10_witness :
  "B" ≠ "" ∧ getNode triangle "B" = Some (node "B") ∧
  searchToItself triangle "B" (node "B") None.
Proof.
  split; [discriminate|]. split; [reflexivity|].
  apply C10_astar_from_a_node_to_itself; [discriminate|reflexivity].
Defined.

(** C10 as stated fails for a node whose id is the empty string: the guard
    [if (!startNodeId || !endNodeId)] takes the id for a missing one. *)
Lemma C10_counterexample :
  getNode unnamedNode "" = Some (mkNode "" "N" 0%float 0%float) ∧
  astar.executeAStar unnamedNode (fromTo "" "") = Returned [] ∧
  ¬ searchToItself unnamedNode "" (mkNode "" "N" 0%float 0%float) None.
Proof.
  split; [reflexivity|]. split; [reflexivity|].
  intros (s1 & s2 & s3 & Hrun & _). discriminate Hrun.
Qed.

(** ** C9 *)

(** The loop heads of [executePrim]: the states in which [while
    (!pq.isEmpty())] tests the queue. *)
Inductive primHead (graph : Graph) (startNodeId : string) : St prim.Locals → Prop :=
| primHead_start : primHead graph startNodeId (prim.start graph startNodeId)
| primHead_turn st p c rest st' :
    primHead graph startNodeId st →
    prim.pq (loc st) = (p, c) :: rest →
    prim.turn graph (toAdjacencyList graph) c rest st = Returned st' →
    primHead graph startNodeId st'.

(** The points of a run: the loop heads and, inside a turn, the states
    after the node is added and after each neighbour is checked. *)
Inductive primPoint (graph : Graph) (startNodeId : string) : St prim.Locals → Prop :=
| primPoint_head st : primHead graph startNodeId st → primPoint graph startNodeId st
| primPoint_check st p c rest node st1 k st' :
    primHead graph startNodeId st →
    prim.pq (loc st) = (p, c) :: rest →
    prim.add graph c (prim.dequeue rest st) = Returned (node, st1) →
    forEach (prim.check graph c node) st1 (take k (neighborsOf (toAdjacencyList graph) c))
      = Returned st' →
    primPoint graph startNodeId st'.

(** One entry for each queued id, and no queued id in the tree. *)
Definition queueOk (l : prim.Locals) : Prop :=
  NoDup (prim.pq l).*2 ∧ ∀ v, v ∈ (prim.pq l).*2 → v ∉ prim.inMST l.

Lemma insertBy_Permutation {A} (cmp : A → A → comparison) a l : Js.insertBy cmp a l ≡ₚ a :: l.
Proof.
  induction l as [|b l IH]; simpl; [done|].
  destruct (cmp a b); try done. rewrite IH. apply Permutation_swap.
Qed.

Lemma sortBy_Permutation {A} (cmp : A → A → comparison) l : Js.sortBy cmp l ≡ₚ l.
Proof.
  induction l as [|a l IH]; simpl; [done|].
  rewrite insertBy_Permutation. by rewrite IH.
Qed.

Lemma findIndex_None value (items : PrimQueue.t) :
  PrimQueue.findIndex value items = None → value ∉ items.*2.
Proof.
  induction items as [|[p v] items IH]; simpl; intros H.
  - apply not_elem_of_nil.
  - case_bool_decide; [done|]. destruct (PrimQueue.findIndex value items); [done|].
    apply not_elem_of_cons. split; [done|]. by apply IH.
Qed.

Lemma findIndex_Some value (items : PrimQueue.t) i :
  PrimQueue.findIndex value items = Some i → ∃ p, items !! i = Some (p, value).
Proof.
  revert i. induction items as [|[p v] items IH]; simpl; intros i H; [done|].
  case_bool_decide as Hv.
  - injection H as <-. simpl in Hv. subst. by exists p.
  - destruct (PrimQueue.findIndex value items) as [j|]; [|done].
    injection H as <-. simpl. by apply IH.
Qed.

Lemma insert_same_value (items : PrimQueue.t) i p p' v :
  items !! i = Some (p, v) → (<[i := (p', v)]> items).*2 = items.*2.
Proof.
  intros H. rewrite list_fmap_insert. simpl. apply list_insert_id.
  by rewrite list_lookup_fmap, H.
Qed.

(** [enqueue] of a queued value keeps the entries, and at most lowers one
    priority; of a new value it adds one entry. *)
Lemma enqueue_queued value priority (items : PrimQueue.t) :
  value ∈ items.*2 →
  (PrimQueue.enqueue value priority items).*2 ≡ₚ items.*2 ∧
  length (PrimQueue.enqueue value priority items) = length items ∧
  ∃ i p, PrimQueue.findIndex value items = Some i ∧ items !! i = Some (p, value) ∧
    PrimQueue.enqueue value priority items =
      if Js.lt priority p
      then Js.sortBy PriorityQueue.byPriority (<[i := (priority, value)]> items)
      else items.
Proof.
  intros Hin. unfold PrimQueue.enqueue.
  destruct (PrimQueue.findIndex value items) as [i|] eqn:E;
    [|by apply findIndex_None in E].
  destruct (findIndex_Some _ _ _ E) as [p Hp]. rewrite Hp. simpl.
  split; [|split].
  - destruct (Js.lt priority p); [|done].
    rewrite sortBy_Permutation. by erewrite insert_same_value.
  - destruct (Js.lt priority p); [|done].
    rewrite (Permutation_length (sortBy_Permutation _ _)). apply length_insert.
  - by exists i, p.
Qed.

Lemma enqueue_new value priority (items : PrimQueue.t) :
  value ∉ items.*2 → (PrimQueue.enqueue value priority items).*2 ≡ₚ value :: items.*2.
Proof.
  intros Hin. unfold PrimQueue.enqueue.
  destruct (PrimQueue.findIndex value items) as [i|] eqn:E.
  - destruct (findIndex_Some _ _ _ E) as [p Hp].
    exfalso. apply Hin. apply list_elem_of_fmap. exists (p, value). split; [done|].
    by eapply list_elem_of_lookup_2.
  - rewrite sortBy_Permutation. rewrite fmap_app. simpl.
    by rewrite Permutation_app_comm.
Qed.

Lemma enqueue_NoDup value priority (items : PrimQueue.t) :
  NoDup items.*2 → NoDup (PrimQueue.enqueue value priority items).*2.
Proof.
  intros H. destruct (decide (value ∈ items.*2)) as [Hin|Hin].
  - destruct (enqueue_queued value priority items Hin) as [-> _]. done.
  - rewrite (enqueue_new _ _ _ Hin). by constructor.
Qed.

Lemma enqueue_elem_of value priority (items : PrimQueue.t) v :
  v ∈ (PrimQueue.enqueue value priority items).*2 → v = value ∨ v ∈ items.*2.
Proof.
  destruct (decide (value ∈ items.*2)) as [Hin|Hin].
  - destruct (enqueue_queued value priority items Hin) as [-> _]. by right.
  - rewrite (enqueue_new _ _ _ Hin). intros H. by apply elem_of_cons in H.
Qed.

(** The writes to the shared part leave the locals alone. *)
Lemma loc_setEdgeIf {L} e v (st : St L) : loc (setEdgeIf e v st) = loc st.
Proof. by destruct e. Qed.

Lemma loc_rejectUnlessInSolution {L} e (st : St L) : loc (rejectUnlessInSolution e st) = loc st.
Proof. destruct e; simpl; [|done]. by case_bool_decide. Qed.

Lemma loc_foldl_setNode {L} (v : NodeState.t) (ids : list string) (st : St L) :
  loc (foldl (fun st id => setNode id v st) st ids) = loc st.
Proof. revert st. induction ids as [|i ids IH]; intros st; simpl; [done|]. by rewrite IH. Qed.

Ltac loc_simpl :=
  repeat (simpl; rewrite ?loc_setEdgeIf, ?loc_rejectUnlessInSolution, ?loc_foldl_setNode).

Lemma setHas_false k s : Js.setHas k s = false ↔ k ∉ s.
Proof. unfold Js.setHas. by rewrite bool_decide_eq_false. Qed.

Lemma setHas_true k s : Js.setHas k s = true ↔ k ∈ s.
Proof. unfold Js.setHas. by rewrite bool_decide_eq_true. Qed.

Lemma elem_of_setAdd k k' s : k ∈ Js.setAdd k' s ↔ k = k' ∨ k ∈ s.
Proof.
  unfold Js.setAdd. case_bool_decide as H.
  - split; [by right|]. by intros [->|].
  - rewrite elem_of_app, list_elem_of_singleton. tauto.
Qed.

Lemma initLocals_snoc startNodeId ns n :
  prim.initLocals startNodeId (ns ++ [n]) =
  let l := prim.initLocals startNodeId ns in
  let k := if bool_decide (node_id n = startNodeId) then 0%float else infinity in
  prim.mkLocals (<[node_id n := k]> (prim.key l)) (<[node_id n := None]> (prim.parent l))
    (prim.inMST l) (PrimQueue.enqueue (node_id n) k (prim.pq l)) (prim.totalWeight l).
Proof. unfold prim.initLocals. by rewrite foldl_snoc. Qed.

Lemma initLocals_ok startNodeId ns :
  queueOk (prim.initLocals startNodeId ns) ∧ prim.inMST (prim.initLocals startNodeId ns) = [].
Proof.
  induction ns as [|n ns [[IH1 IH2] IH3]] using rev_ind.
  - split; [split|]; simpl; [constructor| |done]. intros v Hv. by apply elem_of_nil in Hv.
  - rewrite initLocals_snoc. cbv zeta. split; [split|]; simpl; [|rewrite IH3|done].
    + by apply enqueue_NoDup.
    + intros v _. apply not_elem_of_nil.
Qed.

Section prim_queue.
Context (graph : Graph).

Lemma prim_check_queueOk c node st nb st' :
  queueOk (loc st) → prim.check graph c node st nb = Returned st' → queueOk (loc st').
Proof.
  intros [Hnd Hdis] H. unfold prim.check in H. destruct nb as [n w].
  destruct (Js.setHas n (prim.inMST (loc st))) eqn:Hn.
  { apply Returned_inj in H. by subst. }
  apply setHas_false in Hn.
  destruct (getNode graph n); [|done]. cbv zeta in H.
  match type of H with (if ?b then _ else _) = _ => destruct b end;
    apply Returned_inj in H; subst st'; loc_simpl.
  - split; simpl.
    + by apply enqueue_NoDup.
    + intros v Hv. apply enqueue_elem_of in Hv as [->|Hv]; [done|by apply Hdis].
  - done.
Qed.

Lemma prim_forEach_check_queueOk c node nbs st st' :
  queueOk (loc st) → forEach (prim.check graph c node) st nbs = Returned st' → queueOk (loc st').
Proof.
  revert st. induction nbs as [|nb nbs IH]; simpl; intros st Hst H.
  - apply Returned_inj in H. by subst.
  - apply bind_Returned in H as (st1 & E & H). eapply IH; [|done].
    by eapply prim_check_queueOk.
Qed.

Lemma prim_add_queueOk p c rest st node st' :
  queueOk (loc st) → prim.pq (loc st) = (p, c) :: rest →
  prim.add graph c (prim.dequeue rest st) = Returned (node, st') → queueOk (loc st').
Proof.
  intros [Hnd Hdis] Hpq H. rewrite Hpq in Hnd, Hdis. simpl in Hnd, Hdis.
  apply NoDup_cons in Hnd as [Hc Hnd].
  assert (queueOk (prim.mkLocals (prim.key (loc st)) (prim.parent (loc st))
            (Js.setAdd c (prim.inMST (loc st))) rest (prim.totalWeight (loc st)))) as Hok.
  { split; simpl; [done|]. intros v Hv. rewrite elem_of_setAdd. intros [->|Hin]; [done|].
    eapply Hdis; [|done]. by right. }
  unfold prim.add in H. cbv zeta in H.
  destruct (getNode graph c); [|done]. apply Returned_inj in H. injection H as _ <-.
  simpl. destruct (Js.truthyStr _); [|done].
  destruct (getEdgeBetween graph _ c); done.
Qed.

(** At a loop head the entry that is dequeued is not in the tree: the
    branch [if (inMST.has(currentId)) continue] is not taken. *)
Lemma prim_head_not_skipped p c rest st :
  queueOk (loc st) → prim.pq (loc st) = (p, c) :: rest →
  Js.setHas c (prim.inMST (loc (prim.dequeue rest st))) = false.
Proof.
  intros [_ Hdis] Hpq. simpl. apply setHas_false. apply Hdis. rewrite Hpq. simpl. by left.
Qed.

Lemma prim_turnWith_queueOk onSkip adj p c rest st :
  queueOk (loc st) → prim.pq (loc st) = (p, c) :: rest →
  prim.turnWith onSkip graph adj c rest st = prim.turn graph adj c rest st ∧
  ∀ st', prim.turn graph adj c rest st = Returned st' → queueOk (loc st').
Proof.
  intros Hok Hpq. unfold prim.turn, prim.turnWith. cbv zeta.
  rewrite (prim_head_not_skipped p c rest st Hok Hpq). split; [done|].
  intros st' H. apply bind_Returned in H as ([node st1] & E & H).
  eapply prim_forEach_check_queueOk; [|done]. by eapply prim_add_queueOk.
Qed.

Lemma prim_whileWith_while onSkip fuel adj st :
  queueOk (loc st) → prim.whileWith onSkip fuel graph adj st = prim.while fuel graph adj st.
Proof.
  unfold prim.while. revert st. induction fuel as [|fuel IH]; intros st Hok; simpl; [done|].
  destruct (prim.pq (loc st)) as [|[p c] rest] eqn:Hpq; [done|].
  destruct (prim_turnWith_queueOk onSkip adj p c rest st Hok Hpq) as [-> Hturn].
  fold (prim.turn graph adj c rest st).
  destruct (prim.turn graph adj c rest st) as [st1| |] eqn:E; simpl; try done.
  apply IH. by apply Hturn.
Qed.

Lemma prim_start_queueOk startNodeId : queueOk (loc (prim.start graph startNodeId)).
Proof. simpl. apply initLocals_ok. Qed.

Lemma primHead_queueOk startNodeId st : primHead graph startNodeId st → queueOk (loc st).
Proof.
  induction 1 as [|st p c rest st' _ IH Hpq Hturn]; [apply prim_start_queueOk|].
  by eapply (prim_turnWith_queueOk Returned).
Qed.

Lemma primPoint_queueOk startNodeId st : primPoint graph startNodeId st → queueOk (loc st).
Proof.
  destruct 1 as [st H|st p c rest node st1 k st' H Hpq Hadd Hloop].
  - by eapply primHead_queueOk.
  - eapply prim_forEach_check_queueOk; [|done].
    eapply prim_add_queueOk; [|done..]. by eapply primHead_queueOk.
Qed.
End prim_queue.

(** C9: during a run of [executePrim] the queue holds at most one entry
    for each node id, while it is filled and at every point of the loop;
    [enqueue] of a queued value appends nothing, and lowers the priority of
    its entry (and sorts again) only when the new priority is strictly
    smaller; at every loop head the dequeued id is not in the tree, so that
    the branch [if (inMST.has(currentId)) continue] is dead: whatever it is
    replaced by, [executePrim] returns the same. *)
Theorem C9_prim_queue_one_entry_per_node graph start :
  (∀ k, NoDup (prim.pq (prim.initLocals start (take k (nodes graph)))).*2) ∧
  (∀ st, primPoint graph start st → NoDup (prim.pq (loc st)).*2) ∧
  (∀ value priority (items : PrimQueue.t), value ∈ items.*2 →
     (PrimQueue.enqueue value priority items).*2 ≡ₚ items.*2 ∧
     length (PrimQueue.enqueue value priority items) = length items ∧
     ∃ i p, PrimQueue.findIndex value items = Some i ∧ items !! i = Some (p, value) ∧
       PrimQueue.enqueue value priority items =
         if Js.lt priority p
         then Js.sortBy PriorityQueue.byPriority (<[i := (priority, value)]> items)
         else items) ∧
  (∀ st p c rest, primHead graph start st → prim.pq (loc st) = (p, c) :: rest →
     Js.setHas c (prim.inMST (loc (prim.dequeue rest st))) = false) ∧
  (∀ onSkip params, prim.executePrimWith onSkip graph params = prim.executePrim graph params).
Proof.
  split; [|split; [|split; [|split]]].
  - intros k. apply initLocals_ok.
  - intros st H. by apply (primPoint_queueOk graph start).
  - apply enqueue_queued.
  - intros st p c rest H Hpq. apply (prim_head_not_skipped p); [|done].
    by apply (primHead_queueOk graph start).
  - intros onSkip params. unfold prim.executePrim, prim.executePrimWith.
    destruct (Js.truthyStr (startNodeId params)) as [s|]; [|done].
    rewrite (prim_whileWith_while graph onSkip) by apply prim_start_queueOk. done.
Qed.

Lemma C9_witness :
  primHead triangle "A" (prim.start triangle "A") ∧
  prim.pq (loc (prim.start triangle "A")) = [(0%float, "A"); (infinity, "B"); (infinity, "C")] ∧
  Js.setHas "A" (prim.inMST (loc (prim.dequeue [(infinity, "B"); (infinity, "C")]
                                    (prim.start triangle "A")))) = false.
Proof.
  split; [constructor|]. split; [vm_compute; reflexivity|].
  apply (proj1 (proj2 (proj2 (proj2 (C9_prim_queue_one_entry_per_node triangle "A"))))
           (prim.start triangle "A") 0%float "A" [(infinity, "B"); (infinity, "C")]).
  - constructor.
  - vm_compute. reflexivity.
Defined.

(** ** The adjacency list *)

(** The ends of the edges, with repetitions: every entry of an adjacency
    list is one of them. *)
Definition endsOf (es : list Edge) : list string :=
  flat_map (fun e => [source e; target e]) es.

Definition adjStep (graph : Graph) (m : AdjList) (edge : Edge) : AdjList :=
  let m := adjPush (source edge) (target edge, weight edge) m in
  if directed graph then m
  else adjPush (target edge) (source edge, weight edge) m.

Definition occurrences (v : string) (l : list string) : nat :=
  length (filter (fun x => x = v) l).

Lemma neighborsOf_adjPush k entry (m : AdjList) v :
  neighborsOf (adjPush k entry m) v = neighborsOf m v ∨
  (v = k ∧ neighborsOf (adjPush k entry m) v = neighborsOf m v ++ [entry]).
Proof.
  unfold adjPush, neighborsOf. destruct (m !! k) as [l|] eqn:E; [|by left].
  destruct (decide (k = v)) as [->|Hne].
  - right. split; [done|]. by rewrite lookup_insert_eq, E.
  - left. by rewrite lookup_insert_ne.
Qed.

Lemma neighborsOf_empty_lists (ns : list Node) (m : AdjList) v :
  neighborsOf m v = [] →
  neighborsOf (foldl (fun m node => <[node_id node := []]> m) m ns) v = [].
Proof.
  revert m. induction ns as [|n ns IH]; intros m Hm; simpl; [done|].
  apply IH. unfold neighborsOf. destruct (decide (node_id n = v)) as [->|].
  - by rewrite lookup_insert_eq.
  - by rewrite lookup_insert_ne.
Qed.

Lemma occurrences_app v l1 l2 : occurrences v (l1 ++ l2) = occurrences v l1 + occurrences v l2.
Proof. unfold occurrences. by rewrite filter_app, length_app. Qed.

Lemma endsOf_snoc es e : endsOf (es ++ [e]) = endsOf es ++ [source e; target e].
Proof. unfold endsOf. rewrite flat_map_app. simpl. by rewrite ?app_nil_r. Qed.

Section adjacency.
Context (graph : Graph).

Let adjOver (es : list Edge) : AdjList :=
  foldl (adjStep graph) (foldl (fun m node => <[node_id node := []]> m) ∅ (nodes graph)) es.

Lemma adjOver_bounds es v :
  length (neighborsOf (adjOver es) v) ≤ occurrences v (endsOf es) ∧
  ∀ n, n ∈ (neighborsOf (adjOver es) v).*1 → n ∈ endsOf es.
Proof.
  induction es as [|e es [IH1 IH2]] using rev_ind.
  - unfold adjOver. simpl. rewrite neighborsOf_empty_lists by done. split; [simpl; lia|].
    intros n Hn. by apply elem_of_nil in Hn.
  - unfold adjOver in *. rewrite foldl_snoc, endsOf_snoc, occurrences_app.
    set (m := foldl (adjStep graph) _ es) in *.
    assert (occurrences v [source e; target e] =
            (if decide (source e = v) then 1 else 0) + (if decide (target e = v) then 1 else 0)) as Hocc.
    { unfold occurrences. rewrite !filter_cons, filter_nil.
      destruct (decide (source e = v)), (decide (target e = v)); done. }
    rewrite Hocc. unfold adjStep. cbv zeta.
    destruct (neighborsOf_adjPush (source e) (target e, weight e) m v) as [E1|[Hv1 E1]];
      (destruct (directed graph);
       [|destruct (neighborsOf_adjPush (target e) (source e, weight e)
                     (adjPush (source e) (target e, weight e) m) v) as [E2|[Hv2 E2]];
         rewrite E2]);
      rewrite E1; split;
      try (rewrite ?length_app; simpl;
           destruct (decide (source e = v)), (decide (target e = v)); try done; lia);
      intros n; rewrite ?fmap_app, !elem_of_app; simpl;
      rewrite ?list_elem_of_singleton, !elem_of_cons; intuition (subst; eauto).
Qed.

Lemma neighbors_are_ends v n :
  n ∈ (neighborsOf (toAdjacencyList graph) v).*1 → n ∈ endsOf (edges graph).
Proof. apply (adjOver_bounds (edges graph)). Qed.

Lemma degree_le_occurrences v :
  length (neighborsOf (toAdjacencyList graph) v) ≤ occurrences v (endsOf (edges graph)).
Proof. apply (adjOver_bounds (edges graph)). Qed.
End adjacency.

Lemma length_endsOf es : length (endsOf es) = 2 * length es.
Proof. induction es as [|e es IH]; simpl; lia. Qed.

(** The ends that are not in [visited] yet, with repetitions. *)
Definition unvisitedEnds (graph : Graph) (visited : list string) : nat :=
  length (filter (fun x => x ∉ visited) (endsOf (edges graph))).

Lemma unvisitedEnds_le graph visited : unvisitedEnds graph visited ≤ 2 * length (edges graph).
Proof. unfold unvisitedEnds. rewrite <- length_endsOf. apply length_filter. Qed.

Lemma filter_not_in_add (l : list string) visited c :
  c ∉ visited →
  length (filter (fun x => x ∉ Js.setAdd c visited) l) + occurrences c l =
  length (filter (fun x => x ∉ visited) l).
Proof.
  intros Hc. unfold occurrences. induction l as [|a l IH]; [done|].
  rewrite !filter_cons.
  destruct (decide (a = c)) as [->|Hne].
  - destruct (decide (c ∉ Js.setAdd c visited)) as [H|_]; [rewrite elem_of_setAdd in H; tauto|].
    destruct (decide (c ∉ visited)); [|done]. simpl. lia.
  - destruct (decide (a ∉ Js.setAdd c visited)) as [H|H];
      destruct (decide (a ∉ visited)) as [H'|H']; simpl; try lia;
      rewrite elem_of_setAdd in H; tauto.
Qed.

Lemma unvisitedEnds_add graph visited c :
  c ∉ visited →
  unvisitedEnds graph (Js.setAdd c visited) + occurrences c (endsOf (edges graph)) =
  unvisitedEnds graph visited.
Proof. apply filter_not_in_add. Qed.

(** ** The explicit-stack DFS on its locals *)

Section dfs_locals.
Context (graph : Graph).
Let adj := toAdjacencyList graph.

Lemma dfs_pushNeighbor_loc c st nb :
  loc (dfs.pushNeighbor graph c st nb) =
  if Js.setHas nb.1 (dfs.visited (loc st)) then loc st
  else dfs.mkLocals (dfs.visited (loc st)) (nb.1 :: dfs.stack (loc st)).
Proof.
  unfold dfs.pushNeighbor. cbv zeta.
  destruct (Js.setHas nb.1 (dfs.visited (loc st))) eqn:E;
    repeat (progress (loc_simpl; rewrite ?E)).
  - done.
  - case_bool_decide; loc_simpl; done.
Qed.

Lemma dfs_pushNeighbors_loc c st (nbs : list (string * float)) :
  loc (foldl (dfs.pushNeighbor graph c) st (reverse nbs)) =
  dfs.mkLocals (dfs.visited (loc st))
    (filter (fun n => n ∉ dfs.visited (loc st)) nbs.*1 ++ dfs.stack (loc st)).
Proof.
  induction nbs as [|nb nbs IH]; simpl.
  - by destruct (loc st).
  - rewrite reverse_cons, foldl_snoc, dfs_pushNeighbor_loc, IH. simpl.
    rewrite filter_cons. unfold Js.setHas.
    case_bool_decide; [by rewrite decide_False by tauto|by rewrite decide_True].
Qed.

(** One turn, on the locals: a visited id is dropped; an unvisited one is
    marked, and its unvisited neighbours go on the stack, the first on top. *)
Lemma dfs_turn_loc c rest st :
  loc (dfs.turn graph adj c rest st) =
  if Js.setHas c (dfs.visited (loc st)) then dfs.mkLocals (dfs.visited (loc st)) rest
  else dfs.mkLocals (Js.setAdd c (dfs.visited (loc st)))
         (filter (fun n => n ∉ Js.setAdd c (dfs.visited (loc st))) (neighborsOf adj c).*1 ++ rest).
Proof.
  unfold dfs.turn. cbv zeta. loc_simpl.
  destruct (Js.setHas c (dfs.visited (loc st))); [done|].
  loc_simpl. by rewrite dfs_pushNeighbors_loc.
Qed.

(** What decreases at every turn. *)
Definition dfsMeasure (l : dfs.Locals) : nat :=
  length (dfs.stack l) + unvisitedEnds graph (dfs.visited l).

Lemma dfs_turn_decreases c rest st :
  dfs.stack (loc st) = c :: rest →
  dfsMeasure (loc (dfs.turn graph adj c rest st)) < dfsMeasure (loc st).
Proof.
  intros Hst. rewrite dfs_turn_loc. unfold dfsMeasure. rewrite Hst.
  destruct (Js.setHas c (dfs.visited (loc st))) eqn:E; simpl; [lia|].
  apply setHas_false in E.
  pose proof (unvisitedEnds_add graph _ c E) as H1.
  pose proof (degree_le_occurrences graph c) as H2.
  rewrite length_app.
  pose proof (length_filter (fun n => n ∉ Js.setAdd c (dfs.visited (loc st)))
                (neighborsOf adj c).*1) as H3.
  rewrite length_fmap in H3. unfold adj in *. lia.
Qed.

Lemma dfs_while_returns fuel st :
  dfsMeasure (loc st) < fuel → ∃ st', dfs.while fuel graph adj st = Returned st'.
Proof.
  revert st. induction fuel as [|fuel IH]; intros st H; [lia|]. simpl.
  destruct (dfs.stack (loc st)) as [|c rest] eqn:E; [by eexists|].
  apply IH. pose proof (dfs_turn_decreases c rest st E). lia.
Qed.

Lemma dfs_start_measure startNodeId :
  dfsMeasure (loc (dfs.start graph startNodeId)) < dfs.fuelFor graph.
Proof.
  unfold dfsMeasure, dfs.fuelFor. simpl.
  pose proof (unvisitedEnds_le graph []). lia.
Qed.
End dfs_locals.

(** ** The recursive DFS *)

Section recursive_dfs.
Context (adj : AdjList).

Lemma recursiveVisit_grows depth :
  (∀ visited v visited', recursiveVisit depth adj visited v = Returned visited' →
     visited ⊆ visited') ∧
  (∀ l visited visited', forEach (recursiveVisit depth adj) visited l = Returned visited' →
     visited ⊆ visited').
Proof.
  assert (∀ d, (∀ visited v visited', recursiveVisit d adj visited v = Returned visited' →
                  visited ⊆ visited') →
               ∀ l visited visited', forEach (recursiveVisit d adj) visited l = Returned visited' →
                  visited ⊆ visited') as Hlist.
  { intros d Hd l. induction l as [|x l IH]; simpl; intros V V' H.
    - apply Returned_inj in H. by subst.
    - apply bind_Returned in H as (V1 & E & H). etrans; [by eapply Hd|by eapply IH]. }
  induction depth as [|d [IH1 IH2]].
  - assert (∀ visited v visited', recursiveVisit 0 adj visited v = Returned visited' →
              visited ⊆ visited') as H0.
    { intros V v V' H. simpl in H. destruct (Js.setHas v V); [|done].
      apply Returned_inj in H. by subst. }
    split; [done|by apply Hlist].
  - assert (∀ visited v visited', recursiveVisit (S d) adj visited v = Returned visited' →
              visited ⊆ visited') as HS.
    { intros V v V' H. simpl in H. destruct (Js.setHas v V).
      - apply Returned_inj in H. by subst.
      - apply IH2 in H. intros x Hx. apply H. apply elem_of_setAdd. by right. }
    split; [done|by apply Hlist].
Qed.

(** Ids that are visited already can be left out of the list to visit. *)
Lemma visit_filtered depth l visited0 visited visited' :
  visited0 ⊆ visited →
  forEach (recursiveVisit depth adj) visited l = Returned visited' →
  forEach (recursiveVisit depth adj) visited (filter (fun n => n ∉ visited0) l) = Returned visited'.
Proof.
  revert visited. induction l as [|x l IH]; intros V HV H; [done|].
  simpl in H. apply bind_Returned in H as (V1 & E & H).
  pose proof (proj1 (recursiveVisit_grows depth) _ _ _ E) as HV1.
  rewrite filter_cons. destruct (decide (x ∉ visited0)) as [Hx|Hx].
  - simpl. rewrite E. simpl. apply IH; [by etrans|done].
  - assert (x ∈ V) as HxV by (apply HV; by apply dec_stable).
    assert (V1 = V) as ->.
    { destruct depth; simpl in E; rewrite (proj2 (setHas_true x V) HxV) in E;
        apply Returned_inj in E; by subst. }
    by apply IH.
Qed.
End recursive_dfs.

(** ** The two searches visit in the same order *)

Section dfs_refines.
Context (graph : Graph).
Let adj := toAdjacencyList graph.

Lemma dfs_turns_add a b st :
  dfs.turns (a + b) graph adj st = dfs.turns b graph adj (dfs.turns a graph adj st).
Proof.
  revert st. induction a as [|a IH]; intros st; simpl; [done|].
  destruct (dfs.stack (loc st)) eqn:E; [|apply IH].
  destruct b; simpl; [done|]. by rewrite E.
Qed.

(** The loop, started with the list [l] on top of the stack, visits what
    the recursive search visits on [l], and comes to the rest of the stack. *)
Lemma dfs_loop_follows depth l visited visited' st below :
  forEach (recursiveVisit depth adj) visited l = Returned visited' →
  dfs.visited (loc st) = visited → dfs.stack (loc st) = l ++ below →
  ∃ k, loc (dfs.turns k graph adj st) = dfs.mkLocals visited' below.
Proof.
  revert l visited visited' st below.
  induction depth as [|d IHd]; intros l; induction l as [|c rest IHl];
    intros V V' st B H HV HS; simpl in H.
  1,3: apply Returned_inj in H; subst; exists 0; simpl in *; destruct (loc st); simpl in *;
       by subst.
  - destruct (Js.setHas c V) eqn:Hc; [|done]. simpl in H.
    destruct (IHl V V' (dfs.turn graph adj c (rest ++ B) st) B H) as [k Hk].
    + rewrite dfs_turn_loc, HV, Hc. done.
    + rewrite dfs_turn_loc, HV, Hc. done.
    + exists (S k). simpl. by rewrite HS.
  - destruct (Js.setHas c V) eqn:Hc; simpl in H.
    + destruct (IHl V V' (dfs.turn graph adj c (rest ++ B) st) B H) as [k Hk].
      * rewrite dfs_turn_loc, HV, Hc. done.
      * rewrite dfs_turn_loc, HV, Hc. done.
      * exists (S k). simpl. by rewrite HS.
    + apply bind_Returned in H as (V1 & E & H).
      apply (visit_filtered adj d _ (Js.setAdd c V)) in E; [|done].
      destruct (IHd _ _ _ (dfs.turn graph adj c (rest ++ B) st) (rest ++ B) E) as [k1 Hk1].
      * rewrite dfs_turn_loc, HV, Hc. done.
      * rewrite dfs_turn_loc, HV, Hc. done.
      * destruct (IHl V1 V' (dfs.turns k1 graph adj (dfs.turn graph adj c (rest ++ B) st)) B H)
          as [k2 Hk2]; [by rewrite Hk1..|].
        exists (S (k1 + k2)). simpl. rewrite HS. simpl. by rewrite dfs_turns_add.
Qed.

Lemma dfs_while_turns k fuel st st' visited :
  loc (dfs.turns k graph adj st) = dfs.mkLocals visited [] →
  dfs.while fuel graph adj st = Returned st' →
  dfs.visited (loc st') = visited.
Proof.
  revert fuel st. induction k as [|k IH]; intros fuel st Hk Hw.
  - simpl in Hk. destruct fuel; simpl in Hw; rewrite Hk in Hw; simpl in Hw;
      apply Returned_inj in Hw; subst; by rewrite Hk.
  - simpl in Hk. destruct (dfs.stack (loc st)) as [|c rest] eqn:E.
    + destruct fuel; simpl in Hw; rewrite E in Hw; apply Returned_inj in Hw; subst;
        by rewrite Hk.
    + destruct fuel; simpl in Hw; rewrite E in Hw; [done|]. by eapply IH.
Qed.

(** The recursive search returns: a call on an unvisited id marks an id
    that is the start or an end of an edge. *)
Definition unvisitedOf (universe visited : list string) : nat :=
  length (filter (fun x => x ∉ visited) universe).

Lemma unvisitedOf_mono universe visited visited' :
  visited ⊆ visited' → unvisitedOf universe visited' ≤ unvisitedOf universe visited.
Proof.
  intros H. unfold unvisitedOf. induction universe as [|u us IH]; [done|].
  rewrite !filter_cons. destruct (decide (u ∉ visited')) as [Hu|Hu].
  - rewrite decide_True by (intros ?; apply Hu; by apply H). simpl. lia.
  - destruct (decide (u ∉ visited)); simpl; lia.
Qed.

Lemma unvisitedOf_add universe visited v :
  v ∈ universe → v ∉ visited →
  unvisitedOf universe (Js.setAdd v visited) < unvisitedOf universe visited.
Proof.
  intros Hv Hn. unfold unvisitedOf. rewrite <- (filter_not_in_add universe visited v Hn).
  assert (0 < occurrences v universe); [|lia].
  unfold occurrences. apply list_elem_of_split in Hv as (l1 & l2 & ->).
  rewrite filter_app, filter_cons, decide_True by done. rewrite length_app. simpl. lia.
Qed.

Lemma recursiveVisit_returns universe depth :
  (∀ v n, n ∈ (neighborsOf adj v).*1 → n ∈ universe) →
  (∀ visited v, v ∈ universe → unvisitedOf universe visited ≤ depth →
     ∃ visited', recursiveVisit depth adj visited v = Returned visited') ∧
  (∀ l visited, (∀ n, n ∈ l → n ∈ universe) → unvisitedOf universe visited ≤ depth →
     ∃ visited', forEach (recursiveVisit depth adj) visited l = Returned visited').
Proof.
  intros Huniv.
  assert (∀ d, (∀ visited v, v ∈ universe → unvisitedOf universe visited ≤ d →
                  ∃ visited', recursiveVisit d adj visited v = Returned visited') →
               ∀ l visited, (∀ n, n ∈ l → n ∈ universe) → unvisitedOf universe visited ≤ d →
                  ∃ visited', forEach (recursiveVisit d adj) visited l = Returned visited') as Hlist.
  { intros d Hd l. induction l as [|x l IH]; intros V Hl HV; simpl; [by eexists|].
    destruct (Hd V x) as [V1 E]; [apply Hl; by left|done|]. rewrite E. simpl.
    apply IH; [intros n Hn; apply Hl; by right|].
    pose proof (unvisitedOf_mono universe V V1
                  (proj1 (recursiveVisit_grows adj d) _ _ _ E)). lia. }
  induction depth as [|d [IH1 IH2]].
  - assert (∀ visited v, v ∈ universe → unvisitedOf universe visited ≤ 0 →
              ∃ visited', recursiveVisit 0 adj visited v = Returned visited') as H0.
    { intros V v Hv HV. simpl. destruct (Js.setHas v V) eqn:E; [by eexists|].
      apply setHas_false in E. pose proof (unvisitedOf_add universe V v Hv E). lia. }
    split; [done|by apply Hlist].
  - assert (∀ visited v, v ∈ universe → unvisitedOf universe visited ≤ S d →
              ∃ visited', recursiveVisit (S d) adj visited v = Returned visited') as HS.
    { intros V v Hv HV. simpl. destruct (Js.setHas v V) eqn:E; [by eexists|].
      apply setHas_false in E. apply IH2; [by apply Huniv|].
      pose proof (unvisitedOf_add universe V v Hv E). lia. }
    split; [done|by apply Hlist].
Qed.

Lemma recursiveDFS_returns startNodeId :
  ∃ order, recursiveDFS graph startNodeId = Returned order.
Proof.
  unfold recursiveDFS.
  apply (proj1 (recursiveVisit_returns (startNodeId :: endsOf (edges graph)) (dfs.fuelFor graph)
    (fun v n H => list_elem_of_further _ _ _ (neighbors_are_ends graph v n H)))).
  - by left.
  - unfold unvisitedOf, dfs.fuelFor.
    etrans; [apply length_filter|]. simpl. rewrite length_endsOf. lia.
Qed.

(** The explicit-stack search marks the ids in the order of the recursive one. *)
Lemma dfs_visitOrder_recursive startNodeId :
  ∃ st order,
    dfs.while (dfs.fuelFor graph) graph adj (dfs.start graph startNodeId) = Returned st ∧
    dfs.visited (loc st) = order ∧
    recursiveDFS graph startNodeId = Returned order.
Proof.
  destruct (recursiveDFS_returns startNodeId) as [order Horder].
  destruct (dfs_while_returns graph (dfs.fuelFor graph) (dfs.start graph startNodeId))
    as [st Hst]; [apply dfs_start_measure|].
  exists st, order. split; [done|]. split; [|done].
  destruct (dfs_loop_follows (dfs.fuelFor graph) [startNodeId] [] order
              (dfs.start graph startNodeId) []) as [k Hk].
  - simpl. unfold recursiveDFS in Horder. fold adj in Horder. by rewrite Horder.
  - done.
  - done.
  - by eapply dfs_while_turns.
Qed.
End dfs_refines.

(** ** C5 *)

(** The labels of the set [visited] in the last step of a trace: the nodes
    in the order in which they were marked visited. *)
Definition visitedLabels (steps : list AlgorithmStep) : list (option string) :=
  match last steps with
  | Some s => match viewOf s "visited" with Some (VLabels ls) => ls | _ => [] end
  | None => []
  end.

(** What C5 says of the run of [executeDFS] from [start]: the nodes are
    marked visited in the order in which the recursive search visits them. *)
Definition dfsFollowsRecursion (graph : Graph) (params : AlgorithmParams) (start : string) : Prop :=
  ∃ steps order,
    dfs.executeDFS graph params = Returned steps ∧
    recursiveDFS graph start = Returned order ∧
    dfs.visitOrder graph start = Returned order ∧
    visitedLabels steps = labelOf graph <$> order.

(** C5 (amended): for every graph and every start node of it whose id is
    not the empty string, the nodes that [executeDFS] marks visited, in the
    order in which it pops them unvisited, are the nodes that the recursive
    DFS from the same start visits, in its order, the adjacency lists being
    scanned forwards. *)
Theorem C5_dfs_visits_in_recursive_order graph params start n :
  startNodeId params = Some start → start ≠ "" → getNode graph start = Some n →
  dfsFollowsRecursion graph params start.
Proof.
  intros Hp Hs Hn.
  destruct (dfs_visitOrder_recursive graph start) as (st & order & Hw & Hv & Hr).
  exists (r_steps (run (dfs.finish graph st))), order.
  split; [|split; [done|split]].
  - unfold dfs.executeDFS. rewrite Hp. simpl. rewrite bool_decide_eq_false_2 by done.
    rewrite Hn, Hw. done.
  - unfold dfs.visitOrder. rewrite Hw. simpl. by rewrite Hv.
  - unfold visitedLabels, dfs.finish. cbv zeta. simpl. rewrite last_snoc.
    unfold viewOf. simpl. by rewrite loc_foldl_setNode, Hv.
Qed.

Lemma C5_witness :
  startNodeId (from "A") = Some "A" ∧ "A" ≠ "" ∧ getNode triangle "A" = Some (node "A") ∧
  dfsFollowsRecursion triangle (from "A") "A".
Proof.
  split; [reflexivity|]. split; [discriminate|]. split; [reflexivity|].
  apply (C5_dfs_visits_in_recursive_order triangle (from "A") "A" (node "A"));
    [reflexivity|discriminate|reflexivity].
Defined.

(** C5 as stated fails for a start node whose id is the empty string: the
    guard [if (!startNodeId || ...)] returns no step, and nothing is marked
    visited, while the recursive search visits the node. *)
Lemma C5_counterexample :
  getNode unnamedNode "" = Some (mkNode "" "N" 0%float 0%float) ∧
  dfs.executeDFS unnamedNode (from "") = Returned [] ∧
  recursiveDFS unnamedNode "" = Returned [""] ∧
  ¬ dfsFollowsRecursion unnamedNode (from "") "".
Proof.
  split; [reflexivity|]. split; [reflexivity|]. split; [reflexivity|].
  intros (steps & order & Hrun & Hrec & _ & Hlabels).
  apply Returned_inj in Hrun. apply Returned_inj in Hrec. subst. discriminate Hlabels.
Qed.

(** ** The loops have fuel enough *)

Lemma getNode_Some graph nodeId n :
  getNode graph nodeId = Some n → n ∈ nodes graph ∧ node_id n = nodeId.
Proof.
  unfold getNode. intros H. apply find_some in H as [H1 H2].
  split; [by apply list_elem_of_In|]. by apply bool_decide_eq_true in H2.
Qed.

Lemma occurrences_pos v l : v ∈ l → 0 < occurrences v l.
Proof.
  intros Hv. unfold occurrences. apply list_elem_of_split in Hv as (l1 & l2 & ->).
  rewrite filter_app, filter_cons, decide_True by done. rewrite length_app. simpl. lia.
Qed.

Section bfs_finishes.
Context (graph : Graph).
Let adj := toAdjacencyList graph.

Lemma bfs_examine_loc c st nb :
  loc (bfs.examine graph c st nb) =
  if Js.setHas nb.1 (bfs.visited (loc st)) then loc st
  else bfs.mkLocals (Js.setAdd nb.1 (bfs.visited (loc st))) (bfs.queue (loc st) ++ [nb.1]).
Proof.
  unfold bfs.examine. cbv zeta. loc_simpl.
  destruct (Js.setHas nb.1 (bfs.visited (loc st))); loc_simpl; done.
Qed.

Definition bfsMeasure (l : bfs.Locals) : nat :=
  length (bfs.queue l) + unvisitedEnds graph (bfs.visited l).

Lemma bfs_examine_measure c st nb :
  nb.1 ∈ endsOf (edges graph) →
  bfsMeasure (loc (bfs.examine graph c st nb)) ≤ bfsMeasure (loc st).
Proof.
  intros Hnb. rewrite bfs_examine_loc.
  destruct (Js.setHas nb.1 (bfs.visited (loc st))) eqn:E; [done|].
  apply setHas_false in E. unfold bfsMeasure. simpl. rewrite length_app. simpl.
  pose proof (unvisitedEnds_add graph _ _ E). pose proof (occurrences_pos _ _ Hnb). lia.
Qed.

Lemma bfs_examine_all_measure c nbs st :
  (∀ nb, nb ∈ nbs → nb.1 ∈ endsOf (edges graph)) →
  bfsMeasure (loc (foldl (bfs.examine graph c) st nbs)) ≤ bfsMeasure (loc st).
Proof.
  revert st. induction nbs as [|nb nbs IH]; intros st H; simpl; [done|].
  etrans; [apply IH; intros ? ?; apply H; by right|].
  apply bfs_examine_measure. apply H. by left.
Qed.

Lemma bfs_turn_decreases c rest st :
  bfs.queue (loc st) = c :: rest →
  bfsMeasure (loc (bfs.turn graph adj c rest st)) < bfsMeasure (loc st).
Proof.
  intros Hq. unfold bfs.turn. cbv zeta. loc_simpl.
  eapply Nat.le_lt_trans.
  - apply bfs_examine_all_measure. intros nb Hnb.
    apply (neighbors_are_ends graph c). by apply list_elem_of_fmap_2.
  - unfold bfsMeasure. simpl. rewrite Hq. simpl. lia.
Qed.

Lemma bfs_while_returns fuel st :
  bfsMeasure (loc st) < fuel → ∃ st', bfs.while fuel graph adj st = Returned st'.
Proof.
  revert st. induction fuel as [|fuel IH]; intros st H; [lia|]. simpl.
  destruct (bfs.queue (loc st)) as [|c rest] eqn:E; [by eexists|].
  apply IH. pose proof (bfs_turn_decreases c rest st E). lia.
Qed.

Lemma executeBFS_returns params : ∃ steps, bfs.executeBFS graph params = Returned steps.
Proof.
  unfold bfs.executeBFS. destruct (Js.truthyStr _) as [s|]; [|by eexists].
  destruct (getNode graph s); [|by eexists].
  destruct (bfs_while_returns (bfs.fuelFor graph) (bfs.start graph s)) as [st Hst].
  - unfold bfsMeasure, bfs.fuelFor. simpl. pose proof (unvisitedEnds_le graph (Js.setAdd s [])). lia.
  - fold adj. rewrite Hst. by eexists.
Qed.
End bfs_finishes.

Lemma executeDFS_returns graph params : ∃ steps, dfs.executeDFS graph params = Returned steps.
Proof.
  unfold dfs.executeDFS. destruct (Js.truthyStr _) as [s|]; [|by eexists].
  destruct (getNode graph s); [|by eexists].
  destruct (dfs_while_returns graph (dfs.fuelFor graph) (dfs.start graph s)) as [st Hst];
    [apply dfs_start_measure|].
  rewrite Hst. by eexists.
Qed.

(** A call finishes (it returns or throws, the fuel is not exhausted), and
    what it returns satisfies [post]. *)
Definition finished {A} (o : Outcome A) (post : A → Prop) : Prop :=
  match o with
  | Returned a => post a
  | Threw => True
  | OutOfFuel => False
  end.

Lemma finished_bind {A B} (c : Outcome A) (k : A → Outcome B) (P : A → Prop) (Q : B → Prop) :
  finished c P → (∀ a, P a → finished (k a) Q) → finished (c ≫= k) Q.
Proof. destruct c; simpl; eauto. Qed.

Lemma finished_mono {A} (o : Outcome A) (P Q : A → Prop) :
  finished o P → (∀ a, P a → Q a) → finished o Q.
Proof. destruct o; simpl; eauto. Qed.

Lemma finished_forEach {A S} (body : S → A → Outcome S) (Inv : S → Prop) (l : list A) (st : S) :
  Inv st → (∀ st a, a ∈ l → Inv st → finished (body st a) Inv) →
  finished (forEach body st l) Inv.
Proof.
  revert st. induction l as [|a l IH]; intros st Hst Hbody; simpl; [done|].
  eapply finished_bind; [apply Hbody; [by left|done]|].
  intros st1 Hst1. apply IH; [done|]. intros st2 b Hb. apply Hbody. by right.
Qed.

Lemma finished_not_OutOfFuel {A} (o : Outcome A) (P : A → Prop) : finished o P → o ≠ OutOfFuel.
Proof. by destruct o. Qed.

Section connectedComponents_finishes.
Context (graph : Graph).
Let adj := toAdjacencyList graph.
Let ids := node_id <$> nodes graph.

Lemma components_dfs_finishes fuel compId nodeId st :
  nodeId ∉ connectedComponents.visited (loc st) →
  unvisitedOf ids (connectedComponents.visited (loc st)) < fuel →
  finished (connectedComponents.dfs fuel graph adj compId nodeId st)
    (fun st' => connectedComponents.visited (loc st) ⊆ connectedComponents.visited (loc st')).
Proof.
  revert nodeId st. induction fuel as [|fuel IH]; intros nodeId st Hn Hfuel; [lia|].
  simpl. destruct (getNode graph nodeId) as [n|] eqn:En; [|done].
  apply getNode_Some in En as [Hin Hid].
  assert (nodeId ∈ ids) as Hids by (rewrite <- Hid; by apply list_elem_of_fmap_2).
  pose proof (unvisitedOf_add ids _ _ Hids Hn) as Hlt.
  set (V1 := Js.setAdd nodeId (connectedComponents.visited (loc st))) in *.
  eapply finished_mono.
  - apply (finished_forEach _
      (fun st' => V1 ⊆ connectedComponents.visited (loc st'))).
    + by loc_simpl.
    + intros st1 nb _ Hst1. cbv zeta. loc_simpl.
      destruct (Js.setHas nb.1 (connectedComponents.visited (loc st1))) eqn:E; simpl; [done|].
      apply setHas_false in E. eapply finished_mono.
      * apply IH; loc_simpl; [done|].
        pose proof (unvisitedOf_mono ids _ _ Hst1). lia.
      * intros st2. loc_simpl. intros H. by etrans.
  - intros st' H x Hx. apply H. apply elem_of_setAdd. by right.
Qed.

Lemma executeConnectedComponents_finishes params :
  connectedComponents.executeConnectedComponents graph params ≠ OutOfFuel.
Proof.
  unfold connectedComponents.executeConnectedComponents.
  apply (finished_not_OutOfFuel _ (fun _ => True)).
  eapply finished_bind; [|done].
  apply (finished_forEach _ (fun _ => True)); [done|].
  intros st n _ _. unfold connectedComponents.component_of.
  destruct (Js.setHas (node_id n) (connectedComponents.visited (loc st))) eqn:E; simpl; [done|].
  apply setHas_false in E. cbv zeta.
  eapply finished_bind; [|done].
  apply components_dfs_finishes; loc_simpl; [done|].
  unfold connectedComponents.fuelFor, unvisitedOf.
  eapply Nat.le_lt_trans; [apply length_filter|]. unfold ids. rewrite length_fmap. lia.
Qed.
End connectedComponents_finishes.

Section cycleDetection_finishes.
Context (graph : Graph).
Let adj := toAdjacencyList graph.
Import cycleDetection.

Definition whites (m : list (string * Color)) : nat :=
  length (filter (fun kv => kv.2 = WHITE) m).

Lemma whites_cons k c m :
  whites ((k, c) :: m) = (if decide (c = WHITE) then 1 else 0) + whites m.
Proof. unfold whites. rewrite filter_cons. simpl. by destruct (decide (c = WHITE)). Qed.

Lemma whites_mapSet k c m : c ≠ WHITE → whites (Js.mapSet k c m) ≤ whites m.
Proof.
  intros Hc. induction m as [|[k' c'] m IH]; simpl.
  - rewrite whites_cons, decide_False by done. done.
  - case_bool_decide; rewrite !whites_cons.
    + rewrite decide_False by done. lia.
    + lia.
Qed.

Lemma whites_mapSet_white k c m :
  c ≠ WHITE → Js.mapGet k m = Some WHITE → whites (Js.mapSet k c m) < whites m.
Proof.
  intros Hc. unfold Js.mapGet. induction m as [|[k' c'] m IH]; simpl; [done|].
  case_bool_decide; simpl.
  - intros [= ->]. rewrite !whites_cons.
    rewrite decide_False by done. rewrite decide_True by done. lia.
  - intros Hm. rewrite !whites_cons. specialize (IH Hm). lia.
Qed.

Lemma length_mapSet {V} k (v : V) m : length (Js.mapSet k v m) ≤ S (length m).
Proof. induction m as [|kv m IH]; simpl; [done|]. case_bool_decide; simpl; lia. Qed.

Definition whiteCount (st : St Locals) : nat := whites (color (loc st)).

Lemma cycle_forNeighbors_finishes fuel recurse nodeId node nbs st :
  (∀ id st, Js.mapGet id (color (loc st)) = Some WHITE → whiteCount st ≤ fuel →
     finished (recurse id st) (fun r => whiteCount r.2 ≤ whiteCount st)) →
  whiteCount st ≤ fuel →
  finished (forNeighbors recurse graph nodeId node nbs st)
    (fun r => whiteCount r.2 ≤ whiteCount st).
Proof.
  intros Hrec. revert st. induction nbs as [|[n w] nbs IH]; intros st Hst; simpl; [done|].
  destruct (getNode graph n); [|done]. cbv zeta. loc_simpl.
  case_bool_decide as Hgray. { simpl. unfold whiteCount. by loc_simpl. }
  case_bool_decide as Hwhite.
  - eapply finished_bind.
    + apply Hrec; unfold whiteCount; loc_simpl; done.
    + intros [found st1]. unfold whiteCount at 1 2. loc_simpl. intros H1.
      destruct found; [done|].
      eapply finished_mono; [apply IH; unfold whiteCount in *; lia|].
      intros r Hr. unfold whiteCount in *. lia.
  - eapply finished_mono; [apply IH; unfold whiteCount; by loc_simpl|].
    intros r. unfold whiteCount. by loc_simpl.
Qed.

Lemma cycle_dfs_finishes fuel nodeId st :
  Js.mapGet nodeId (color (loc st)) = Some WHITE → whiteCount st ≤ fuel →
  finished (dfs fuel graph adj nodeId st) (fun r => whiteCount r.2 ≤ whiteCount st).
Proof.
  revert nodeId st. induction fuel as [|fuel IH]; intros nodeId st Hw Hfuel.
  - pose proof (whites_mapSet_white nodeId GRAY _ ltac:(done) Hw). unfold whiteCount in *. lia.
  - simpl. destruct (getNode graph nodeId); [|done].
    pose proof (whites_mapSet_white nodeId GRAY _ ltac:(done) Hw) as Hlt.
    eapply finished_bind.
    + apply (cycle_forNeighbors_finishes fuel); [apply IH|].
      unfold whiteCount in *. loc_simpl. lia.
    + intros [found st1]. unfold whiteCount in *. loc_simpl. intros H1.
      destruct found; simpl; [lia|]. loc_simpl.
      pose proof (whites_mapSet nodeId BLACK (color (loc st1)) ltac:(done)). lia.
Qed.

Lemma cycle_roots_finishes fuel ns st :
  whiteCount st ≤ fuel → finished (roots fuel graph adj ns st) (fun _ => True).
Proof.
  revert st. induction ns as [|n ns IH]; intros st Hst; simpl; [done|].
  case_bool_decide as Hw; [|by apply IH]. cbv zeta.
  eapply finished_bind.
  - apply cycle_dfs_finishes; unfold whiteCount; loc_simpl; done.
  - intros [found st1]. unfold whiteCount at 1 2. loc_simpl. intros H1.
    destruct found; [done|]. apply IH. unfold whiteCount in *. lia.
Qed.

Lemma executeCycleDetection_finishes params : executeCycleDetection graph params ≠ OutOfFuel.
Proof.
  unfold executeCycleDetection. apply (finished_not_OutOfFuel _ (fun _ => True)).
  eapply finished_bind.
  - apply cycle_roots_finishes. unfold whiteCount, fuelFor, whites. loc_simpl.
    etrans; [apply length_filter|].
    assert (∀ ns m, length (foldl (fun c n => Js.mapSet (node_id n) WHITE c) m ns)
                    ≤ length m + length ns) as H.
    { induction ns as [|n ns IH]; intros m; simpl; [lia|].
      etrans; [apply IH|]. pose proof (length_mapSet (node_id n) WHITE m). lia. }
    specialize (H (nodes graph) []). simpl in H. lia.
  - intros st _. apply (finished_bind _ _ (fun _ => True)); [|done]. unfold finish.
    destruct (cycleFound (loc st)); [|done]. by destruct (cycleEdge (loc st)) as [[]|].
Qed.
End cycleDetection_finishes.

Lemma length_filter_le {A} (P Q : A → Prop) `{!∀ x, Decision (P x)} `{!∀ x, Decision (Q x)}
    (l : list A) :
  (∀ x, x ∈ l → Q x → P x) → length (filter Q l) ≤ length (filter P l).
Proof.
  induction l as [|a l IH]; intros Himp; [done|]. rewrite !filter_cons.
  assert (length (filter Q l) ≤ length (filter P l))
    by (apply IH; intros; apply Himp; [by right|done]).
  destruct (decide (Q a)) as [Hq|Hq].
  - rewrite decide_True by (apply Himp; [by left|done]). simpl. lia.
  - destruct (decide (P a)); simpl; lia.
Qed.

Lemma length_filter_lt {A} (P Q : A → Prop) `{!∀ x, Decision (P x)} `{!∀ x, Decision (Q x)}
    (l : list A) a :
  (∀ x, x ∈ l → Q x → P x) → a ∈ l → P a → ¬ Q a →
  length (filter Q l) < length (filter P l).
Proof.
  intros Himp Ha HP HQ. apply list_elem_of_split in Ha as (l1 & l2 & ->).
  rewrite !filter_app, !filter_cons, !length_app.
  destruct (decide (P a)); [|done]. destruct (decide (Q a)); [done|]. simpl.
  assert (length (filter Q l1) ≤ length (filter P l1)).
  { apply length_filter_le. intros x Hx. apply Himp. apply elem_of_app. by left. }
  assert (length (filter Q l2) ≤ length (filter P l2)).
  { apply length_filter_le. intros x Hx. apply Himp. apply elem_of_app. right. by right. }
  lia.
Qed.

Section topological_finishes.
Context (graph : Graph).
Import topological.

(** The edges into an id whose in-degree is still positive. *)
Definition waiting (l : Locals) : nat :=
  length (filter (fun e => (0 < degreeOf l (target e))%Z) (edges graph)).

Definition topologicalMeasure (st : St Locals) : nat :=
  length (queue (loc st)) + waiting (loc st).

Lemma topological_release_finishes st edge :
  edge ∈ edges graph →
  finished (release graph st edge) (fun st' => topologicalMeasure st' ≤ topologicalMeasure st).
Proof.
  intros He. unfold release. destruct (getNode graph (target edge)); [|done]. cbv zeta.
  set (d := degreeOf (loc (setEdge (edge_id edge) EdgeState.IN_SOLUTION (addEdgesExamined 1 st)))
              (target edge)).
  assert (d = degreeOf (loc st) (target edge)) as Hd by done.
  assert (∀ e, degreeOf (mkLocals (<[target edge := (d - 1)%Z]> (inDegree (loc st)))
                           (queue (loc st)) (result (loc st))) (target e) =
               if decide (target e = target edge) then (d - 1)%Z else degreeOf (loc st) (target e))
    as Hdeg.
  { intros e. unfold degreeOf. simpl. destruct (decide (target e = target edge)) as [->|Hne].
    - by rewrite lookup_insert_eq.
    - by rewrite lookup_insert_ne. }
  case_bool_decide as H0; simpl; unfold topologicalMeasure, waiting; loc_simpl.
  - rewrite length_app. simpl.
    assert (length (filter (fun e => (0 < degreeOf
               (mkLocals (<[target edge := (d - 1)%Z]> (inDegree (loc st)))
                  (queue (loc st)) (result (loc st))) (target e))%Z) (edges graph))
            < length (filter (fun e => (0 < degreeOf (loc st) (target e))%Z) (edges graph))) as Hlt.
    { apply (length_filter_lt _ _ _ edge); [|done|lia|].
      - intros e _. rewrite Hdeg. case_decide as Ht; [rewrite Ht|]; lia.
      - rewrite Hdeg, decide_True by done. lia. }
    unfold degreeOf in *. simpl in *. lia.
  - assert (length (filter (fun e => (0 < degreeOf
               (mkLocals (<[target edge := (d - 1)%Z]> (inDegree (loc st)))
                  (queue (loc st)) (result (loc st))) (target e))%Z) (edges graph))
            ≤ length (filter (fun e => (0 < degreeOf (loc st) (target e))%Z) (edges graph))) as Hle.
    { apply length_filter_le. intros e _. rewrite Hdeg. case_decide as Ht; [rewrite Ht|]; lia. }
    unfold degreeOf in *. simpl in *. lia.
Qed.

Lemma topological_turn_finishes c rest st :
  queue (loc st) = c :: rest →
  finished (turn graph c rest st) (fun st' => topologicalMeasure st' < topologicalMeasure st).
Proof.
  intros Hq. unfold turn. cbv zeta. destruct (getNode graph c); [|done].
  eapply finished_bind.
  - apply (finished_forEach _ (fun st' => topologicalMeasure st' < topologicalMeasure st)).
    + unfold topologicalMeasure, waiting, degreeOf. loc_simpl. rewrite Hq. simpl. lia.
    + intros st1 e He Hst1. eapply finished_mono.
      * apply topological_release_finishes. by apply list_elem_of_filter in He as [_ He].
      * intros st2 H2. simpl in H2. lia.
  - intros st1 H1. simpl. unfold topologicalMeasure, waiting, degreeOf in *. by loc_simpl.
Qed.

Lemma topological_while_finishes fuel st :
  topologicalMeasure st < fuel → finished (while fuel graph st) (fun _ => True).
Proof.
  revert st. induction fuel as [|fuel IH]; intros st H; [lia|]. simpl.
  destruct (queue (loc st)) as [|c rest] eqn:E; [done|].
  eapply finished_bind; [by apply topological_turn_finishes|].
  intros st1 H1. cbv beta in H1. apply IH. lia.
Qed.

Lemma topological_start_measure : topologicalMeasure (start graph) < fuelFor graph.
Proof.
  unfold start. cbv zeta. unfold topologicalMeasure, fuelFor. loc_simpl.
  match goal with |- context [foldl ?f ?st0 (nodes graph)] =>
    assert (∀ ns st, length (queue (loc (foldl f st ns))) ≤ length (queue (loc st)) + length ns ∧
                     waiting (loc (foldl f st ns)) = waiting (loc st)) as H
  end.
  { induction ns as [|n ns IH]; intros st; simpl; [split; [lia|done]|].
    destruct (IH (if bool_decide (inDegree (loc st) !! node_id n = Some 0%Z)
                  then setNode (node_id n) NodeState.VISITING
                         (onLoc (fun l => mkLocals (inDegree l) (queue l ++ [node_id n]) (result l)) st)
                  else st)) as [IH1 IH2].
    rewrite IH2. split.
    - etrans; [apply IH1|]. case_bool_decide; loc_simpl; rewrite ?length_app; simpl; lia.
    - by case_bool_decide. }
  match goal with |- context [foldl ?f ?st0 (nodes graph)] =>
    destruct (H (nodes graph) st0) as [H1 H2]
  end.
  rewrite H2. simpl in H1.
  assert (∀ l, waiting l ≤ length (edges graph)) as Hw by (intros l; apply length_filter).
  match goal with |- _ + waiting ?l < _ => specialize (Hw l) end. lia.
Qed.

Lemma executeTopologicalSort_finishes params : executeTopologicalSort graph params ≠ OutOfFuel.
Proof.
  unfold executeTopologicalSort. destruct (directed graph); simpl; [|done].
  apply (finished_not_OutOfFuel _ (fun _ => True)).
  eapply finished_bind; [apply topological_while_finishes, topological_start_measure|done].
Qed.
End topological_finishes.

Lemma enqueue_contains value priority (items : PrimQueue.t) v :
  v = value ∨ v ∈ items.*2 → v ∈ (PrimQueue.enqueue value priority items).*2.
Proof.
  intros Hv. destruct (decide (value ∈ items.*2)) as [Hin|Hin].
  - destruct (enqueue_queued value priority items Hin) as [-> _]. by destruct Hv as [->|].
  - rewrite (enqueue_new _ _ _ Hin). apply elem_of_cons. tauto.
Qed.

Lemma length_enqueue_le value priority (items : PrimQueue.t) :
  length (PrimQueue.enqueue value priority items) ≤ S (length items).
Proof.
  destruct (decide (value ∈ items.*2)) as [Hin|Hin].
  - destruct (enqueue_queued value priority items Hin) as (_ & -> & _). lia.
  - pose proof (Permutation_length (enqueue_new value priority items Hin)) as H.
    rewrite length_fmap in H. simpl in H. rewrite length_fmap in H. lia.
Qed.

Section prim_finishes.
Context (graph : Graph).
Let adj := toAdjacencyList graph.
Import prim.

(** Every node of the graph is queued or in the tree. *)
Definition allQueued (l : Locals) : Prop :=
  ∀ n, n ∈ nodes graph → node_id n ∈ (pq l).*2 ∨ node_id n ∈ inMST l.

Lemma prim_check_finishes c node st nb :
  allQueued (loc st) →
  finished (check graph c node st nb)
    (fun st' => allQueued (loc st') ∧ length (pq (loc st')) = length (pq (loc st))).
Proof.
  intros HJ. unfold check. destruct nb as [n w].
  destruct (Js.setHas n (inMST (loc st))) eqn:Hn; [done|].
  apply setHas_false in Hn.
  destruct (getNode graph n) as [nn|] eqn:En; [|done]. cbv zeta. loc_simpl.
  apply getNode_Some in En as [Hin Hid].
  assert (n ∈ (pq (loc st)).*2) as Hq.
  { destruct (HJ nn Hin) as [H|H]; rewrite Hid in H; done. }
  destruct (Js.lt w _); simpl; loc_simpl; [|done].
  destruct (enqueue_queued n w _ Hq) as (_ & Hlen & _). split; [|done].
  intros m Hm. destruct (HJ m Hm) as [H|H]; [left|by right].
  apply enqueue_contains. by right.
Qed.

Lemma prim_turn_finishes p c rest st :
  allQueued (loc st) → pq (loc st) = (p, c) :: rest →
  finished (turn graph adj c rest st)
    (fun st' => allQueued (loc st') ∧ length (pq (loc st')) = length rest).
Proof.
  intros HJ Hpq. unfold turn, turnWith, dequeue. cbv zeta. loc_simpl.
  assert (∀ mst, c ∈ mst → (∀ x, x ∈ inMST (loc st) → x ∈ mst) →
            allQueued (mkLocals (key (loc st)) (parent (loc st)) mst rest (totalWeight (loc st))))
    as Hafter.
  { intros mst Hc Hsub m Hm. simpl. destruct (HJ m Hm) as [H|H]; [|right; by apply Hsub].
    rewrite Hpq in H. simpl in H. apply elem_of_cons in H as [->|H]; [by right|by left]. }
  destruct (Js.setHas c (inMST (loc st))) eqn:Hc; simpl.
  - apply setHas_true in Hc. split; [|done]. by apply Hafter.
  - eapply finished_bind.
    + unfold add. cbv zeta. destruct (getNode graph c); [|exact I].
      simpl. instantiate (1 := fun r => allQueued (loc r.2) ∧ length (pq (loc r.2)) = length rest).
      simpl. loc_simpl.
      assert (allQueued (mkLocals (key (loc st)) (parent (loc st)) (Js.setAdd c (inMST (loc st)))
                rest (totalWeight (loc st)))) as H1.
      { apply Hafter; [apply elem_of_setAdd; by left|].
        intros x Hx. apply elem_of_setAdd. by right. }
      destruct (Js.truthyStr _); [|done].
      destruct (getEdgeBetween graph _ c); done.
    + intros [node st1] [H1 H2]. simpl in H1, H2.
      eapply finished_mono.
      * apply (finished_forEach _
          (fun st' => allQueued (loc st') ∧ length (pq (loc st')) = length rest)); [done|].
        intros st2 nb _ [H3 H4]. eapply finished_mono; [by apply prim_check_finishes|].
        intros st3 [H5 H6]. split; [done|]. congruence.
      * done.
Qed.

Lemma prim_while_finishes fuel st :
  allQueued (loc st) → length (pq (loc st)) < fuel →
  finished (while fuel graph adj st) (fun _ => True).
Proof.
  unfold while. revert st. induction fuel as [|fuel IH]; intros st HJ H; [lia|]. simpl.
  destruct (pq (loc st)) as [|[p c] rest] eqn:E; [done|].
  eapply finished_bind; [by apply (prim_turn_finishes p)|].
  intros st1 [H1 H2]. apply IH; [done|]. simpl in H. lia.
Qed.

Lemma prim_initLocals_queued startNodeId ns :
  (∀ n, n ∈ ns → node_id n ∈ (pq (initLocals startNodeId ns)).*2) ∧
  length (pq (initLocals startNodeId ns)) ≤ length ns.
Proof.
  induction ns as [|n ns [IH1 IH2]] using rev_ind.
  - split; [|done]. intros n Hn. by apply elem_of_nil in Hn.
  - rewrite initLocals_snoc. cbv zeta. simpl. split.
    + intros m Hm. apply enqueue_contains. apply elem_of_app in Hm as [Hm|Hm]; [right; by apply IH1|].
      apply list_elem_of_singleton in Hm as ->. by left.
    + rewrite length_app. simpl.
      etrans; [apply length_enqueue_le|]. lia.
Qed.

Lemma executePrim_finishes params : executePrim graph params ≠ OutOfFuel.
Proof.
  unfold executePrim, executePrimWith. destruct (Js.truthyStr _) as [s|]; [|done].
  apply (finished_not_OutOfFuel _ (fun _ => True)).
  eapply finished_bind; [|done].
  destruct (prim_initLocals_queued s (nodes graph)) as [H1 H2].
  apply prim_while_finishes.
  - intros n Hn. left. simpl. by apply H1.
  - simpl. unfold fuelFor. lia.
Qed.
End prim_finishes.

(** ** The walk back along the parents *)

(** [next] leads from an id to an id that was closed earlier. *)
Definition leadsBack (closed : list string) (next : string → option string) : Prop :=
  ∀ k p, next k = Some p →
    ∃ j, closed !! j = Some p ∧ ∀ i, closed !! i = Some k → j < i.

Lemma walkBack_closed closed next fuel curr path :
  leadsBack closed next →
  (∀ k, curr = Some k → ∃ i, closed !! i = Some k ∧ i < fuel) →
  finished (walkBack fuel next curr path) (fun _ => True).
Proof.
  intros Hnext. revert curr path. induction fuel as [|fuel IH]; intros curr path Hcurr.
  - destruct curr as [k|]; [|done]. destruct (Hcurr k eq_refl) as (i & _ & Hi). lia.
  - simpl. destruct curr as [k|]; [|done]. simpl. case_bool_decide; [done|].
    apply IH. intros p Hp. destruct (Hcurr k eq_refl) as (i & Hi & Hlt).
    destruct (Hnext k p Hp) as (j & Hj & Hji). exists j. split; [done|].
    specialize (Hji i Hi). lia.
Qed.

Lemma walkBack_from closed next c path :
  leadsBack closed next →
  finished (walkBack (length closed + 1) next (Some c) path) (fun _ => True).
Proof.
  intros Hnext. replace (length closed + 1) with (S (length closed)) by lia.
  simpl. case_bool_decide; [done|].
  apply (walkBack_closed closed); [done|]. intros p Hp.
  destruct (Hnext c p Hp) as (j & Hj & _). exists j. split; [done|].
  by apply lookup_lt_Some in Hj.
Qed.

(** Closing one more id keeps the parents leading back. *)
Lemma leadsBack_close closed next c :
  c ∉ closed → leadsBack closed next → leadsBack (Js.setAdd c closed) next.
Proof.
  intros Hc Hnext k p Hp. destruct (Hnext k p Hp) as (j & Hj & Hji).
  unfold Js.setAdd. rewrite bool_decide_eq_false_2 by done.
  exists j. split; [by apply lookup_app_l_Some|].
  intros i Hi. apply lookup_app_Some in Hi as [Hi|[Hlen Hi]]; [by apply Hji|].
  apply lookup_lt_Some in Hj. lia.
Qed.

(** An open id may take the id closed last as its parent. *)
Lemma leadsBack_set closed (next : string → option string) n c next' :
  n ∉ closed → last closed = Some c → leadsBack closed next →
  (∀ k, next' k = if decide (k = n) then Some c else next k) →
  leadsBack closed next'.
Proof.
  intros Hn Hc Hnext Hnext' k p. rewrite Hnext'. case_decide as Hk.
  - intros [= <-]. subst k. rewrite last_lookup in Hc. eexists. split; [done|].
    intros i Hi. exfalso. apply Hn. by eapply list_elem_of_lookup_2.
  - apply Hnext.
Qed.

Lemma last_setAdd c closed : c ∉ closed → last (Js.setAdd c closed) = Some c.
Proof. intros H. unfold Js.setAdd. rewrite bool_decide_eq_false_2 by done. apply last_snoc. Qed.

Lemma length_sortBy {A} (cmp : A → A → comparison) l : length (Js.sortBy cmp l) = length l.
Proof. apply Permutation_length, sortBy_Permutation. Qed.

Section dijkstra_finishes.
Context (graph : Graph).
Let adj := toAdjacencyList graph.
Import dijkstra.

Definition parentsLeadBack (l : Locals) : Prop :=
  leadsBack (visited l) (fun k => mjoin (parent l !! k)).

Definition dijkstraMeasure (l : Locals) : nat :=
  length (pq l) + unvisitedEnds graph (visited l).

Lemma dijkstra_relax_inv c st nb :
  last (visited (loc st)) = Some c → parentsLeadBack (loc st) →
  visited (loc (relax graph c st nb)) = visited (loc st) ∧
  parentsLeadBack (loc (relax graph c st nb)) ∧
  length (pq (loc (relax graph c st nb))) ≤ S (length (pq (loc st))).
Proof.
  intros Hc Hinv. unfold relax. destruct nb as [n w].
  destruct (Js.setHas n (visited (loc st))) eqn:Hn; [split; [done|split; [done|lia]]|].
  apply setHas_false in Hn. cbv zeta. loc_simpl.
  destruct (Js.lt _ _); loc_simpl.
  - assert (∀ X : St Locals, loc X = loc X) as _ by done.
    match goal with |- context [if ?b then _ else _] => destruct b end; loc_simpl.
    all: split; [done|split].
    all: try (unfold PriorityQueue.enqueue; rewrite length_sortBy, length_app; simpl; lia).
    all: unfold parentsLeadBack; simpl;
      apply (leadsBack_set _ (fun k => mjoin (parent (loc st) !! k)) n c); try done;
      intros k; destruct (decide (k = n)) as [->|Hne];
      [by rewrite lookup_insert_eq|by rewrite lookup_insert_ne].
  - split; [done|split; [done|lia]].
Qed.

Lemma dijkstra_relax_all_inv c nbs st :
  last (visited (loc st)) = Some c → parentsLeadBack (loc st) →
  visited (loc (foldl (relax graph c) st nbs)) = visited (loc st) ∧
  parentsLeadBack (loc (foldl (relax graph c) st nbs)) ∧
  length (pq (loc (foldl (relax graph c) st nbs))) ≤ length (pq (loc st)) + length nbs.
Proof.
  revert st. induction nbs as [|nb nbs IH]; intros st Hc Hinv; simpl.
  - split; [done|split; [done|lia]].
  - destruct (dijkstra_relax_inv c st nb Hc Hinv) as (H1 & H2 & H3).
    destruct (IH (relax graph c st nb)) as (H4 & H5 & H6); [by rewrite H1|done|].
    split; [congruence|split; [done|lia]].
Qed.

Lemma dijkstra_reached_finishes c d st :
  parentsLeadBack (loc st) → finished (reached graph c d st) (fun _ => True).
Proof.
  intros Hinv. unfold reached. cbv zeta. loc_simpl.
  eapply finished_bind; [by apply walkBack_from|]. done.
Qed.

Lemma dijkstra_while_finishes fuel e st :
  parentsLeadBack (loc st) → dijkstraMeasure (loc st) < fuel →
  finished (while fuel graph adj e st) (fun _ => True).
Proof.
  revert st. induction fuel as [|fuel IH]; intros st Hinv Hm; [lia|]. simpl.
  destruct (pq (loc st)) as [|[d c] rest] eqn:Hpq; [done|]. loc_simpl.
  unfold dijkstraMeasure in Hm. rewrite Hpq in Hm. simpl in Hm.
  destruct (Js.gt d _).
  { apply IH; [done|]. unfold dijkstraMeasure. loc_simpl. lia. }
  destruct (Js.setHas c (visited (loc st))) eqn:Hc.
  { apply IH; [done|]. unfold dijkstraMeasure. loc_simpl. lia. }
  apply setHas_false in Hc.
  assert (parentsLeadBack (mkLocals (dist (loc st)) (parent (loc st))
            (Js.setAdd c (visited (loc st))) rest)) as Hinv1.
  { unfold parentsLeadBack. simpl. by apply leadsBack_close. }
  destruct (isTarget e c).
  { eapply finished_bind; [by apply dijkstra_reached_finishes|]. done. }
  match goal with |- context [foldl (relax graph c) ?st0 ?nbs] =>
    destruct (dijkstra_relax_all_inv c nbs st0) as (H1 & H2 & H3)
  end.
  { loc_simpl. by apply last_setAdd. }
  { by loc_simpl. }
  apply IH.
  - by loc_simpl.
  - unfold dijkstraMeasure. loc_simpl. rewrite H1. revert H3. loc_simpl. intros H3.
    pose proof (unvisitedEnds_add graph _ c Hc).
    pose proof (degree_le_occurrences graph c). unfold adj in *. lia.
Qed.

Lemma executeDijkstra_finishes params : executeDijkstra graph params ≠ OutOfFuel.
Proof.
  unfold executeDijkstra. destruct (Js.truthyStr _) as [s|]; [|done].
  destruct (getNode graph s); [|done].
  apply (finished_not_OutOfFuel _ (fun _ => True)).
  eapply finished_bind.
  - apply dijkstra_while_finishes.
    + unfold start. cbv zeta. loc_simpl. intros k p Hp. exfalso. simpl in Hp.
      assert (∀ ns (m : gmap string (option string)),
                (∀ k, mjoin (m !! k) = None) →
                ∀ k, mjoin (foldl (fun m n => <[node_id n := None]> m) m ns !! k) = None) as H.
      { induction ns as [|n' ns IH]; intros m Hm k'; simpl; [done|]. apply IH.
        intros k''. destruct (decide (node_id n' = k'')) as [->|].
        - by rewrite lookup_insert_eq.
        - by rewrite lookup_insert_ne. }
      rewrite H in Hp; [done|]. intros k'. by rewrite lookup_empty.
    + unfold start, dijkstraMeasure, fuelFor. cbv zeta. loc_simpl.
      pose proof (unvisitedEnds_le graph []). lia.
  - intros [[] st] _; done.
Qed.
End dijkstra_finishes.

Lemma PriorityQueue_enqueue_values value priority (items : PriorityQueue.t) :
  (PriorityQueue.enqueue value priority items).*2 ≡ₚ value :: items.*2.
Proof.
  unfold PriorityQueue.enqueue. rewrite sortBy_Permutation, fmap_app. simpl.
  by rewrite Permutation_app_comm.
Qed.

Section astar_finishes.
Context (graph : Graph) (universe : list string).
Context (Huniverse : ∀ v n, n ∈ (neighborsOf (toAdjacencyList graph) v).*1 → n ∈ universe).
Let adj := toAdjacencyList graph.
Import astar.

(** The open ids are distinct, not closed, and known; the entries of
    [cameFrom] lead back into the closed set. *)
Definition astarInv (l : Locals) : Prop :=
  NoDup (openSet l).*2 ∧
  (∀ v, v ∈ (openSet l).*2 → (v ∉ closedSet l) ∧ v ∈ universe) ∧
  leadsBack (closedSet l) (fun k => cameFrom l !! k).

Lemma astar_examine_finishes endNode hr c st nb :
  nb.1 ∈ universe → last (closedSet (loc st)) = Some c → astarInv (loc st) →
  finished (examine graph endNode hr c st nb)
    (fun st' => astarInv (loc st') ∧ closedSet (loc st') = closedSet (loc st)).
Proof.
  intros Hnb Hc (Hnd & Hopen & Hback). unfold examine. destruct nb as [n w]. simpl in Hnb.
  destruct (Js.setHas n (closedSet (loc st))) eqn:Hn; [done|].
  apply setHas_false in Hn.
  destruct (getNode graph n); [|done]. cbv zeta. loc_simpl.
  destruct (Js.lt _ _); simpl; loc_simpl; [|done].
  assert (leadsBack (closedSet (loc st)) (fun k => <[n := c]> (cameFrom (loc st)) !! k)) as Hback'.
  { apply (leadsBack_set _ (fun k => cameFrom (loc st) !! k) n c); try done.
    intros k. destruct (decide (k = n)) as [->|Hne];
      [by rewrite lookup_insert_eq|by rewrite lookup_insert_ne]. }
  unfold PriorityQueue.has. case_bool_decide as Hin; simpl; loc_simpl.
  - done.
  - split; [|done]. split; [|split; [|done]]; simpl.
    + rewrite PriorityQueue_enqueue_values. by constructor.
    + intros v. rewrite PriorityQueue_enqueue_values. intros Hv.
      apply elem_of_cons in Hv as [->|Hv]; [done|by apply Hopen].
Qed.

Lemma astar_reached_finishes e c st :
  astarInv (loc st) → finished (reached graph e c st) (fun _ => True).
Proof.
  intros (_ & _ & Hback). unfold reached.
  eapply finished_bind; [by apply walkBack_from|]. done.
Qed.

Lemma astar_while_finishes fuel endNode hr e st :
  astarInv (loc st) → unvisitedOf universe (closedSet (loc st)) < fuel →
  finished (while fuel graph adj endNode hr e st) (fun _ => True).
Proof.
  revert st. induction fuel as [|fuel IH]; intros st Hinv Hm; [lia|]. simpl.
  destruct (openSet (loc st)) as [|[p c] rest] eqn:Hopen; [done|].
  destruct Hinv as (Hnd & Hmem & Hback). rewrite Hopen in Hnd, Hmem. simpl in Hnd, Hmem.
  apply NoDup_cons in Hnd as [Hc Hnd].
  destruct (Hmem c) as [Hclosed Hcu]; [by left|].
  destruct (getNode graph c); [|done]. loc_simpl.
  case_bool_decide.
  { eapply finished_bind; [|done]. apply astar_reached_finishes. loc_simpl.
    split; [done|]. split; [|done]. intros v Hv. apply Hmem. by right. }
  eapply finished_bind.
  - apply (finished_forEach _
      (fun st' => astarInv (loc st') ∧ closedSet (loc st') = Js.setAdd c (closedSet (loc st)))).
    + loc_simpl. split; [|done]. split; [done|]. split.
      * intros v Hv. simpl in Hv. destruct (Hmem v) as [H1 H2]; [by right|].
        split; [|done]. simpl. rewrite elem_of_setAdd. intros [->|]; done.
      * simpl. by apply leadsBack_close.
    + intros st1 nb Hnb [Hinv1 Hcl1]. eapply finished_mono.
      * apply astar_examine_finishes; [|rewrite Hcl1; by apply last_setAdd|done].
        apply (Huniverse c). by apply list_elem_of_fmap_2.
      * intros st2 [H1 H2]. split; [done|]. congruence.
  - intros st1 [Hinv1 Hcl1]. apply IH; [done|]. rewrite Hcl1.
    pose proof (unvisitedOf_add universe _ c Hcu Hclosed). lia.
Qed.
End astar_finishes.

Lemma executeAStar_finishes graph params : astar.executeAStar graph params ≠ OutOfFuel.
Proof.
  unfold astar.executeAStar. cbv zeta.
  destruct (Js.truthyStr (startNodeId params)) as [s|]; [|done].
  destruct (Js.truthyStr (endNodeId params)) as [e|]; [|done].
  destruct (getNode graph s); [|done]. destruct (getNode graph e); [|done].
  apply (finished_not_OutOfFuel _ (fun _ => True)).
  eapply finished_bind.
  - apply (astar_while_finishes graph (s :: endsOf (edges graph))).
    + intros v m Hm. right. by eapply neighbors_are_ends.
    + loc_simpl. split; [|split].
      * cbn [astar.openSet]. rewrite PriorityQueue_enqueue_values. apply NoDup_singleton.
      * intros v. cbn [astar.openSet astar.closedSet].
        rewrite PriorityQueue_enqueue_values. intros Hv.
        apply list_elem_of_singleton in Hv as ->. split; [apply not_elem_of_nil|by left].
      * intros k p Hp. cbn [astar.cameFrom] in Hp. by rewrite lookup_empty in Hp.
    + loc_simpl. unfold unvisitedOf, astar.fuelFor.
      eapply Nat.le_lt_trans; [apply length_filter|]. simpl. rewrite length_endsOf. lia.
  - by intros [[] st] _.
Qed.

(** [find] follows parents whose potential grows strictly, up to [bound]. *)
Definition ufOk (potential : UnionFind.key → nat) (bound : nat) (uf : UnionFind.t) : Prop :=
  (∀ k, potential k ≤ bound) ∧
  (∀ k, UnionFind.parentOf uf k ≠ k → potential k < potential (UnionFind.parentOf uf k)) ∧
  (∀ k, UnionFind.parentOf uf k = k → potential k = UnionFind.rankOf uf k + 1).

Lemma parentOf_insert uf x r k rk :
  UnionFind.parentOf (UnionFind.mk (<[x := r]> (UnionFind.parent uf)) rk) k =
  if decide (k = x) then r else UnionFind.parentOf uf k.
Proof.
  unfold UnionFind.parentOf. simpl. case_decide as Hk.
  - subst. by rewrite lookup_insert_eq.
  - by rewrite lookup_insert_ne.
Qed.

Lemma rankOf_insert uf x r k p :
  UnionFind.rankOf (UnionFind.mk p (<[x := r]> (UnionFind.rank uf))) k =
  if decide (k = x) then r else UnionFind.rankOf uf k.
Proof.
  unfold UnionFind.rankOf. simpl. case_decide as Hk.
  - subst. by rewrite lookup_insert_eq.
  - by rewrite lookup_insert_ne.
Qed.

Lemma UnionFind_new_roots ns k :
  (UnionFind.parent (UnionFind.new ns) !! k = None ∨
   UnionFind.parent (UnionFind.new ns) !! k = Some k) ∧
  UnionFind.rankOf (UnionFind.new ns) k = 0.
Proof.
  unfold UnionFind.new. induction ns as [|n ns IH] using rev_ind; [by split; [left|]|].
  rewrite foldl_snoc. destruct IH as [IHp IHr]. unfold UnionFind.rankOf in *. simpl.
  destruct (decide (k = Some n)) as [->|Hk].
  - rewrite !lookup_insert_eq. by split; [right|].
  - by rewrite !lookup_insert_ne.
Qed.

Lemma UnionFind_new_ok ns :
  ufOk (fun k => if decide (UnionFind.parentOf (UnionFind.new ns) k = k) then 1 else 0)
       1 (UnionFind.new ns).
Proof.
  assert (UnionFind.parentOf (UnionFind.new ns) None = None) as Hnone.
  { unfold UnionFind.parentOf. by destruct (UnionFind_new_roots ns None) as [[->| ->] _]. }
  split; [|split].
  - intros k. case_decide; lia.
  - intros k Hk. rewrite decide_False by done.
    assert (UnionFind.parentOf (UnionFind.new ns) k = None) as ->.
    { unfold UnionFind.parentOf in *.
      destruct (UnionFind_new_roots ns k) as [[E|E] _]; rewrite E in *; done. }
    rewrite decide_True by done. lia.
  - intros k Hk. rewrite decide_True by done.
    by destruct (UnionFind_new_roots ns k) as [_ ->].
Qed.

Lemma ufOk_weaken potential bound bound' uf :
  bound ≤ bound' → ufOk potential bound uf → ufOk potential bound' uf.
Proof.
  intros Hle (H1 & H2 & H3). split; [|done]. intros k. specialize (H1 k). lia.
Qed.

Lemma UnionFind_find_finishes potential bound fuel x uf :
  ufOk potential bound uf → bound - potential x < fuel →
  finished (UnionFind.find fuel x uf)
    (fun '(r, uf') =>
       ufOk potential bound uf' ∧ UnionFind.parentOf uf' r = r ∧
       potential x ≤ potential r ∧
       UnionFind.rank uf' = UnionFind.rank uf ∧
       (∀ k, UnionFind.parentOf uf k = k → UnionFind.parentOf uf' k = k)).
Proof.
  revert x uf. induction fuel as [|fuel IH]; intros x uf Hok Hfuel; [lia|]. simpl.
  case_bool_decide as Hx; [|simpl; rewrite Hx; split; [done|]; split; [done|]; split; [lia|done]].
  pose proof Hok as (Hb & Hup & Hroot).
  pose proof (Hup x Hx) as Hlt. pose proof (Hb (UnionFind.parentOf uf x)) as Hle.
  eapply finished_bind; [apply (IH (UnionFind.parentOf uf x) uf Hok); lia|].
  intros [r uf1] ((Hb1 & Hup1 & Hroot1) & Hr & Hpr & Hrank & Hkeep). simpl.
  assert (r ≠ x) as Hrx by (intros ->; lia).
  rewrite !(parentOf_insert uf1 x r x), !(decide_True (P := x = x)) by done.
  split; [split; [done|split]|split; [|split; [lia|split; [done|]]]].
  - intros k. rewrite parentOf_insert. case_decide as Hk; [subst; lia|apply Hup1].
  - intros k. rewrite parentOf_insert. case_decide as Hk; [subst; intros ->; lia|].
    intros E. rewrite (Hroot1 k E). done.
  - rewrite parentOf_insert. by rewrite decide_False.
  - intros k E. rewrite parentOf_insert. rewrite decide_False by congruence. by apply Hkeep.
Qed.

Lemma UnionFind_union_finishes potential bound fuel x y uf :
  ufOk potential bound uf → bound < fuel →
  finished (UnionFind.union fuel x y uf)
    (fun '(_, uf') => ∃ potential', ufOk potential' (bound + 1) uf').
Proof.
  intros Hok Hfuel. unfold UnionFind.union.
  eapply finished_bind; [apply (UnionFind_find_finishes potential bound); [done|lia]|].
  intros [rootX uf1] (Hok1 & HrX1 & _ & _ & _). simpl.
  eapply finished_bind; [apply (UnionFind_find_finishes potential bound); [done|lia]|].
  intros [rootY uf2] (Hok2 & HrY & _ & _ & Hkeep). simpl.
  pose proof (Hkeep rootX HrX1) as HrX. destruct Hok2 as (Hb & Hup & Hroot).
  pose proof (Hroot rootX HrX) as HpX. pose proof (Hroot rootY HrY) as HpY.
  case_bool_decide as Hxy; simpl.
  { exists potential. apply (ufOk_weaken potential bound); [lia|done]. }
  case_bool_decide as Hlt; simpl; [|case_bool_decide as Hgt; simpl].
  - exists potential. apply (ufOk_weaken potential bound); [lia|]. split; [done|split].
    + intros k. rewrite parentOf_insert. case_decide as Hk; [subst; lia|apply Hup].
    + intros k. rewrite parentOf_insert. case_decide as Hk; [subst; congruence|apply Hroot].
  - exists potential. apply (ufOk_weaken potential bound); [lia|]. split; [done|split].
    + intros k. rewrite parentOf_insert. case_decide as Hk; [subst; lia|apply Hup].
    + intros k. rewrite parentOf_insert. case_decide as Hk; [subst; congruence|apply Hroot].
  - exists (fun k => if decide (k = rootX) then potential k + 1 else potential k).
    split; [|split].
    + intros k. specialize (Hb k). case_decide; lia.
    + intros k. rewrite parentOf_insert. case_decide as Hk.
      * subst k. rewrite decide_False by congruence. rewrite decide_True by done. lia.
      * intros Hnr. rewrite decide_False by congruence.
        specialize (Hup k Hnr). case_decide; lia.
    + intros k. rewrite parentOf_insert, rankOf_insert. case_decide as Hk; [subst; congruence|].
      intros E. specialize (Hroot k E). case_decide; [subst|]; lia.
Qed.

Section kruskal_finishes.
Context (graph : Graph).
Import kruskal.

Lemma kruskal_view_finishes l : finished (view graph l) (fun _ => True).
Proof.
  unfold view, formatMst. apply (finished_bind _ _ (fun _ => True)); [|done].
  apply (finished_bind _ _ (fun _ => True)); [|done].
  apply (finished_forEach _ (fun _ => True)); [done|].
  intros acc id _ _. by destruct (List.find _ _).
Qed.

Definition kruskalInv (remaining : nat) (l : Locals) : Prop :=
  ∃ potential bound,
    ufOk potential bound (uf l) ∧ bound + remaining ≤ length (edges graph) + 1.

Lemma kruskal_consider_finishes remaining st edge :
  kruskalInv (S remaining) (loc st) →
  finished (consider graph st edge) (fun st' => kruskalInv remaining (loc st')).
Proof.
  intros (potential & bound & Hok & Hbound). unfold consider. cbv zeta.
  eapply finished_bind; [apply kruskal_view_finishes|]. intros ds _. loc_simpl.
  eapply finished_bind.
  { apply (UnionFind_union_finishes potential bound); [done|]. unfold fuelFor. lia. }
  intros [joined uf'] (potential' & Hok'). simpl.
  assert (kruskalInv remaining (mkLocals uf' (mstEdges (loc st)) (totalWeight (loc st)))) as Hinv.
  { exists potential', (bound + 1). split; [done|]. lia. }
  destruct joined.
  - eapply finished_bind; [apply kruskal_view_finishes|]. intros ds' _. loc_simpl.
    destruct Hinv as (p & b & H1 & H2). by exists p, b.
  - eapply finished_bind; [apply kruskal_view_finishes|]. intros ds' _. loc_simpl.
    destruct Hinv as (p & b & H1 & H2). by exists p, b.
Qed.

Lemma kruskal_loop_finishes sortedEdges st :
  kruskalInv (length sortedEdges) (loc st) →
  finished (loop graph sortedEdges st) (fun _ => True).
Proof.
  revert st. induction sortedEdges as [|edge rest IH]; intros st Hinv; [done|]. simpl.
  eapply finished_bind; [by apply kruskal_consider_finishes|].
  intros st1 Hinv1. simpl. case_bool_decide; [done|]. by apply IH.
Qed.

Lemma executeKruskal_finishes params : executeKruskal graph params ≠ OutOfFuel.
Proof.
  unfold executeKruskal. cbv zeta.
  apply (finished_not_OutOfFuel _ (fun _ => True)).
  apply (finished_bind _ _ (fun _ => True)); [|done].
  apply kruskal_loop_finishes. loc_simpl. rewrite length_sortBy.
  eexists _, 1. split; [apply UnionFind_new_ok|]. lia.
Qed.
End kruskal_finishes.

(** ** Every executor finishes *)

Lemma execute_finishes (a : Algorithm) graph params : execute a graph params ≠ OutOfFuel.
Proof.
  destruct a; simpl.
  - by destruct (executeBFS_returns graph params) as [steps ->].
  - by destruct (executeDFS_returns graph params) as [steps ->].
  - apply executeDijkstra_finishes.
  - apply executeAStar_finishes.
  - apply executeKruskal_finishes.
  - apply executePrim_finishes.
  - apply executeTopologicalSort_finishes.
  - apply executeCycleDetection_finishes.
  - apply executeConnectedComponents_finishes.
Qed.

Lemma execute_finished (a : Algorithm) graph params :
  finished (execute a graph params) (traceOk graph).
Proof.
  destruct (execute a graph params) as [steps| |] eqn:E; simpl.
  - by eapply execute_ok.
  - done.
  - by apply execute_finishes in E.
Qed.

(** C6. Each of the nine executors finishes on every graph and every
    params, and in the sequence it returns every step has a [nodeStates]
    entry for every node id of the graph and an [edgeStates] entry for every
    edge id of the graph. (A call that throws returns no sequence.) *)
Theorem C6_every_step_has_complete_maps (a : Algorithm) (graph : Graph) (params : AlgorithmParams) :
  finished (execute a graph params) (fun steps => Forall (stepComplete graph) steps).
Proof.
  eapply finished_mono; [apply execute_finished|]. by intros steps [Hcomplete _].
Qed.

Lemma C6_witness :
  ∃ steps, execute Kruskal triangle noParams = Returned steps ∧ steps ≠ [] ∧
           Forall (stepComplete triangle) steps.
Proof.
  pose proof (C6_every_step_has_complete_maps Kruskal triangle noParams) as H.
  destruct (execute Kruskal triangle noParams) as [steps| |] eqn:E; [|by vm_compute in E..].
  exists steps. split; [done|]. split; [|done].
  vm_compute in E. by injection E as <-.
Defined.

(** C7. Each of the nine executors finishes on every input, and in the
    sequence it returns each of the four counters [nodesVisited],
    [edgesExamined], [operationsCount] and [comparisons] is at least as large
    in a step as in the step before it. *)
Theorem C7_metrics_never_decrease (a : Algorithm) (graph : Graph) (params : AlgorithmParams) :
  finished (execute a graph params) monotone.
Proof.
  eapply finished_mono; [apply execute_finished|]. by intros steps [_ Hmonotone].
Qed.

Lemma C7_witness :
  ∃ steps, execute BFS triangle (from "A") = Returned steps ∧ steps ≠ [] ∧
           monotone steps.
Proof.
  pose proof (C7_metrics_never_decrease BFS triangle (from "A")) as H.
  destruct (execute BFS triangle (from "A")) as [steps| |] eqn:E; [|by vm_compute in E..].
  exists steps. split; [done|]. split; [|done].
  vm_compute in E. by injection E as <-.
Defined.

(** * Further properties of the helpers, the stores and the executors *)

(** The call returned. *)
Definition returns {A} (o : Outcome A) : bool :=
  match o with Returned _ => true | _ => false end.

Lemma returns_Returned {A} (o : Outcome A) : returns o = true → ∃ a, o = Returned a.
Proof. destruct o; [eauto|done..]. Qed.



(** [matrix[i][j]] *)
Definition cell (matrix : list (list float)) (i j : nat) : option float :=
  matrix !! i ≫= fun row => row !! j.

(** The edge joins [a] to [b], in the direction of the graph. *)
Definition joins (graph : Graph) (a b : string) (e : Edge) : Prop :=
  (source e = a ∧ target e = b) ∨ (directed graph = false ∧ source e = b ∧ target e = a).

(** ** graphUtils.ts: the adjacency list, the neighbours, the edges between *)

Lemma adjPush_is_Some k entry (m : AdjList) v : is_Some (adjPush k entry m !! v) ↔ is_Some (m !! v).
Proof.
  unfold adjPush. destruct (m !! k) as [l|] eqn:E; [|done].
  destruct (decide (k = v)) as [->|Hne].
  - rewrite lookup_insert_eq, E. split; eauto.
  - by rewrite lookup_insert_ne.
Qed.

Lemma adjPush_None k entry (m : AdjList) : m !! k = None → adjPush k entry m = m.
Proof. intros E. unfold adjPush. by rewrite E. Qed.

Lemma neighborsOf_adjPush_at k entry (m : AdjList) v :
  is_Some (m !! k) →
  neighborsOf (adjPush k entry m) v =
    if decide (k = v) then neighborsOf m v ++ [entry] else neighborsOf m v.
Proof.
  intros [l E]. unfold adjPush, neighborsOf. rewrite E. case_decide as Hk.
  - subst. by rewrite lookup_insert_eq, E.
  - by rewrite lookup_insert_ne.
Qed.

Lemma initial_lists_is_Some (ns : list Node) (m : AdjList) v :
  is_Some (foldl (fun m node => <[node_id node := []]> m) m ns !! v) ↔
  is_Some (m !! v) ∨ v ∈ node_id <$> ns.
Proof.
  revert m. induction ns as [|n ns IH]; intros m; simpl.
  - rewrite elem_of_nil. tauto.
  - rewrite IH, elem_of_cons. destruct (decide (node_id n = v)) as [->|Hne].
    + rewrite lookup_insert_eq. split; [|eauto]. intros _. right. by left.
    + rewrite lookup_insert_ne by done. split; [tauto|]. intros [?|[?|?]]; auto. congruence.
Qed.

Section adjacency_keys.
Context (graph : Graph).

Let adjOver (es : list Edge) : AdjList :=
  foldl (adjStep graph) (foldl (fun m node => <[node_id node := []]> m) ∅ (nodes graph)) es.

Let neighborsOver (es : list Edge) (nodeId : string) : list string :=
  foldl (fun neighbors edge =>
           let neighbors := if bool_decide (source edge = nodeId)
                            then neighbors ++ [target edge] else neighbors in
           if negb (directed graph) && bool_decide (target edge = nodeId)
           then neighbors ++ [source edge] else neighbors)
        [] es.

Lemma adjOver_is_Some es v : is_Some (adjOver es !! v) ↔ v ∈ node_id <$> nodes graph.
Proof.
  induction es as [|e es IH] using rev_ind.
  - unfold adjOver. simpl. rewrite initial_lists_is_Some, lookup_empty.
    split; [intros [[? [=]]|?]; done|by right].
  - unfold adjOver in *. rewrite foldl_snoc. unfold adjStep at 1. cbv zeta.
    destruct (directed graph); rewrite ?adjPush_is_Some; done.
Qed.

Lemma adjOver_neighbors es v :
  (neighborsOf (adjOver es) v).*1 =
    if decide (v ∈ node_id <$> nodes graph) then neighborsOver es v else [].
Proof.
  case_decide as Hv.
  - induction es as [|e es IH] using rev_ind.
    + unfold adjOver. simpl. by rewrite neighborsOf_empty_lists.
    + unfold adjOver, neighborsOver in *. rewrite !foldl_snoc. unfold adjStep at 1. cbv zeta.
      set (m := foldl (adjStep graph) _ es) in *.
      assert (∀ k, is_Some (m !! k) ↔ k ∈ node_id <$> nodes graph) as Hdom
        by (intros k; apply (adjOver_is_Some es)).
      destruct (decide (source e ∈ node_id <$> nodes graph)) as [Hs|Hs].
      * assert (is_Some (m !! source e)) as Hs' by (by apply Hdom).
        destruct (directed graph); simpl.
        -- rewrite neighborsOf_adjPush_at by done.
           case_decide; case_bool_decide; try done. by rewrite fmap_app, IH.
        -- destruct (decide (target e ∈ node_id <$> nodes graph)) as [Ht|Ht].
           ++ rewrite !neighborsOf_adjPush_at by (rewrite ?adjPush_is_Some; by apply Hdom).
              repeat (case_decide || case_bool_decide); try done;
                rewrite ?fmap_app, IH; simpl; by rewrite <- ?app_assoc.
           ++ assert (adjPush (source e) (target e, weight e) m !! target e = None) as Hn.
              { apply eq_None_not_Some. rewrite adjPush_is_Some. by rewrite Hdom. }
              rewrite (adjPush_None (target e)) by done. rewrite neighborsOf_adjPush_at by done.
              assert (target e ≠ v) by congruence.
              repeat (case_decide || case_bool_decide); try done. by rewrite fmap_app, IH.
      * assert (m !! source e = None) as Hn.
        { apply eq_None_not_Some. by rewrite Hdom. }
        assert (source e ≠ v) by congruence.
        rewrite (adjPush_None (source e)) by done.
        destruct (directed graph); simpl.
        -- by rewrite bool_decide_eq_false_2.
        -- rewrite (bool_decide_eq_false_2 (source e = v)) by done.
           destruct (decide (target e ∈ node_id <$> nodes graph)) as [Ht|Ht].
           ++ rewrite neighborsOf_adjPush_at by (by apply Hdom).
              repeat (case_decide || case_bool_decide); try done. by rewrite fmap_app, IH.
           ++ assert (m !! target e = None) as Hn'.
              { apply eq_None_not_Some. by rewrite Hdom. }
              assert (target e ≠ v) by congruence.
              rewrite (adjPush_None (target e)) by done. by rewrite bool_decide_eq_false_2.
  - assert (adjOver es !! v = None) as Hn.
    { apply eq_None_not_Some. by rewrite adjOver_is_Some. }
    unfold neighborsOf. by rewrite Hn.
Qed.
End adjacency_keys.

(** X1. The adjacency list has an entry for the ids of the nodes and for
    nothing else; the neighbours that [toAdjacencyList] lists for the id of a
    node are, in the same order, those that [getNeighbors] returns; for an id
    that is not a node [getNeighbors] still returns the other ends of its
    edges, while the adjacency list has no entry (the executors read []). *)
Theorem getNeighbors_toAdjacencyList graph nodeId :
  (is_Some (toAdjacencyList graph !! nodeId) ↔ nodeId ∈ node_id <$> nodes graph) ∧
  (neighborsOf (toAdjacencyList graph) nodeId).*1 =
    if decide (nodeId ∈ node_id <$> nodes graph) then getNeighbors graph nodeId else [].
Proof.
  split.
  - apply (adjOver_is_Some graph (edges graph)).
  - apply (adjOver_neighbors graph (edges graph)).
Qed.

Lemma find_ext {A} (f g : A → bool) (l : list A) :
  (∀ a, f a = g a) → List.find f l = List.find g l.
Proof. intros H. induction l as [|a l IH]; simpl; [done|]. by rewrite H, IH. Qed.

Lemma find_Some_elem_of {A} (f : A → bool) (l : list A) a :
  List.find f l = Some a → a ∈ l ∧ f a = true.
Proof.
  induction l as [|b l IH]; simpl; [done|]. destruct (f b) eqn:E.
  - intros [= ->]. split; [by left|done].
  - intros H. destruct (IH H). split; [by right|done].
Qed.

Lemma find_None_elem_of {A} (f : A → bool) (l : list A) :
  List.find f l = None ↔ ∀ a, a ∈ l → f a = false.
Proof.
  induction l as [|b l IH]; simpl.
  - split; [|done]. intros _ a Ha. by apply elem_of_nil in Ha.
  - destruct (f b) eqn:E.
    + split; [done|]. intros H. rewrite (H b) in E; [done|by left].
    + rewrite IH. split.
      * intros H a Ha. apply elem_of_cons in Ha as [->|Ha]; auto.
      * intros H a Ha. apply H. by right.
Qed.

Lemma getEdgeBetween_joins graph a b e :
  (if directed graph then
     bool_decide (source e = a) && bool_decide (target e = b)
   else
     (bool_decide (source e = a) && bool_decide (target e = b))
     || (bool_decide (source e = b) && bool_decide (target e = a))) = true ↔ joins graph a b e.
Proof.
  unfold joins. destruct (directed graph);
    rewrite ?orb_true_iff, !andb_true_iff, !bool_decide_eq_true; intuition congruence.
Qed.

(** X2. [getEdgeBetween] returns the first edge of [graph.edges] that joins
    the two ids (in an undirected graph in either direction), and nothing
    when there is none; in an undirected graph the two orders of the ids
    give the same edge; [hasEdge] tells whether some edge joins them. *)
Theorem getEdgeBetween_first_joining graph a b :
  match getEdgeBetween graph a b with
  | Some e => ∃ before after, edges graph = before ++ e :: after ∧ joins graph a b e ∧
                              ∀ e', e' ∈ before → ¬ joins graph a b e'
  | None => ∀ e, e ∈ edges graph → ¬ joins graph a b e
  end ∧
  (directed graph = false → getEdgeBetween graph b a = getEdgeBetween graph a b) ∧
  (hasEdge graph a b = true ↔ ∃ e, e ∈ edges graph ∧ joins graph a b e).
Proof.
  split; [|split].
  - unfold getEdgeBetween. induction (edges graph) as [|e es IH]; simpl.
    + intros e He. by apply elem_of_nil in He.
    + match goal with |- context [if ?c then Some e else _] => destruct c eqn:E end.
      * exists [], es. split; [done|]. split; [by apply getEdgeBetween_joins|].
        intros e' He'. by apply elem_of_nil in He'.
      * assert (¬ joins graph a b e) as Hne.
        { rewrite <- getEdgeBetween_joins. by rewrite E. }
        destruct (List.find _ es) as [e0|].
        -- destruct IH as (before & after & -> & Hj & Hb).
           exists (e :: before), after. split; [done|]. split; [done|].
           intros e' He'. apply elem_of_cons in He' as [->|He']; auto.
        -- intros e' He'. apply elem_of_cons in He' as [->|He']; auto.
  - intros Hd. unfold getEdgeBetween. rewrite Hd. apply find_ext. intros e. apply orb_comm.
  - unfold hasEdge. rewrite bool_decide_eq_true. unfold getEdgeBetween. split.
    + destruct (List.find _ _) as [e|] eqn:E; [|done]. intros _.
      apply find_Some_elem_of in E as [He Hj]. exists e. split; [done|].
      by apply getEdgeBetween_joins.
    + intros (e & He & Hj) Hn. rewrite find_None_elem_of in Hn.
      apply getEdgeBetween_joins in Hj. rewrite (Hn e He) in Hj. done.
Qed.

(** ** graphUtils.ts: the adjacency matrix *)

Definition square (n : nat) (m : list (list float)) : Prop :=
  length m = n ∧ ∀ row, row ∈ m → length row = n.

Lemma square_setCell n i j w m : square n m → square n (setCell i j w m).
Proof.
  intros [Hlen Hrows]. unfold setCell. destruct (m !! i) as [row|] eqn:E; [|done].
  split; [by rewrite length_insert|].
  intros row' Hrow'. apply list_elem_of_lookup in Hrow' as [k Hk].
  destruct (decide (k = i)) as [->|Hne].
  - rewrite list_lookup_insert_eq in Hk by (by eapply lookup_lt_Some).
    injection Hk as <-. rewrite length_insert. apply Hrows. by eapply list_elem_of_lookup_2.
  - rewrite list_lookup_insert_ne in Hk by done. apply Hrows. by eapply list_elem_of_lookup_2.
Qed.

Lemma cell_setCell n i j w m a b :
  square n m → i < n → j < n →
  cell (setCell i j w m) a b = if decide (a = i ∧ b = j) then Some w else cell m a b.
Proof.
  intros [Hlen Hrows] Hi Hj. unfold setCell, cell.
  destruct (m !! i) as [row|] eqn:E; [|apply lookup_ge_None in E; lia].
  assert (length row = n) as Hrow by (apply Hrows; by eapply list_elem_of_lookup_2).
  destruct (decide (a = i)) as [->|Ha].
  - rewrite list_lookup_insert_eq by lia. simpl. rewrite E. simpl.
    destruct (decide (b = j)) as [->|Hb].
    + rewrite list_lookup_insert_eq by lia. by rewrite decide_True.
    + rewrite list_lookup_insert_ne by done. rewrite decide_False by tauto. done.
  - rewrite list_lookup_insert_ne by done. rewrite decide_False by tauto. done.
Qed.

Lemma indexOf_lt id ids i : indexOf id ids = Some i → i < length ids.
Proof.
  revert i. induction ids as [|id' ids IH]; intros i; simpl; [done|].
  case_bool_decide; [intros [= <-]; lia|].
  destruct (indexOf id ids) as [k|]; simpl; [|done]. intros [= <-]. specialize (IH k eq_refl). lia.
Qed.

Lemma cell_replicate n v a b :
  cell (replicate n (replicate n v)) a b = if decide (a < n ∧ b < n) then Some v else None.
Proof.
  unfold cell. destruct (decide (a < n)) as [Ha|Ha].
  - rewrite lookup_replicate_2 by done. simpl. destruct (decide (b < n)) as [Hb|Hb].
    + rewrite lookup_replicate_2 by done. by rewrite decide_True.
    + assert (replicate n v !! b = None) as -> by (apply lookup_replicate_None; lia).
      rewrite decide_False by tauto. done.
  - assert (replicate n (replicate n v) !! a = None) as -> by (apply lookup_replicate_None; lia).
    rewrite decide_False by tauto. done.
Qed.

Definition symmetric (m : list (list float)) : Prop := ∀ a b, cell m a b = cell m b a.

(** X3. [toAdjacencyMatrix] returns a square matrix with one row and one
    column for each node, in the order of [graph.nodes]; for an undirected
    graph the matrix is symmetric. *)
Theorem toAdjacencyMatrix_square_symmetric graph :
  nodeIds (toAdjacencyMatrix graph) = node_id <$> nodes graph ∧
  square (length (nodes graph)) (matrix (toAdjacencyMatrix graph)) ∧
  (directed graph = false → symmetric (matrix (toAdjacencyMatrix graph))).
Proof.
  split; [done|]. unfold toAdjacencyMatrix. cbv zeta. simpl.
  rewrite length_fmap. set (n := length (nodes graph)).
  set (ids := node_id <$> nodes graph).
  assert (length ids = n) as Hids by apply length_fmap.
  assert (square n (replicate n (replicate n infinity)) ∧
          symmetric (replicate n (replicate n infinity))) as Hinit.
  { split.
    - split; [apply length_replicate|]. intros row Hrow.
      apply elem_of_replicate in Hrow as [-> _]. apply length_replicate.
    - intros a b. rewrite !cell_replicate. repeat case_decide; try done; tauto. }
  assert (∀ l m, (∀ i, i ∈ l → i < n) → square n m ∧ symmetric m →
            square n (foldl (fun m i => setCell i i 0%float m) m l) ∧
            symmetric (foldl (fun m i => setCell i i 0%float m) m l)) as Hdiag.
  { induction l as [|i l IH]; intros m Hl [Hsq Hsym]; simpl; [done|].
    assert (i < n) by (apply Hl; by left).
    apply IH; [intros k Hk; apply Hl; by right|].
    split; [by apply square_setCell|].
    intros a b. rewrite !(cell_setCell n) by done.
    repeat case_decide; try done; naive_solver. }
  specialize (Hdiag (seq 0 n) _ (fun i Hi => proj2 (proj1 (elem_of_seq _ _ _) Hi)) Hinit).
  assert (square n (foldl (fun m i => setCell i i 0%float m)
                      (replicate n (replicate n infinity)) (seq 0 n)) ∧
          (directed graph = false →
           symmetric (foldl (fun m i => setCell i i 0%float m)
                        (replicate n (replicate n infinity)) (seq 0 n)))) as Hstart
    by (split; [|intros _]; apply Hdiag).
  revert Hstart. generalize (foldl (fun m i => setCell i i 0%float m)
                               (replicate n (replicate n infinity)) (seq 0 n)).
  induction (edges graph) as [|e es IH]; intros m [Hsq Hsym]; simpl; [done|].
  destruct (indexOf (source e) ids) as [i|] eqn:Ei;
    [destruct (indexOf (target e) ids) as [j|] eqn:Ej|]; try (by apply IH).
  apply indexOf_lt in Ei, Ej. rewrite Hids in Ei, Ej.
  destruct (directed graph) eqn:Hd; simpl.
  - apply IH. split; [by apply square_setCell|done].
  - apply IH. split; [by do 2 apply square_setCell|]. intros _.
    specialize (Hsym eq_refl).
    intros a b. rewrite !(cell_setCell n) by (try done; by apply square_setCell).
    repeat case_decide; try done; naive_solver.
Qed.

(** ** graphUtils.ts: validation and labels *)

Lemma firstNegative_None es :
  firstNegative es = None ↔ ∀ e, e ∈ es → Js.lt (weight e) 0%float = false.
Proof.
  induction es as [|e es IH]; simpl.
  - split; [|done]. intros _ e He. by apply elem_of_nil in He.
  - destruct (Js.lt (weight e) 0%float) eqn:E.
    + split; [done|]. intros H. rewrite (H e) in E; [done|by left].
    + rewrite IH. split.
      * intros H e' He'. apply elem_of_cons in He' as [->|He']; auto.
      * intros H e' He'. apply H. by right.
Qed.

Lemma firstNegative_Some es e :
  firstNegative es = Some e → e ∈ es ∧ Js.lt (weight e) 0%float = true.
Proof.
  induction es as [|e' es IH]; simpl; [done|]. destruct (Js.lt (weight e') 0%float) eqn:E.
  - intros [= ->]. split; [by left|done].
  - intros H. destruct (IH H). split; [by right|done].
Qed.

(** X4. [validateForDijkstra] rejects a graph exactly when the graph is
    weighted and the weight of one of its edges compares below 0; it gives an
    error message exactly when it rejects. An unweighted graph is accepted
    whatever its weights, and a weight that is NaN is never rejected. *)
Theorem validateForDijkstra_rejects graph :
  (valid (validateForDijkstra graph) = false ↔
     weighted graph = true ∧ ∃ e, e ∈ edges graph ∧ PrimFloat.ltb (weight e) 0%float = true) ∧
  (is_Some (error (validateForDijkstra graph)) ↔ valid (validateForDijkstra graph) = false).
Proof.
  unfold validateForDijkstra. destruct (weighted graph); simpl.
  - destruct (firstNegative (edges graph)) as [e|] eqn:E; simpl.
    + split; [|split; eauto]. split; [intros _|done]. split; [done|].
      apply firstNegative_Some in E as [He Hlt]. by exists e.
    + split; [|split; [intros [? [=]]|done]]. split; [done|]. intros [_ (e & He & Hlt)].
      rewrite firstNegative_None in E. unfold Js.lt in E. by rewrite (E e He) in Hlt.
  - split; [|split; [intros [? [=]]|done]]. split; [done|]. by intros [[=] _].
Qed.





(** ** index.ts: lookup and applicability *)

(** X6. [getAlgorithm] finds every algorithm of the registry under its own
    id and under no other: the nine ids are distinct. *)
Theorem getAlgorithm_by_id (a : Algorithm) (id : string) :
  getAlgorithm id = Some a ↔ config_id (config a) = id.
Proof.
  split.
  - intros H. apply find_Some_elem_of in H as [_ H]. by apply bool_decide_eq_true in H.
  - intros <-. by destruct a.
Qed.

Lemma executeTopologicalSort_steps graph params steps :
  directed graph = true →
  topological.executeTopologicalSort graph params = Returned steps → steps ≠ [].
Proof.
  intros Hd. unfold topological.executeTopologicalSort. rewrite Hd. simpl.
  intros H. apply bind_Returned in H as (st & _ & H). apply Returned_inj in H as <-.
  unfold topological.finish. case_bool_decide; simpl; by destruct (r_steps (run st)).
Qed.

Lemma executeKruskal_steps graph params steps :
  kruskal.executeKruskal graph params = Returned steps → steps ≠ [].
Proof.
  unfold kruskal.executeKruskal. cbv zeta.
  intros H. apply bind_Returned in H as (st & _ & H). apply Returned_inj in H as <-.
  simpl. by destruct (r_steps (run st)).
Qed.

Lemma executeConnectedComponents_steps graph params steps :
  connectedComponents.executeConnectedComponents graph params = Returned steps → steps ≠ [].
Proof.
  unfold connectedComponents.executeConnectedComponents.
  intros H. apply bind_Returned in H as (st & _ & H). apply Returned_inj in H as <-.
  simpl. by destruct (r_steps (run st)).
Qed.

(** X7. [isAlgorithmValidForGraph] and [validateForTopologicalSort] accept
    the same graphs for the topological sort, the directed ones, and the
    executor returns no step exactly on the graphs they reject. Kruskal and
    the connected components are rejected on a directed graph, but their
    executors do not test the direction: they never return an empty trace. *)
Theorem topological_guard_agrees graph params :
  Validity.valid (isAlgorithmValidForGraph "topological" graph) = directed graph ∧
  valid (validateForTopologicalSort graph) = directed graph ∧
  (execute TopologicalSort graph params = Returned [] ↔ directed graph = false) ∧
  (directed graph = true →
     Validity.valid (isAlgorithmValidForGraph "kruskal" graph) = false ∧
     Validity.valid (isAlgorithmValidForGraph "connectedComponents" graph) = false) ∧
  execute Kruskal graph params ≠ Returned [] ∧
  execute ConnectedComponents graph params ≠ Returned [].
Proof.
  split; [by destruct (directed graph) eqn:E; unfold isAlgorithmValidForGraph; simpl; rewrite E|].
  split; [by destruct (directed graph) eqn:E; unfold validateForTopologicalSort; rewrite E|].
  split; [|split; [|split]].
  - simpl. split.
    + intros H. destruct (directed graph) eqn:E; [|done].
      by apply executeTopologicalSort_steps in H.
    + intros E. unfold topological.executeTopologicalSort. by rewrite E.
  - intros E. unfold isAlgorithmValidForGraph. simpl. by rewrite E.
  - simpl. intros H. by apply executeKruskal_steps in H.
  - simpl. intros H. by apply executeConnectedComponents_steps in H.
Qed.

(** The maps on display are those of the current step, and empty before the
    first step. *)
Definition coherent (s : algorithmStore.State) : Prop :=
  (algorithmStore.currentStepIndex s = (-1)%Z ∧
   algorithmStore.nodeStates s = ∅ ∧ algorithmStore.edgeStates s = ∅) ∨
  (∃ step, (0 ≤ algorithmStore.currentStepIndex s)%Z ∧
           algorithmStore.steps s !! Z.to_nat (algorithmStore.currentStepIndex s) = Some step ∧
           algorithmStore.nodeStates s = nodeStates step ∧
           algorithmStore.edgeStates s = edgeStates step).

(** The actions that move the player or change the parameters, and leave
    the trace alone. *)
Definition playback (a : algorithmStore.Action) : Prop :=
  match a with
  | algorithmStore.SelectAlgorithm _ | algorithmStore.RunAlgorithm _
  | algorithmStore.ResetExecution => False
  | _ => True
  end.

(** In the comparison, the maps on display are those of the steps at the
    two indices, which stay between -1 and the last index (0 when there is no
    step). *)
Definition comparing (s : comparisonStore.State) : Prop :=
  comparisonStore.nodeStates1 s = comparisonStore.nodesAt (comparisonStore.steps1 s) (comparisonStore.currentStep1 s) ∧
  comparisonStore.edgeStates1 s = comparisonStore.edgesAt (comparisonStore.steps1 s) (comparisonStore.currentStep1 s) ∧
  comparisonStore.nodeStates2 s = comparisonStore.nodesAt (comparisonStore.steps2 s) (comparisonStore.currentStep2 s) ∧
  comparisonStore.edgeStates2 s = comparisonStore.edgesAt (comparisonStore.steps2 s) (comparisonStore.currentStep2 s) ∧
  (-1 ≤ comparisonStore.currentStep1 s ≤ Z.max 0 (Z.of_nat (length (comparisonStore.steps1 s)) - 1))%Z ∧
  (-1 ≤ comparisonStore.currentStep2 s ≤ Z.max 0 (Z.of_nat (length (comparisonStore.steps2 s)) - 1))%Z.

(** A session of the player: BFS on the triangle from A, one step forward. *)
Definition playedBfs : algorithmStore.State :=
  foldl algorithmStore.after algorithmStore.initial
    [algorithmStore.SelectAlgorithm (Some "bfs");
     algorithmStore.SetAlgorithmParams (algorithmStore.mkPartial (Some (Some "A")) None None);
     algorithmStore.RunAlgorithm triangle;
     algorithmStore.StepForward].

(** ** algorithmStore.ts: the player *)

Section algorithm_store.
Import algorithmStore.

Lemma coherent_range s :
  coherent s → (-1 ≤ currentStepIndex s < Z.of_nat (length (steps s)))%Z.
Proof.
  intros [(-> & _)|(step & H0 & Hs & _)]; [lia|]. apply lookup_lt_Some in Hs. lia.
Qed.

Lemma coherent_applyStep i s : coherent s → coherent (applyStep i s).
Proof.
  intros H. unfold applyStep.
  destruct (bool_decide (0 ≤ i)%Z && _) eqn:E; [|done].
  apply andb_true_iff in E as [E1 E2]. apply bool_decide_eq_true in E1.
  destruct (steps s !! Z.to_nat i) as [step|] eqn:Es; [|done].
  right. exists step. done.
Qed.

Lemma coherent_dispatch a s s' : coherent s → dispatch a s = Returned s' → coherent s'.
Proof.
  intros H. destruct a; simpl; intros E; try (apply Returned_inj in E as <-).
  - by left.
  - done.
  - unfold runAlgorithm in E. destruct (Js.truthyStr _); [|by apply Returned_inj in E as <-].
    destruct (List.find _ _); [|by apply Returned_inj in E as <-].
    apply bind_Returned in E as (st & _ & E). apply Returned_inj in E as <-. by left.
  - by left.
  - done.
  - done.
  - unfold stepForward. case_bool_decide; [by apply coherent_applyStep|done].
  - unfold stepBackward. case_bool_decide; [by apply coherent_applyStep|].
    case_bool_decide; [by left|done].
  - by left.
  - unfold jumpToEnd. case_bool_decide; [|done].
    by apply (coherent_applyStep (Z.of_nat (length (steps s)) - 1)) in H.
  - done.
  - by apply coherent_applyStep.
Qed.

Lemma coherent_after s a : coherent s → coherent (after s a).
Proof.
  intros H. unfold after. destruct (dispatch a s) eqn:E; [|done..].
  by eapply coherent_dispatch.
Qed.

Lemma coherent_foldl actions s : coherent s → coherent (foldl after s actions).
Proof. revert s. induction actions as [|a l IH]; intros s H; simpl; [done|]. by apply IH, coherent_after. Qed.
End algorithm_store.

(** X8. Whatever actions the algorithm store has received since it was
    created, its index is -1 or the index of a step of the trace, and the
    maps it displays are empty at -1 and otherwise those of the step at the
    index. *)
Theorem algorithmStore_coherent (actions : list algorithmStore.Action) :
  let s := foldl algorithmStore.after algorithmStore.initial actions in
  coherent s ∧
  (-1 ≤ algorithmStore.currentStepIndex s < Z.of_nat (length (algorithmStore.steps s)))%Z.
Proof.
  assert (coherent (foldl algorithmStore.after algorithmStore.initial actions)) as H
    by (apply coherent_foldl; by left).
  split; [done|by apply coherent_range].
Qed.

(** X9. In a store whose display is coherent, a step forward that is followed
    by a step backward gives the store back, when the index was not the last;
    a step backward followed by a step forward gives it back when a step was
    on display. *)
Theorem algorithmStore_step_round_trip (s : algorithmStore.State) :
  coherent s →
  ((algorithmStore.currentStepIndex s < Z.of_nat (length (algorithmStore.steps s)) - 1)%Z →
   algorithmStore.stepBackward (algorithmStore.stepForward s) = s) ∧
  ((0 ≤ algorithmStore.currentStepIndex s)%Z →
   algorithmStore.stepForward (algorithmStore.stepBackward s) = s).
Proof.
  intros H. pose proof (coherent_range s H) as Hr.
  destruct s as [sel params steps i playing speed ns es]. unfold coherent in H. simpl in *. split.
  - intros Hi. unfold algorithmStore.stepForward. simpl.
    rewrite bool_decide_eq_true_2 by done. unfold algorithmStore.applyStep. simpl.
    rewrite !bool_decide_eq_true_2 by lia. simpl.
    destruct (steps !! Z.to_nat (i + 1)) as [next|] eqn:En;
      [|apply lookup_ge_None in En; lia].
    unfold algorithmStore.stepBackward. simpl.
    destruct H as [(-> & -> & ->)|(step & H0 & Hs & -> & ->)]; simpl in *.
    + done.
    + rewrite bool_decide_eq_true_2 by lia. unfold algorithmStore.applyStep. simpl.
      rewrite !bool_decide_eq_true_2 by lia. simpl.
      replace (i + 1 - 1)%Z with i by lia. by rewrite Hs.
  - intros Hi. destruct H as [(-> & _)|(step & H0 & Hs & -> & ->)]; [lia|]. simpl in *.
    unfold algorithmStore.stepBackward. simpl. case_bool_decide as Hpos.
    + unfold algorithmStore.applyStep. simpl. rewrite !bool_decide_eq_true_2 by lia. simpl.
      destruct (steps !! Z.to_nat (i - 1)) as [prev|] eqn:Ep;
        [|apply lookup_ge_None in Ep; lia].
      unfold algorithmStore.stepForward. simpl. rewrite bool_decide_eq_true_2 by lia.
      unfold algorithmStore.applyStep. simpl. rewrite !bool_decide_eq_true_2 by lia. simpl.
      replace (i - 1 + 1)%Z with i by lia. by rewrite Hs.
    + assert (i = 0%Z) as -> by lia. simpl.
      unfold algorithmStore.stepForward. simpl. rewrite bool_decide_eq_true_2 by lia.
      unfold algorithmStore.applyStep. simpl. rewrite !bool_decide_eq_true_2 by lia.
      destruct steps as [|s0 rest]; [done|]. simpl in *. by injection Hs as ->.
Qed.

Lemma jumpToEnd_applyStep i s :
  algorithmStore.jumpToEnd (algorithmStore.applyStep i s) = algorithmStore.jumpToEnd s.
Proof.
  unfold algorithmStore.applyStep at 1.
  destruct (bool_decide (0 ≤ i)%Z && _); [|done].
  destruct (algorithmStore.steps s !! Z.to_nat i) as [step|] eqn:Es; [|done].
  apply lookup_lt_Some in Es.
  unfold algorithmStore.jumpToEnd, algorithmStore.applyStep. simpl.
  rewrite !bool_decide_eq_true_2 by lia. simpl.
  destruct (algorithmStore.steps s !! _) eqn:E; [done|]. apply lookup_ge_None in E. lia.
Qed.

(** X10. Jumping to the end is stepping forward until the last step and once
    more (the step that finds nothing left pauses the player), when the
    trace has a step; on an empty trace [jumpToEnd] changes nothing, not even
    [isPlaying]. *)
Theorem algorithmStore_jumpToEnd_steps (s : algorithmStore.State) :
  coherent s →
  (algorithmStore.steps s ≠ [] →
   Nat.iter (Z.to_nat (Z.of_nat (length (algorithmStore.steps s)) - algorithmStore.currentStepIndex s))
     algorithmStore.stepForward s = algorithmStore.jumpToEnd s) ∧
  (algorithmStore.steps s = [] → algorithmStore.jumpToEnd s = s).
Proof.
  intros H. split.
  - intros Hne.
    assert (0 < length (algorithmStore.steps s)) as Hlen
      by (destruct (algorithmStore.steps s); [done|simpl; lia]).
    remember (Z.to_nat (Z.of_nat (length (algorithmStore.steps s)) - 1
                        - algorithmStore.currentStepIndex s)) as n eqn:Hn.
    pose proof (coherent_range s H) as Hr.
    replace (Z.to_nat (Z.of_nat (length (algorithmStore.steps s)) - algorithmStore.currentStepIndex s))
      with (S n) by lia.
    clear Hne. revert s H Hlen Hr Hn. induction n as [|n IH]; intros s H Hlen Hr Hn.
    + simpl. unfold algorithmStore.stepForward. rewrite bool_decide_eq_false_2 by lia.
      unfold algorithmStore.jumpToEnd. rewrite bool_decide_eq_true_2 by done.
      f_equal. unfold algorithmStore.applyStep. rewrite !bool_decide_eq_true_2 by lia. simpl.
      assert (algorithmStore.currentStepIndex s = Z.of_nat (length (algorithmStore.steps s)) - 1)%Z
        as Hi by lia.
      destruct H as [(E & _)|(step & H0 & Hs & En & Ee)]; [lia|].
      rewrite <- Hi, Hs. destruct s; simpl in *. by subst.
    + rewrite Nat.iter_succ_r.
      assert (algorithmStore.stepForward s =
              algorithmStore.applyStep (algorithmStore.currentStepIndex s + 1) s) as Hf.
      { unfold algorithmStore.stepForward. by rewrite bool_decide_eq_true_2 by lia. }
      rewrite Hf. rewrite <- (jumpToEnd_applyStep (algorithmStore.currentStepIndex s + 1) s).
      assert (algorithmStore.steps (algorithmStore.applyStep (algorithmStore.currentStepIndex s + 1) s)
              = algorithmStore.steps s) as Hsteps.
      { unfold algorithmStore.applyStep. destruct (_ && _); [|done].
        by destruct (algorithmStore.steps s !! _). }
      assert (algorithmStore.currentStepIndex
                (algorithmStore.applyStep (algorithmStore.currentStepIndex s + 1) s)
              = (algorithmStore.currentStepIndex s + 1)%Z) as Hidx.
      { unfold algorithmStore.applyStep. rewrite !bool_decide_eq_true_2 by lia. simpl.
        destruct (algorithmStore.steps s !! _) eqn:E; [done|]. apply lookup_ge_None in E. lia. }
      apply IH.
      * by apply coherent_applyStep.
      * by rewrite Hsteps.
      * rewrite Hsteps, Hidx. lia.
      * rewrite Hsteps, Hidx. lia.
  - intros E. unfold algorithmStore.jumpToEnd. by rewrite E.
Qed.

Lemma algorithmStore_step_round_trip_witness :
  coherent playedBfs ∧
  algorithmStore.stepBackward (algorithmStore.stepForward playedBfs) = playedBfs ∧
  algorithmStore.stepForward (algorithmStore.stepBackward playedBfs) = playedBfs.
Proof.
  assert (coherent playedBfs) as H by (apply coherent_foldl; left; repeat split; reflexivity).
  split; [exact H|].
  destruct (algorithmStore_step_round_trip playedBfs H) as [H1 H2].
  split; [apply H1|apply H2]; vm_compute; [reflexivity|discriminate].
Defined.

Lemma algorithmStore_jumpToEnd_steps_witness :
  coherent playedBfs ∧ algorithmStore.steps playedBfs ≠ [] ∧
  Nat.iter (Z.to_nat (Z.of_nat (length (algorithmStore.steps playedBfs))
                      - algorithmStore.currentStepIndex playedBfs))
    algorithmStore.stepForward playedBfs = algorithmStore.jumpToEnd playedBfs.
Proof.
  assert (coherent playedBfs) as H by (apply coherent_foldl; left; repeat split; reflexivity).
  split; [exact H|].
  assert (algorithmStore.steps playedBfs ≠ []) as Hne.
  { intros E. apply (f_equal length) in E. vm_compute in E. discriminate E. }
  split; [exact Hne|].
  apply (proj1 (algorithmStore_jumpToEnd_steps playedBfs H)). exact Hne.
Defined.

Section player.
Import algorithmStore.

Lemma playback_keeps_steps a s : playback a → steps (after s a) = steps s.
Proof.
  destruct a; simpl; try done; intros _; unfold after; simpl.
  - unfold stepForward. case_bool_decide; [|done]. unfold applyStep.
    destruct (_ && _); [|done]. by destruct (steps s !! _).
  - unfold stepBackward. case_bool_decide.
    + unfold applyStep. destruct (_ && _); [|done]. by destruct (steps s !! _).
    + by case_bool_decide.
  - unfold jumpToEnd. case_bool_decide; [|done]. unfold applyStep.
    destruct (_ && _); [|done]. by destruct (steps s !! _).
  - unfold applyStep. destruct (_ && _); [|done]. by destruct (steps s !! _).
Qed.

Lemma playback_foldl actions s :
  Forall playback actions → steps (foldl after s actions) = steps s.
Proof.
  revert s. induction actions as [|a l IH]; intros s H; simpl; [done|].
  apply Forall_cons in H as [Ha Hl]. rewrite IH by done. by apply playback_keeps_steps.
Qed.
End player.

(** X11. After [runAlgorithm] on a graph with a registered algorithm
    selected, the trace of the store is the one the executor returns, and
    whatever playback actions follow, the maps on display are complete for
    that graph once a step is shown: the canvas finds a state for every node
    and every edge. *)
Theorem algorithmStore_shows_complete_maps graph a s0 s actions :
  algorithmStore.selectedAlgorithmId s0 = Some (config_id (config a)) →
  coherent s0 →
  algorithmStore.runAlgorithm graph s0 = Returned s →
  Forall playback actions →
  execute a graph (algorithmStore.algorithmParams s0) = Returned (algorithmStore.steps s) ∧
  algorithmStore.steps (foldl algorithmStore.after s actions) = algorithmStore.steps s ∧
  (algorithmStore.currentStepIndex (foldl algorithmStore.after s actions) = (-1)%Z ∨
   complete graph (algorithmStore.nodeStates (foldl algorithmStore.after s actions))
                  (algorithmStore.edgeStates (foldl algorithmStore.after s actions))).
Proof.
  intros Hsel Hco Hrun Hplay. unfold algorithmStore.runAlgorithm in Hrun. rewrite Hsel in Hrun.
  assert (Js.truthyStr (Some (config_id (config a))) = Some (config_id (config a))) as Ht
    by by destruct a.
  rewrite Ht in Hrun.
  assert (List.find (fun b => bool_decide (config_id (config b) = config_id (config a))) algorithms
          = Some a) as Hfind by by destruct a.
  rewrite Hfind in Hrun. apply bind_Returned in Hrun as (steps & Hex & Hrun).
  apply Returned_inj in Hrun as <-. simpl.
  split; [done|]. split; [by apply playback_foldl|].
  set (s := algorithmStore.mkState _ _ steps _ _ _ _ _).
  assert (coherent (foldl algorithmStore.after s actions)) as [(Hi & _)|(step & H0 & Hs & -> & ->)]
    by (apply coherent_foldl; by left).
  - by left.
  - right. rewrite playback_foldl in Hs by done. simpl in Hs.
    apply execute_ok in Hex as [Hall _]. rewrite Forall_forall in Hall.
    apply Hall. by eapply list_elem_of_lookup_2.
Qed.

Lemma algorithmStore_shows_complete_maps_witness :
  ∃ s0 s, algorithmStore.selectedAlgorithmId s0 = Some (config_id (config BFS)) ∧
    algorithmStore.runAlgorithm triangle s0 = Returned s ∧
    complete triangle
      (algorithmStore.nodeStates (foldl algorithmStore.after s [algorithmStore.StepForward]))
      (algorithmStore.edgeStates (foldl algorithmStore.after s [algorithmStore.StepForward])).
Proof.
  set (s0 := foldl algorithmStore.after algorithmStore.initial
               [algorithmStore.SelectAlgorithm (Some "bfs");
                algorithmStore.SetAlgorithmParams (algorithmStore.mkPartial (Some (Some "A")) None None)]).
  assert (algorithmStore.currentStepIndex
            (foldl algorithmStore.after
               (match algorithmStore.runAlgorithm triangle s0 with
                | Returned s => s
                | _ => algorithmStore.initial
                end) [algorithmStore.StepForward]) = 0%Z) as Hi by (vm_compute; reflexivity).
  destruct (returns_Returned (algorithmStore.runAlgorithm triangle s0)) as [s E];
    [vm_compute; reflexivity|].
  rewrite E in Hi.
  exists s0, s. split; [reflexivity|]. split; [exact E|].
  assert (coherent s0) as Hco by (apply coherent_foldl; left; repeat split; reflexivity).
  destruct (algorithmStore_shows_complete_maps triangle BFS s0 s [algorithmStore.StepForward]
              eq_refl Hco E) as (_ & _ & [H|H]).
  - repeat constructor.
  - rewrite Hi in H. discriminate H.
  - exact H.
Defined.

(** ** comparisonStore.ts *)

Section comparison.
Import comparisonStore.

Lemma comparing_show i1 i2 playing s :
  (-1 ≤ i1 ≤ Z.max 0 (Z.of_nat (length (steps1 s)) - 1))%Z →
  (-1 ≤ i2 ≤ Z.max 0 (Z.of_nat (length (steps2 s)) - 1))%Z →
  comparing (show i1 i2 playing s).
Proof. intros H1 H2. unfold comparing, show. simpl. done. Qed.

Lemma comparing_after s a : comparing s → comparing (after s a).
Proof.
  intros (H1 & H2 & H3 & H4 & H5 & H6).
  destruct a; simpl;
    try (unfold comparing; simpl; repeat split; first [done | lia]).
  - unfold runComparison.
    destruct (Js.truthyStr (algorithm1Id s)); [|done].
    destruct (Js.truthyStr (algorithm2Id s)); [|done].
    destruct (getAlgorithmById _); [|done]. destruct (getAlgorithmById _); [|done].
    destruct (execute _ _ _); [|done..]. destruct (execute _ _ _); [|done..].
    unfold comparing. simpl. repeat split; try done; lia.
  - unfold stepForward. cbv zeta.
    assert (comparing (show (Z.min (currentStep1 s + 1) (Z.of_nat (length (steps1 s)) - 1))
                            (Z.min (currentStep2 s + 1) (Z.of_nat (length (steps2 s)) - 1))
                            (isPlaying s) s)) as H by (apply comparing_show; lia).
    destruct (_ && _); done.
Qed.
End comparison.

(** X12. Whatever actions the comparison store has received since it was
    created, the four maps it displays are those of the steps at its two
    indices (empty where there is no such step), and each index lies between
    -1 and the last index of its trace, or is 0 when the trace is empty. *)
Theorem comparisonStore_comparing (actions : list comparisonStore.Action) :
  comparing (foldl comparisonStore.after comparisonStore.initial actions).
Proof.
  assert (comparing comparisonStore.initial) as H.
  { unfold comparing. simpl. repeat split; done. }
  revert H. generalize comparisonStore.initial.
  induction actions as [|a l IH]; intros s H; simpl; [done|]. by apply IH, comparing_after.
Qed.

(** X13. In the comparison store the two ends are fixed points: a step
    forward after [jumpToEnd] changes nothing, and neither does a step
    backward after [jumpToStart]; a step backward never leaves an index at
    -1, so that after it the first steps are on display. *)
Theorem comparisonStore_ends (s : comparisonStore.State) :
  comparisonStore.stepForward (comparisonStore.jumpToEnd s) = comparisonStore.jumpToEnd s ∧
  comparisonStore.stepBackward (comparisonStore.jumpToStart s) = comparisonStore.jumpToStart s ∧
  (0 ≤ comparisonStore.currentStep1 (comparisonStore.stepBackward s))%Z ∧
  (0 ≤ comparisonStore.currentStep2 (comparisonStore.stepBackward s))%Z.
Proof.
  split; [|split; [|split]].
  - unfold comparisonStore.stepForward, comparisonStore.jumpToEnd. simpl.
    rewrite !Z.min_r by lia. rewrite !bool_decide_eq_true_2 by lia. done.
  - unfold comparisonStore.stepBackward, comparisonStore.jumpToStart. simpl. done.
  - simpl. lia.
  - simpl. lia.
Qed.

(** The steps are numbered from 1, in the order in which they are pushed. *)
Definition numbered (steps : list AlgorithmStep) : Prop :=
  ∀ i s, steps !! i = Some s → stepNumber s = i + 1.

(** A property of the shared state that the writes of the executors keep:
    the updates of the counters and of the two maps, and the push of a
    step. *)
Record kept (P : Run → Prop) : Prop := mkKept {
  kept_metrics : ∀ r m, P r → P (mkRun (r_steps r) m (r_nodeStates r) (r_edgeStates r));
  kept_nodes : ∀ r k v, P r →
    P (mkRun (r_steps r) (r_metrics r) (<[k := v]> (r_nodeStates r)) (r_edgeStates r));
  kept_edges : ∀ r k v, P r →
    P (mkRun (r_steps r) (r_metrics r) (r_nodeStates r) (<[k := v]> (r_edgeStates r)));
  kept_push : ∀ r desc line ds op, P r →
    P (mkRun (r_steps r ++ [mkStep (length (r_steps r) + 1) desc line
                               (r_nodeStates r) (r_edgeStates r) ds op (r_metrics r)])
             (r_metrics r) (r_nodeStates r) (r_edgeStates r))
}.

(** ** What every write keeps, every executor keeps *)

Section kept_by_executors.
Context (P : Run → Prop) (HP : kept P).
Context (graph : Graph).

Section writes.
Context {L : Type}.
Implicit Types st : St L.

Lemma kept_onMetrics f st : P (run st) → P (run (onMetrics f st)).
Proof. apply (kept_metrics P HP). Qed.

Lemma kept_setNode k v st : P (run st) → P (run (setNode k v st)).
Proof. apply (kept_nodes P HP). Qed.

Lemma kept_setEdge k v st : P (run st) → P (run (setEdge k v st)).
Proof. apply (kept_edges P HP). Qed.

Lemma kept_setEdgeIf e v st : P (run st) → P (run (setEdgeIf e v st)).
Proof. destruct e; simpl; [apply kept_setEdge|done]. Qed.

Lemma kept_rejectUnlessInSolution e st : P (run st) → P (run (rejectUnlessInSolution e st)).
Proof. destruct e; simpl; [|done]. case_bool_decide; [done|apply kept_setEdge]. Qed.

Lemma kept_pushStep desc line ds op st : P (run st) → P (run (pushStep desc line ds op st)).
Proof. apply (kept_push P HP). Qed.

Lemma kept_foldl {A} (f : St L → A → St L) (l : list A) st :
  (∀ st a, P (run st) → P (run (f st a))) → P (run st) → P (run (foldl f st l)).
Proof. intros Hf. revert st. induction l; simpl; eauto. Qed.

Lemma kept_forEach {A} (body : St L → A → Outcome (St L)) (l : list A) st st' :
  (∀ st a st', P (run st) → body st a = Returned st' → P (run st')) →
  P (run st) → forEach body st l = Returned st' → P (run st').
Proof.
  intros Hf. revert st. induction l as [|a l IH]; simpl; intros st Hst H.
  - by injection H as <-.
  - destruct (body st a) as [st1| |] eqn:E; simpl in H; try done. eauto.
Qed.
End writes.

Ltac kept_step :=
  match goal with
  | |- P (run (pushStep _ _ _ _ _)) => apply kept_pushStep
  | |- P (run (setNode _ _ _)) => apply kept_setNode
  | |- P (run (setEdge _ _ _)) => apply kept_setEdge
  | |- P (run (setEdgeIf _ _ _)) => apply kept_setEdgeIf
  | |- P (run (rejectUnlessInSolution _ _)) => apply kept_rejectUnlessInSolution
  | |- P (run (addNodesVisited _ _)) => apply kept_onMetrics
  | |- P (run (addEdgesExamined _ _)) => apply kept_onMetrics
  | |- P (run (addOperationsCount _ _)) => apply kept_onMetrics
  | |- P (run (addComparisons _ _)) => apply kept_onMetrics
  | |- P (run (onLoc _ ?st)) => change (P (run st))
  | |- P (run (setLoc _ ?st)) => change (P (run st))
  | |- P (run (mkSt ?r _)) => change (P r)
  | |- P (run (foldl _ _ _)) => apply kept_foldl; [intros ? ? ?|]
  | |- P (run (match ?x with _ => _ end)) => destruct x eqn:?
  | |- P (run (let (_, _) := ?x in _)) => destruct x eqn:?
  | H : Returned _ = Returned ?b |- _ => apply Returned_inj in H; first [subst b | simplify_eq]
  | H : Threw = Returned _ |- _ => discriminate H
  | H : OutOfFuel = Returned _ |- _ => discriminate H
  | H : (match ?x with _ => _ end) = Returned _ |- _ => destruct x eqn:?
  | H : (let (_, _) := ?x in _) = Returned _ |- _ => destruct x eqn:?
  | H : mbind _ _ = Returned _ |- _ =>
      let E := fresh "E" in apply bind_Returned in H as (? & E & H)
  end.

Ltac kept_auto := cbv beta zeta in *; repeat (first [assumption | kept_step]).

Context (Hinit : P (initialRun graph)).

(** What the executors return: no step at all, or the steps of a state
    that has the property. *)
Definition keptTrace (steps : list AlgorithmStep) : Prop :=
  steps = [] ∨ ∃ r, P r ∧ steps = r_steps r.

Lemma keptTrace_run r : P r → keptTrace (r_steps r).
Proof. right. by exists r. Qed.

Lemma kept_bfs_examine c st nb : P (run st) → P (run (bfs.examine graph c st nb)).
Proof. intros. unfold bfs.examine. kept_auto. Qed.

Lemma kept_bfs_turn adj c rest st : P (run st) → P (run (bfs.turn graph adj c rest st)).
Proof. intros. unfold bfs.turn. kept_auto. by apply kept_bfs_examine. Qed.

Lemma kept_bfs_while fuel adj st st' :
  P (run st) → bfs.while fuel graph adj st = Returned st' → P (run st').
Proof.
  revert st. induction fuel as [|fuel IH]; intros st Hst H; simpl in H;
    destruct (bfs.queue (loc st)); kept_auto.
  eapply IH; [|done]. by apply kept_bfs_turn.
Qed.

Lemma kept_executeBFS params steps :
  bfs.executeBFS graph params = Returned steps → keptTrace steps.
Proof.
  unfold bfs.executeBFS. intros H. kept_auto; try by left.
  apply keptTrace_run. unfold bfs.finish. kept_auto.
  eapply kept_bfs_while; [|done]. unfold bfs.start. kept_auto.
Qed.

Lemma kept_dfs_pushNeighbor c st nb : P (run st) → P (run (dfs.pushNeighbor graph c st nb)).
Proof. intros. unfold dfs.pushNeighbor. kept_auto. Qed.

Lemma kept_dfs_turn adj c rest st : P (run st) → P (run (dfs.turn graph adj c rest st)).
Proof. intros. unfold dfs.turn. kept_auto. by apply kept_dfs_pushNeighbor. Qed.

Lemma kept_dfs_while fuel adj st st' :
  P (run st) → dfs.while fuel graph adj st = Returned st' → P (run st').
Proof.
  revert st. induction fuel as [|fuel IH]; intros st Hst H; simpl in H;
    destruct (dfs.stack (loc st)); kept_auto.
  eapply IH; [|done]. by apply kept_dfs_turn.
Qed.

Lemma kept_executeDFS params steps :
  dfs.executeDFS graph params = Returned steps → keptTrace steps.
Proof.
  unfold dfs.executeDFS. intros H. kept_auto; try by left.
  apply keptTrace_run. unfold dfs.finish. kept_auto.
  eapply kept_dfs_while; [|done]. unfold dfs.start. kept_auto.
Qed.

Lemma kept_dijkstra_relax c st nb : P (run st) → P (run (dijkstra.relax graph c st nb)).
Proof. intros. unfold dijkstra.relax. kept_auto. Qed.

Lemma kept_dijkstra_markPath prev path st :
  P (run st) → P (run (dijkstra.markPath graph prev path st)).
Proof. revert prev st. induction path; intros prev st H; simpl; [done|]. apply IHpath. kept_auto. Qed.

Lemma kept_dijkstra_reached c d st st' :
  P (run st) → dijkstra.reached graph c d st = Returned st' → P (run st').
Proof.
  intros Hst H. unfold dijkstra.reached in H. kept_auto.
  apply kept_dijkstra_markPath. kept_auto.
Qed.

Lemma kept_dijkstra_while fuel adj e st b st' :
  P (run st) → dijkstra.while fuel graph adj e st = Returned (b, st') → P (run st').
Proof.
  revert st. induction fuel as [|fuel IH]; intros st Hst H; simpl in H;
    destruct (dijkstra.pq (loc st)) as [|[d c] rest]; kept_auto.
  - eapply IH; [|done]. kept_auto.
  - eapply IH; [|done]. kept_auto.
  - eapply kept_dijkstra_reached; [|done]. kept_auto.
  - eapply IH; [|done]. kept_auto. by apply kept_dijkstra_relax.
Qed.

Lemma kept_executeDijkstra params steps :
  dijkstra.executeDijkstra graph params = Returned steps → keptTrace steps.
Proof.
  unfold dijkstra.executeDijkstra. intros H. kept_auto; try by left.
  - apply keptTrace_run. eapply kept_dijkstra_while; [|done]. unfold dijkstra.start. kept_auto.
  - apply keptTrace_run. unfold dijkstra.finish. kept_auto;
      (eapply kept_dijkstra_while; [|done]); unfold dijkstra.start; kept_auto.
Qed.

Lemma kept_astar_examine endNode hr c st nb st' :
  P (run st) → astar.examine graph endNode hr c st nb = Returned st' → P (run st').
Proof. intros Hst H. unfold astar.examine in H. kept_auto. Qed.

Lemma kept_astar_markEdges path st : P (run st) → P (run (astar.markEdges graph path st)).
Proof.
  revert st. induction path as [|p [|q path] IH]; intros st H; simpl; try done.
  apply IH. kept_auto.
Qed.

Lemma kept_astar_reached e c st st' :
  P (run st) → astar.reached graph e c st = Returned st' → P (run st').
Proof.
  intros Hst H. unfold astar.reached in H. kept_auto.
  apply kept_astar_markEdges. kept_auto.
Qed.

Lemma kept_astar_while fuel adj endNode hr e st b st' :
  P (run st) → astar.while fuel graph adj endNode hr e st = Returned (b, st') → P (run st').
Proof.
  revert st. induction fuel as [|fuel IH]; intros st Hst H; simpl in H;
    destruct (astar.openSet (loc st)) as [|[d c] rest]; kept_auto.
  - eapply kept_astar_reached; [|done]. kept_auto.
  - eapply IH; [|done]. eapply kept_forEach; [|..|done].
    + intros ? ? ?. apply kept_astar_examine.
    + kept_auto.
Qed.

Lemma kept_executeAStar params steps :
  astar.executeAStar graph params = Returned steps → keptTrace steps.
Proof.
  unfold astar.executeAStar. intros H. kept_auto; try by left.
  - apply keptTrace_run. eapply kept_astar_while; [|done]. unfold astar.start. kept_auto.
  - apply keptTrace_run. kept_auto. eapply kept_astar_while; [|done]. unfold astar.start. kept_auto.
Qed.

Lemma kept_kruskal_consider st edge st' :
  P (run st) → kruskal.consider graph st edge = Returned st' → P (run st').
Proof. intros Hst H. unfold kruskal.consider in H. kept_auto. Qed.

Lemma kept_kruskal_loop sorted st st' :
  P (run st) → kruskal.loop graph sorted st = Returned st' → P (run st').
Proof.
  revert st. induction sorted as [|edge rest IH]; intros st Hst H; simpl in H; kept_auto.
  - eapply kept_kruskal_consider; [|done]. done.
  - eapply IH; [|done]. eapply kept_kruskal_consider; [|done]. done.
Qed.

Lemma kept_executeKruskal params steps :
  kruskal.executeKruskal graph params = Returned steps → keptTrace steps.
Proof.
  unfold kruskal.executeKruskal. intros H. kept_auto.
  apply keptTrace_run. kept_auto. eapply kept_kruskal_loop; [|done]. kept_auto.
Qed.

Lemma kept_prim_check c node st nb st' :
  P (run st) → prim.check graph c node st nb = Returned st' → P (run st').
Proof. intros Hst H. unfold prim.check in H. kept_auto. Qed.

Lemma kept_prim_add c st node st' :
  P (run st) → prim.add graph c st = Returned (node, st') → P (run st').
Proof. intros Hst H. unfold prim.add in H. kept_auto. Qed.

Lemma kept_prim_turn adj c rest st st' :
  P (run st) → prim.turn graph adj c rest st = Returned st' → P (run st').
Proof.
  intros Hst H. unfold prim.turn, prim.turnWith, prim.dequeue in H. kept_auto.
  eapply kept_forEach; [|..|done]; [intros ? ? ?; apply kept_prim_check|].
  eapply kept_prim_add; [|done]. kept_auto.
Qed.

Lemma kept_prim_while fuel adj st st' :
  P (run st) → prim.while fuel graph adj st = Returned st' → P (run st').
Proof.
  unfold prim.while.
  revert st. induction fuel as [|fuel IH]; intros st Hst H; simpl in H;
    destruct (prim.pq (loc st)) as [|[d c] rest]; kept_auto.
  eapply IH; [|done]. eapply kept_prim_turn; [|done]. done.
Qed.

Lemma kept_executePrim params steps :
  prim.executePrim graph params = Returned steps → keptTrace steps.
Proof.
  unfold prim.executePrim, prim.executePrimWith. intros H. kept_auto; try by left.
  apply keptTrace_run. unfold prim.finish. kept_auto.
  eapply kept_prim_while; [|done]. unfold prim.start. kept_auto.
Qed.

Lemma kept_topological_release st edge st' :
  P (run st) → topological.release graph st edge = Returned st' → P (run st').
Proof. intros Hst H. unfold topological.release in H. kept_auto. Qed.

Lemma kept_topological_turn c rest st st' :
  P (run st) → topological.turn graph c rest st = Returned st' → P (run st').
Proof.
  intros Hst H. unfold topological.turn in H. kept_auto.
  eapply kept_forEach; [|..|done]; [intros ? ? ?; apply kept_topological_release|kept_auto].
Qed.

Lemma kept_topological_while fuel st st' :
  P (run st) → topological.while fuel graph st = Returned st' → P (run st').
Proof.
  revert st. induction fuel as [|fuel IH]; intros st Hst H; simpl in H;
    destruct (topological.queue (loc st)) as [|c rest]; kept_auto.
  eapply IH; [|done]. eapply kept_topological_turn; [|done]. done.
Qed.

Lemma kept_executeTopologicalSort params steps :
  topological.executeTopologicalSort graph params = Returned steps → keptTrace steps.
Proof.
  unfold topological.executeTopologicalSort. intros H. kept_auto; try by left.
  apply keptTrace_run. unfold topological.finish. kept_auto;
    (eapply kept_topological_while; [|done]); unfold topological.start; kept_auto.
Qed.

Lemma kept_cycle_forNeighbors recurse nodeId node nbs st b st' :
  (∀ id st b st', P (run st) → recurse id st = Returned (b, st') → P (run st')) →
  P (run st) →
  cycleDetection.forNeighbors recurse graph nodeId node nbs st = Returned (b, st') →
  P (run st').
Proof.
  intros Hrec. revert st. induction nbs as [|[n w] nbs IH]; intros st Hst H; simpl in H; kept_auto.
  - eapply Hrec; [|done]. kept_auto.
  - eapply IH; [|done]. eapply Hrec; [|done]. kept_auto.
  - eapply IH; [|done]. kept_auto.
Qed.

Lemma kept_cycle_dfs fuel adj nodeId st b st' :
  P (run st) → cycleDetection.dfs fuel graph adj nodeId st = Returned (b, st') → P (run st').
Proof.
  revert nodeId st b st'. induction fuel as [|fuel IH]; intros nodeId st b st' Hst H; simpl in H;
    kept_auto.
  - eapply kept_cycle_forNeighbors; [apply IH| |done]. kept_auto.
  - eapply kept_cycle_forNeighbors; [apply IH| |done]. kept_auto.
Qed.

Lemma kept_cycle_roots fuel adj ns st st' :
  P (run st) → cycleDetection.roots fuel graph adj ns st = Returned st' → P (run st').
Proof.
  revert st. induction ns as [|n ns IH]; intros st Hst H; simpl in H; kept_auto.
  - eapply kept_cycle_dfs; [|done]. kept_auto.
  - eapply IH; [|done]. eapply kept_cycle_dfs; [|done]. kept_auto.
  - by eapply IH.
Qed.

Lemma kept_executeCycleDetection params steps :
  cycleDetection.executeCycleDetection graph params = Returned steps → keptTrace steps.
Proof.
  unfold cycleDetection.executeCycleDetection. intros H. kept_auto.
  apply keptTrace_run. unfold cycleDetection.finish in *. kept_auto;
    (eapply kept_cycle_roots; [|done]); unfold cycleDetection.start; kept_auto.
Qed.

Lemma kept_components_dfs fuel adj compId nodeId st st' :
  P (run st) → connectedComponents.dfs fuel graph adj compId nodeId st = Returned st' →
  P (run st').
Proof.
  revert nodeId st st'. induction fuel as [|fuel IH]; intros nodeId st st' Hst H; simpl in H;
    kept_auto.
  eapply kept_forEach; [|..|done].
  - intros st1 nb st2 Hst1 H1. kept_auto. eapply IH; [|done]. kept_auto.
  - kept_auto.
Qed.

Lemma kept_components_component_of fuel adj st node st' :
  P (run st) → connectedComponents.component_of fuel graph adj st node = Returned st' →
  P (run st').
Proof.
  intros Hst H. unfold connectedComponents.component_of in H. kept_auto.
  eapply kept_components_dfs; [|done]. kept_auto.
Qed.

Lemma kept_executeConnectedComponents params steps :
  connectedComponents.executeConnectedComponents graph params = Returned steps →
  keptTrace steps.
Proof.
  unfold connectedComponents.executeConnectedComponents. intros H. kept_auto.
  apply keptTrace_run. kept_auto. eapply kept_forEach; [|..|done].
  - intros ? ? ?. apply kept_components_component_of.
  - unfold connectedComponents.start. kept_auto.
Qed.

Lemma kept_execute (a : Algorithm) params steps :
  execute a graph params = Returned steps → keptTrace steps.
Proof.
  destruct a; simpl.
  - apply kept_executeBFS.
  - apply kept_executeDFS.
  - apply kept_executeDijkstra.
  - apply kept_executeAStar.
  - apply kept_executeKruskal.
  - apply kept_executePrim.
  - apply kept_executeTopologicalSort.
  - apply kept_executeCycleDetection.
  - apply kept_executeConnectedComponents.
Qed.
End kept_by_executors.

Lemma numbered_kept : kept (fun r => numbered (r_steps r)).
Proof.
  split; simpl; try done.
  intros r desc line ds op H i s Hs.
  destruct (decide (i < length (r_steps r))) as [Hi|Hi].
  - rewrite lookup_app_l in Hs by done. by apply H.
  - apply lookup_lt_Some in Hs as Hlen. rewrite length_app in Hlen. simpl in Hlen.
    rewrite lookup_app_r in Hs by lia.
    replace (i - length (r_steps r)) with 0 in Hs by lia. simpl in Hs.
    injection Hs as <-. simpl. lia.
Qed.

(** X14. In the trace that any of the nine executors returns, the k-th step
    carries the number k: the steps are numbered 1, 2, 3, ... without a gap,
    whatever the graph and the params. *)
Theorem steps_are_numbered (a : Algorithm) (graph : Graph) (params : AlgorithmParams) :
  finished (execute a graph params) numbered.
Proof.
  destruct (execute a graph params) as [steps| |] eqn:E; simpl; [|done|].
  - apply (kept_execute _ numbered_kept graph) in E as [->|(r & Hr & ->)]; [|done..].
    intros i s H. by rewrite lookup_nil in H.
  - by apply execute_finishes in E.
Qed.

(** [v] is reached from [s] along entries of the adjacency list. *)
Definition reachable (adjList : AdjList) (s v : string) : Prop :=
  rtc (fun u w => w ∈ (neighborsOf adjList u).*1) s v.

(** What the last step of a traversal from [start] shows: the ids marked
    visited are the ids reachable from [start], each once; they are counted
    by [nodesVisited] and are [in_solution], and the state of every other id
    is the initial one. *)
Definition visitsReachable (graph : Graph) (start : string) (steps : list AlgorithmStep) : Prop :=
  ∃ final visited,
    last steps = Some final ∧ NoDup visited ∧
    (∀ v, v ∈ visited ↔ reachable (toAdjacencyList graph) start v) ∧
    viewOf final "visited" = Some (VLabels (labelOf graph <$> visited)) ∧
    nodesVisited (metrics final) = length visited ∧
    ∀ v, nodeStates final !! v =
         if decide (v ∈ visited) then Some NodeState.IN_SOLUTION
         else if decide (v ∈ node_id <$> nodes graph) then Some NodeState.UNVISITED
         else None.

(** ** The traversals visit what is reachable *)

Lemma nodes_setEdgeIf {L} e v (st : St L) :
  r_nodeStates (run (setEdgeIf e v st)) = r_nodeStates (run st).
Proof. by destruct e. Qed.

Lemma nodes_rejectUnlessInSolution {L} e (st : St L) :
  r_nodeStates (run (rejectUnlessInSolution e st)) = r_nodeStates (run st).
Proof. destruct e; simpl; [|done]. by case_bool_decide. Qed.

Lemma metrics_setEdgeIf {L} e v (st : St L) :
  r_metrics (run (setEdgeIf e v st)) = r_metrics (run st).
Proof. by destruct e. Qed.

Lemma metrics_rejectUnlessInSolution {L} e (st : St L) :
  r_metrics (run (rejectUnlessInSolution e st)) = r_metrics (run st).
Proof. destruct e; simpl; [|done]. by case_bool_decide. Qed.

Lemma nodes_foldl_setNode {L} (s : NodeState.t) (ids : list string) (st : St L) v :
  r_nodeStates (run (foldl (fun st id => setNode id s st) st ids)) !! v =
  if decide (v ∈ ids) then Some s else r_nodeStates (run st) !! v.
Proof.
  revert st. induction ids as [|i ids IH]; intros st; simpl; [done|].
  rewrite IH. simpl. destruct (decide (v ∈ ids)) as [Hv|Hv].
  - rewrite decide_True; [done|by right].
  - destruct (decide (i = v)) as [->|Hne].
    + rewrite lookup_insert_eq. rewrite decide_True; [done|by left].
    + rewrite lookup_insert_ne by done. rewrite decide_False; [done|].
      rewrite elem_of_cons. intros [->|]; done.
Qed.

Lemma metrics_foldl_setNode {L} (s : NodeState.t) (ids : list string) (st : St L) :
  r_metrics (run (foldl (fun st id => setNode id s st) st ids)) = r_metrics (run st).
Proof. revert st. induction ids as [|i ids IH]; intros st; simpl; [done|]. by rewrite IH. Qed.

Ltac run_simpl :=
  repeat (simpl; rewrite ?loc_setEdgeIf, ?loc_rejectUnlessInSolution, ?loc_foldl_setNode,
            ?nodes_setEdgeIf, ?nodes_rejectUnlessInSolution,
            ?metrics_setEdgeIf, ?metrics_rejectUnlessInSolution, ?metrics_foldl_setNode).

Lemma initial_nodeStates graph v :
  r_nodeStates (initialRun graph) !! v =
  if decide (v ∈ node_id <$> nodes graph) then Some NodeState.UNVISITED else None.
Proof.
  simpl. assert (∀ (m : gmap string NodeState.t) ns,
    foldl (fun m n => <[node_id n := NodeState.UNVISITED]> m) m ns !! v =
    if decide (v ∈ node_id <$> ns) then Some NodeState.UNVISITED else m !! v) as H.
  { intros m ns. revert m. induction ns as [|n ns IH]; intros m; simpl; [done|].
    rewrite IH. destruct (decide (v ∈ node_id <$> ns)) as [Hv|Hv].
    - rewrite decide_True; [done|by right].
    - destruct (decide (node_id n = v)) as [E|E].
      + rewrite E, lookup_insert_eq. rewrite decide_True; [done|by left].
      + rewrite lookup_insert_ne by done. rewrite decide_False; [done|].
        rewrite elem_of_cons. intros [?|?]; [congruence|done]. }
  rewrite H. by case_decide.
Qed.

Lemma NoDup_setAdd k s : NoDup s → NoDup (Js.setAdd k s).
Proof.
  intros H. unfold Js.setAdd. case_bool_decide; [done|].
  apply NoDup_app. split; [done|]. split; [|apply NoDup_singleton].
  intros x Hx Hx'. apply list_elem_of_singleton in Hx' as ->. done.
Qed.

Lemma length_setAdd k s : k ∉ s → length (Js.setAdd k s) = length s + 1.
Proof. intros H. unfold Js.setAdd. rewrite bool_decide_eq_false_2 by done. by rewrite length_app. Qed.

Section bfs_reaches.
Context (graph : Graph) (start : string).
Let adj := toAdjacencyList graph.

(** The ids whose neighbours are all visited. *)
Definition closedIn (visited : list string) (v : string) : Prop :=
  ∀ n, n ∈ (neighborsOf adj v).*1 → n ∈ visited.

(** What holds while the neighbours of [current] are examined ([current] is
    [None] at the head of the loop). *)
Definition bfsInv (current : option string) (st : St bfs.Locals) : Prop :=
  start ∈ bfs.visited (loc st) ∧
  NoDup (bfs.visited (loc st)) ∧
  (∀ v, v ∈ bfs.visited (loc st) → reachable adj start v) ∧
  (∀ v, v ∈ bfs.queue (loc st) → v ∈ bfs.visited (loc st)) ∧
  (∀ v, v ∈ bfs.visited (loc st) →
        Some v = current ∨ v ∈ bfs.queue (loc st) ∨ closedIn (bfs.visited (loc st)) v) ∧
  nodesVisited (r_metrics (run st)) = length (bfs.visited (loc st)) ∧
  (∀ v, v ∉ bfs.visited (loc st) →
        r_nodeStates (run st) !! v = r_nodeStates (initialRun graph) !! v).

Lemma bfs_examine_inv c st nb :
  c ∈ bfs.visited (loc st) → nb.1 ∈ (neighborsOf adj c).*1 →
  bfsInv (Some c) st →
  bfsInv (Some c) (bfs.examine graph c st nb) ∧
  nb.1 ∈ bfs.visited (loc (bfs.examine graph c st nb)) ∧
  (∀ v, v ∈ bfs.visited (loc st) → v ∈ bfs.visited (loc (bfs.examine graph c st nb))).
Proof.
  intros Hc Hnb (Hs & Hnd & Hreach & Hq & Hcl & Hm & Hn).
  unfold bfsInv. rewrite !bfs_examine_loc.
  unfold bfs.examine. cbv zeta. run_simpl.
  destruct (Js.setHas nb.1 (bfs.visited (loc st))) eqn:E; run_simpl.
  - apply setHas_true in E. repeat split; try done; lia.
  - apply setHas_false in E. repeat split.
    + rewrite elem_of_setAdd. by right.
    + by apply NoDup_setAdd.
    + intros v Hv. apply elem_of_setAdd in Hv as [->|Hv]; [|by apply Hreach].
      apply (rtc_r _ c); [by apply Hreach|exact Hnb].
    + intros v Hv. rewrite elem_of_setAdd. apply elem_of_app in Hv as [Hv|Hv].
      * right. by apply Hq.
      * left. by apply list_elem_of_singleton in Hv.
    + intros v Hv. rewrite elem_of_app. apply elem_of_setAdd in Hv as [->|Hv].
      * right. left. right. by apply list_elem_of_singleton.
      * destruct (Hcl v Hv) as [?|[?|Hclosed]]; [by left|by right; left; left|].
        right. right. intros n Hn'. rewrite elem_of_setAdd. right. by apply Hclosed.
    + rewrite length_setAdd by done. lia.
    + intros v Hv. rewrite elem_of_setAdd in Hv.
      rewrite lookup_insert_ne by (intros E'; apply Hv; by left). apply Hn. tauto.
    + rewrite elem_of_setAdd. by left.
    + intros v Hv. rewrite elem_of_setAdd. by right.
Qed.

Lemma bfs_examine_all_inv c nbs st :
  c ∈ bfs.visited (loc st) → (∀ nb, nb ∈ nbs → nb.1 ∈ (neighborsOf adj c).*1) →
  bfsInv (Some c) st →
  bfsInv (Some c) (foldl (bfs.examine graph c) st nbs) ∧
  (∀ nb, nb ∈ nbs → nb.1 ∈ bfs.visited (loc (foldl (bfs.examine graph c) st nbs))) ∧
  (∀ v, v ∈ bfs.visited (loc st) → v ∈ bfs.visited (loc (foldl (bfs.examine graph c) st nbs))).
Proof.
  revert st. induction nbs as [|nb nbs IH]; intros st Hc Hnbs Hinv; simpl.
  - split; [done|]. split; [|done]. intros nb Hnb. by apply elem_of_nil in Hnb.
  - destruct (bfs_examine_inv c st nb Hc) as (H1 & H2 & H3); [apply Hnbs; by left|done|].
    destruct (IH (bfs.examine graph c st nb)) as (H4 & H5 & H6);
      [by apply H3|intros ? ?; apply Hnbs; by right|done|].
    split; [done|]. split.
    + intros nb' Hnb'. apply elem_of_cons in Hnb' as [->|Hnb']; [by apply H6|by apply H5].
    + intros v Hv. by apply H6, H3.
Qed.

Lemma bfs_turn_inv c rest st :
  bfs.queue (loc st) = c :: rest → bfsInv None st → bfsInv None (bfs.turn graph adj c rest st).
Proof.
  intros Hq (Hs & Hnd & Hreach & Hqv & Hcl & Hm & Hn).
  assert (c ∈ bfs.visited (loc st)) as Hc by (apply Hqv; rewrite Hq; by left).
  unfold bfs.turn. cbv zeta.
  match goal with |- bfsInv None (pushStep _ _ _ _ (setNode _ _ (foldl _ ?st0 _))) =>
    set (st1 := st0) end.
  assert (bfsInv (Some c) st1) as Hinv1.
  { unfold bfsInv, st1. run_simpl. repeat split; try done.
    - intros v Hv. apply Hqv. rewrite Hq. by right.
    - intros v Hv. destruct (Hcl v Hv) as [[=]|[Hv'|?]]; [|by right; right].
      rewrite Hq in Hv'. apply elem_of_cons in Hv' as [->|?]; [by left|by right; left].
    - intros v Hv. rewrite lookup_insert_ne by (intros ->; done). by apply Hn. }
  destruct (bfs_examine_all_inv c (neighborsOf adj c) st1) as (Hinv & Hall & Hgrow);
    [done|intros nb Hnb; by apply list_elem_of_fmap_2|done|].
  destruct Hinv as (Hs' & Hnd' & Hreach' & Hqv' & Hcl' & Hm' & Hn').
  unfold bfsInv. run_simpl. repeat split; try done.
  - intros v Hv. destruct (Hcl' v Hv) as [[= ->]|[?|?]]; [|by right; left|by right; right].
    right. right. intros n Hn0. apply list_elem_of_fmap in Hn0 as (nb & -> & Hnb). by apply Hall.
  - intros v Hv. rewrite lookup_insert_ne; [by apply Hn'|].
    intros ->. apply Hv. by apply Hgrow.
Qed.

Lemma bfs_while_inv fuel st st' :
  bfsInv None st → bfs.while fuel graph adj st = Returned st' →
  bfsInv None st' ∧ bfs.queue (loc st') = [].
Proof.
  revert st. induction fuel as [|fuel IH]; intros st Hinv H; simpl in H.
  - destruct (bfs.queue (loc st)) eqn:E; [|done]. by apply Returned_inj in H as <-.
  - destruct (bfs.queue (loc st)) as [|c rest] eqn:E; [by apply Returned_inj in H as <-|].
    eapply IH; [|done]. by apply bfs_turn_inv.
Qed.

Lemma bfs_start_inv : bfsInv None (bfs.start graph start).
Proof.
  unfold bfsInv, bfs.start. run_simpl. repeat split.
  - by left.
  - apply NoDup_singleton.
  - intros v Hv. apply list_elem_of_singleton in Hv as ->. apply rtc_refl.
  - done.
  - intros v Hv. right. by left.
  - intros v Hv. rewrite lookup_insert_ne; [done|]. intros ->. apply Hv. by left.
Qed.

Lemma closed_reachable (visited : list string) v :
  start ∈ visited → (∀ u, u ∈ visited → closedIn visited u) →
  reachable adj start v → v ∈ visited.
Proof.
  intros Hs Hclosed Hr. apply rtc_nsteps in Hr as [n Hr]. revert v Hr.
  induction n as [|n IH]; intros v Hr.
  - by inversion Hr; subst.
  - apply nsteps_inv_r in Hr as (u & Hu & Hv). by eapply Hclosed; [apply IH|].
Qed.
End bfs_reaches.

(** X15. From a start node (with an id that is not the empty string)
    [executeBFS] returns a trace whose last step shows, as visited, each id
    reachable from the start along the adjacency list exactly once and no
    other id; [nodesVisited] is their number, they are [in_solution], and
    every other id has kept its initial state. *)
Theorem executeBFS_visits_reachable graph params start n :
  startNodeId params = Some start → start ≠ "" → getNode graph start = Some n →
  ∃ steps, bfs.executeBFS graph params = Returned steps ∧ visitsReachable graph start steps.
Proof.
  intros Hp Hs Hn. destruct (executeBFS_returns graph params) as [steps Hsteps].
  exists steps. split; [done|].
  unfold bfs.executeBFS in Hsteps. rewrite Hp in Hsteps. simpl in Hsteps.
  rewrite bool_decide_eq_false_2 in Hsteps by done. rewrite Hn in Hsteps.
  apply bind_Returned in Hsteps as (st & Hw & Hsteps). apply Returned_inj in Hsteps as <-.
  destruct (bfs_while_inv graph start _ _ _ (bfs_start_inv graph start) Hw)
    as ((H1 & H2 & H3 & H4 & H5 & H6 & H7) & Hq).
  unfold visitsReachable, bfs.finish. cbv zeta. simpl.
  eexists _, (bfs.visited (loc st)). rewrite last_snoc.
  split; [done|]. split; [done|]. split; [|split; [|split]].
  - intros v. split; [apply H3|]. apply closed_reachable; [done|].
    intros u Hu. destruct (H5 u Hu) as [[=]|[Hu'|?]]; [|done]. rewrite Hq in Hu'.
    by apply elem_of_nil in Hu'.
  - unfold viewOf. run_simpl. done.
  - run_simpl. done.
  - intros v. run_simpl. rewrite nodes_foldl_setNode.
    case_decide as Hv; [done|]. rewrite H7 by done. apply initial_nodeStates.
Qed.

Lemma executeBFS_visits_reachable_witness :
  startNodeId (from "A") = Some "A" ∧ "A" ≠ "" ∧ getNode triangle "A" = Some (node "A") ∧
  ∃ steps, bfs.executeBFS triangle (from "A") = Returned steps ∧ visitsReachable triangle "A" steps.
Proof.
  split; [reflexivity|]. split; [discriminate|]. split; [reflexivity|].
  apply (executeBFS_visits_reachable triangle (from "A") "A" (node "A"));
    [reflexivity|discriminate|reflexivity].
Defined.

Section dfs_reaches.
Context (graph : Graph) (start : string).
Let adj := toAdjacencyList graph.

Definition dfsInv (st : St dfs.Locals) : Prop :=
  (start ∈ dfs.visited (loc st) ∨ start ∈ dfs.stack (loc st)) ∧
  NoDup (dfs.visited (loc st)) ∧
  (∀ v, v ∈ dfs.visited (loc st) → reachable adj start v) ∧
  (∀ v, v ∈ dfs.stack (loc st) → reachable adj start v) ∧
  (∀ v n, v ∈ dfs.visited (loc st) → n ∈ (neighborsOf adj v).*1 →
          n ∈ dfs.visited (loc st) ∨ n ∈ dfs.stack (loc st)) ∧
  nodesVisited (r_metrics (run st)) = length (dfs.visited (loc st)) ∧
  (∀ v, v ∉ dfs.visited (loc st) → v ∉ dfs.stack (loc st) →
        r_nodeStates (run st) !! v = r_nodeStates (initialRun graph) !! v).

Lemma dfs_pushNeighbor_run c st nb :
  nodesVisited (r_metrics (run (dfs.pushNeighbor graph c st nb))) =
    nodesVisited (r_metrics (run st)) ∧
  ∀ v, v ≠ nb.1 → r_nodeStates (run (dfs.pushNeighbor graph c st nb)) !! v =
                  r_nodeStates (run st) !! v.
Proof.
  unfold dfs.pushNeighbor. cbv zeta.
  destruct (Js.setHas nb.1 (dfs.visited (loc st))) eqn:E;
    repeat (progress (run_simpl; rewrite ?E)); [done|].
  case_bool_decide; run_simpl; (split; [done|]); intros v Hv; [|done].
  by rewrite lookup_insert_ne.
Qed.

Lemma dfs_pushNeighbors_run c nbs st :
  nodesVisited (r_metrics (run (foldl (dfs.pushNeighbor graph c) st nbs))) =
    nodesVisited (r_metrics (run st)) ∧
  ∀ v, v ∉ nbs.*1 → r_nodeStates (run (foldl (dfs.pushNeighbor graph c) st nbs)) !! v =
                     r_nodeStates (run st) !! v.
Proof.
  revert st. induction nbs as [|nb nbs IH]; intros st; simpl; [done|].
  destruct (IH (dfs.pushNeighbor graph c st nb)) as [H1 H2].
  destruct (dfs_pushNeighbor_run c st nb) as [H3 H4].
  split; [by rewrite H1|]. intros v Hv. rewrite not_elem_of_cons in Hv.
  rewrite H2 by tauto. apply H4. tauto.
Qed.

Lemma dfs_pushNeighbor_keeps c st nb v :
  Js.setHas nb.1 (dfs.visited (loc st)) = true →
  r_nodeStates (run (dfs.pushNeighbor graph c st nb)) !! v = r_nodeStates (run st) !! v.
Proof.
  intros E. unfold dfs.pushNeighbor. cbv zeta.
  repeat (progress (run_simpl; rewrite ?E)). done.
Qed.

Lemma dfs_pushNeighbors_keep c nbs st v :
  v ∈ dfs.visited (loc st) →
  r_nodeStates (run (foldl (dfs.pushNeighbor graph c) st nbs)) !! v =
  r_nodeStates (run st) !! v.
Proof.
  revert st. induction nbs as [|nb nbs IH]; intros st Hv; simpl; [done|].
  rewrite IH.
  - destruct (decide (v = nb.1)) as [->|Hne].
    + apply dfs_pushNeighbor_keeps. by apply setHas_true.
    + by apply dfs_pushNeighbor_run.
  - rewrite dfs_pushNeighbor_loc. by destruct (Js.setHas _ _).
Qed.

Lemma dfs_turn_inv c rest st :
  dfs.stack (loc st) = c :: rest → dfsInv st → dfsInv (dfs.turn graph adj c rest st).
Proof.
  intros Hst (Hs & Hnd & Hrv & Hrs & Hcl & Hm & Hn).
  assert (reachable adj start c) as Hc by (apply Hrs; rewrite Hst; by left).
  unfold dfsInv. rewrite !dfs_turn_loc.
  destruct (Js.setHas c (dfs.visited (loc st))) eqn:E.
  - apply setHas_true in E.
    assert (∀ v, v ∈ dfs.stack (loc st) → v ∈ dfs.visited (loc st) ∨ v ∈ rest) as Hpop.
    { intros v Hv. rewrite Hst in Hv. apply elem_of_cons in Hv as [->|Hv]; auto. }
    unfold dfs.turn. cbv zeta. rewrite (proj2 (setHas_true c _)) by (run_simpl; done).
    run_simpl. repeat split; try done.
    + destruct Hs as [?|Hs]; [by left|]. by apply Hpop.
    + intros v Hv. apply Hrs. rewrite Hst. by right.
    + intros v n Hv Hn'. destruct (Hcl v n Hv Hn') as [?|Hs']; [by left|]. by apply Hpop.
    + intros v Hv Hv'. apply Hn; [done|]. rewrite Hst. rewrite not_elem_of_cons.
      split; [|done]. intros ->. done.
  - apply setHas_false in E. simpl.
    set (pushed := filter (fun n => n ∉ Js.setAdd c (dfs.visited (loc st))) (neighborsOf adj c).*1).
    unfold dfs.turn. cbv zeta. rewrite (proj2 (setHas_false c _)) by (run_simpl; done).
    match goal with |- context [foldl (dfs.pushNeighbor graph c) ?st0 _] => set (st1 := st0) end.
    destruct (dfs_pushNeighbors_run c (reverse (neighborsOf adj c)) st1) as [Hm1 Hn1].
    run_simpl. repeat split.
    + destruct Hs as [?|Hs]; [left; rewrite elem_of_setAdd; by right|].
      rewrite Hst in Hs.
      apply elem_of_cons in Hs as [->|?]; [left; rewrite elem_of_setAdd; by left|].
      right. rewrite elem_of_app. by right.
    + by apply NoDup_setAdd.
    + intros v Hv. apply elem_of_setAdd in Hv as [->|?]; [done|by apply Hrv].
    + intros v Hv. apply elem_of_app in Hv as [Hv|Hv].
      * apply list_elem_of_filter in Hv as [_ Hv]. by apply (rtc_r _ c).
      * apply Hrs. rewrite Hst. by right.
    + intros v n Hv Hn'. rewrite elem_of_setAdd, elem_of_app.
      destruct (decide (n ∈ Js.setAdd c (dfs.visited (loc st)))) as [Hin|Hin].
      { left. by apply elem_of_setAdd. }
      apply elem_of_setAdd in Hv as [->|Hv].
      * right. left. by apply list_elem_of_filter.
      * destruct (Hcl v n Hv Hn') as [?|Hs']; [by left; right|].
        rewrite Hst in Hs'. apply elem_of_cons in Hs' as [->|?]; [by left; left|by right; right].
    + rewrite Hm1. unfold st1. run_simpl. rewrite length_setAdd by done. lia.
    + intros v Hv Hv'. rewrite elem_of_setAdd in Hv. rewrite not_elem_of_app in Hv'.
      destruct Hv' as [Hv1 Hv2].
      rewrite lookup_insert_ne by (intros E'; apply Hv; by left).
      rewrite Hn1.
      * unfold st1. run_simpl. rewrite lookup_insert_ne by (intros E'; apply Hv; by left).
        apply Hn; [tauto|]. rewrite Hst, not_elem_of_cons. split; [|done].
        intros E'. apply Hv. by left.
      * rewrite fmap_reverse, elem_of_reverse. intros Hin. apply Hv1.
        apply list_elem_of_filter. split; [|done]. by rewrite elem_of_setAdd.
Qed.

Lemma dfs_while_inv fuel st st' :
  dfsInv st → dfs.while fuel graph adj st = Returned st' →
  dfsInv st' ∧ dfs.stack (loc st') = [].
Proof.
  revert st. induction fuel as [|fuel IH]; intros st Hinv H; simpl in H.
  - destruct (dfs.stack (loc st)) eqn:E; [|done]. by apply Returned_inj in H as <-.
  - destruct (dfs.stack (loc st)) as [|c rest] eqn:E; [by apply Returned_inj in H as <-|].
    eapply IH; [|done]. by apply dfs_turn_inv.
Qed.

Lemma dfs_start_inv : dfsInv (dfs.start graph start).
Proof.
  unfold dfsInv, dfs.start. run_simpl. repeat split.
  - right. by left.
  - constructor.
  - intros v Hv. by apply elem_of_nil in Hv.
  - intros v Hv. apply list_elem_of_singleton in Hv as ->. apply rtc_refl.
  - intros v n Hv. by apply elem_of_nil in Hv.
  - intros v _ Hv. rewrite lookup_insert_ne; [done|]. intros ->. apply Hv. by left.
Qed.
End dfs_reaches.

(** X16. From a start node (with an id that is not the empty string)
    [executeDFS] returns a trace whose last step shows, as visited, each id
    reachable from the start along the adjacency list exactly once and no
    other id; [nodesVisited] is their number, they are [in_solution], and
    every other id has kept its initial state. *)
Theorem executeDFS_visits_reachable graph params start n :
  startNodeId params = Some start → start ≠ "" → getNode graph start = Some n →
  ∃ steps, dfs.executeDFS graph params = Returned steps ∧ visitsReachable graph start steps.
Proof.
  intros Hp Hs Hn. destruct (executeDFS_returns graph params) as [steps Hsteps].
  exists steps. split; [done|].
  unfold dfs.executeDFS in Hsteps. rewrite Hp in Hsteps. simpl in Hsteps.
  rewrite bool_decide_eq_false_2 in Hsteps by done. rewrite Hn in Hsteps.
  apply bind_Returned in Hsteps as (st & Hw & Hsteps). apply Returned_inj in Hsteps as <-.
  destruct (dfs_while_inv graph start _ _ _ (dfs_start_inv graph start) Hw)
    as ((H1 & H2 & H3 & H4 & H5 & H6 & H7) & Hq).
  rewrite Hq in *.
  unfold visitsReachable, dfs.finish. cbv zeta. simpl.
  eexists _, (dfs.visited (loc st)). rewrite last_snoc.
  split; [done|]. split; [done|]. split; [|split; [|split]].
  - intros v. split; [apply H3|]. apply closed_reachable.
    + destruct H1 as [?|H1]; [done|]. by apply elem_of_nil in H1.
    + intros u Hu m Hm. destruct (H5 u m Hu Hm) as [?|Hm']; [done|]. by apply elem_of_nil in Hm'.
  - unfold viewOf. run_simpl. done.
  - run_simpl. done.
  - intros v. run_simpl. rewrite nodes_foldl_setNode.
    case_decide as Hv; [done|]. rewrite H7; [apply initial_nodeStates|done|apply not_elem_of_nil].
Qed.

Lemma executeDFS_visits_reachable_witness :
  startNodeId (from "A") = Some "A" ∧ "A" ≠ "" ∧ getNode triangle "A" = Some (node "A") ∧
  ∃ steps, dfs.executeDFS triangle (from "A") = Returned steps ∧ visitsReachable triangle "A" steps.
Proof.
  split; [reflexivity|]. split; [discriminate|]. split; [reflexivity|].
  apply (executeDFS_visits_reachable triangle (from "A") "A" (node "A"));
    [reflexivity|discriminate|reflexivity].
Defined.

(** [result] when the loop of [executeTopologicalSort] is left. *)
Definition topologicalOrder (graph : Graph) : Outcome (list string) :=
  st ← topological.while (topological.fuelFor graph) graph (topological.start graph);
  Returned (topological.result (loc st)).

(** In [result], the target of an edge comes after its source. *)
Definition respectsEdges (graph : Graph) (result : list string) : Prop :=
  ∀ e j, e ∈ edges graph → result !! j = Some (target e) →
         ∃ i, i < j ∧ result !! i = Some (source e).

(** What the last step of the topological sort shows. *)
Definition sortsTopologically (graph : Graph) (steps : list AlgorithmStep) : Prop :=
  ∃ final result,
    last steps = Some final ∧ topologicalOrder graph = Returned result ∧
    viewOf final "result" = Some (VLabels (labelOf graph <$> result)) ∧
    NoDup result ∧ (∀ v, v ∈ result → v ∈ node_id <$> nodes graph) ∧
    respectsEdges graph result ∧
    (currentOperation final = [T "Complete"] ↔ result ≡ₚ node_id <$> nodes graph) ∧
    (currentOperation final = [T "Cycle Detected"] ↔ length result < length (nodes graph)).

(** ** The topological sort puts sources first *)

Section topological_order.
Context (graph : Graph).
Context (Hids : NoDup (node_id <$> nodes graph)).
Import topological.

(** The edges into [v] whose source is not in [R] yet. *)
Definition pending (R : list string) (v : string) : Z :=
  Z.of_nat (length (filter (fun e => target e = v ∧ source e ∉ R) (edges graph))).

Definition countTo (v : string) (es : list Edge) : Z :=
  Z.of_nat (length (filter (fun e => target e = v) es)).

Definition sourcesIn (R : list string) (v : string) : Prop :=
  ∀ e, e ∈ edges graph → target e = v → source e ∈ R.

Definition headInv (l : Locals) : Prop :=
  NoDup (result l ++ queue l) ∧
  (∀ v, degreeOf l v = pending (result l) v) ∧
  (∀ v, v ∈ result l ++ queue l → sourcesIn (result l) v) ∧
  respectsEdges graph (result l) ∧
  (∀ v, v ∈ result l → v ∈ node_id <$> nodes graph).

(** The locals after [release] of an edge into [v]. *)
Definition released (l : Locals) (v : string) : Locals :=
  let newDegree := (degreeOf l v - 1)%Z in
  mkLocals (<[v := newDegree]> (inDegree l))
           (if bool_decide (newDegree = 0%Z) then queue l ++ [v] else queue l)
           (result l).

Lemma release_loc st e st' :
  release graph st e = Returned st' → loc st' = released (loc st) (target e).
Proof.
  unfold release, released. destruct (getNode graph (target e)); [|done]. cbv zeta.
  loc_simpl. case_bool_decide; intros Hr; apply Returned_inj in Hr as <-; by loc_simpl.
Qed.

Lemma degreeOf_released l v u :
  degreeOf (released l v) u = if decide (u = v) then (degreeOf l v - 1)%Z else degreeOf l u.
Proof.
  unfold released, degreeOf. simpl. case_decide as E.
  - subst. by rewrite lookup_insert_eq.
  - by rewrite lookup_insert_ne.
Qed.

Lemma countTo_snoc v es e :
  countTo v (es ++ [e]) = (countTo v es + if decide (target e = v) then 1 else 0)%Z.
Proof.
  unfold countTo. rewrite filter_app, length_app, filter_cons, filter_nil.
  case_decide; simpl; lia.
Qed.

Lemma countTo_prefix v es1 es2 : (countTo v es1 ≤ countTo v (es1 ++ es2))%Z.
Proof. unfold countTo. rewrite filter_app, length_app. lia. Qed.

Lemma length_filter_same {A} (P Q : A → Prop) `{!∀ x, Decision (P x)} `{!∀ x, Decision (Q x)}
    (l : list A) :
  (∀ x, x ∈ l → Q x → P x) → length (filter P l) ≤ length (filter Q l) →
  ∀ x, x ∈ l → P x → Q x.
Proof.
  intros Himp Hle x Hx HP. destruct (decide (Q x)) as [|HQ]; [done|].
  pose proof (length_filter_lt P Q l x Himp Hx HP HQ). lia.
Qed.

(** The edges out of [c] into [v] are the pending edges into [v] that stop
    pending when [c] is output. *)
Lemma pending_snoc R c v :
  c ∉ R →
  pending R v = (pending (R ++ [c]) v +
                 countTo v (filter (fun e => source e = c) (edges graph)))%Z.
Proof.
  intros Hc. unfold pending, countTo. induction (edges graph) as [|e es IH]; [done|].
  rewrite !filter_cons.
  destruct (decide (source e = c)) as [Hs|Hs].
  - rewrite (decide_False (P := target e = v ∧ source e ∉ R ++ [c]))
      by (rewrite Hs, elem_of_app, list_elem_of_singleton; tauto).
    rewrite filter_cons. destruct (decide (target e = v)) as [Ht|Ht].
    + rewrite decide_True by (rewrite Hs; done). simpl. lia.
    + rewrite decide_False by tauto. lia.
  - destruct (decide (target e = v ∧ source e ∉ R)) as [[Ht Hr]|Hn].
    + rewrite decide_True
        by (split; [done|]; rewrite elem_of_app, list_elem_of_singleton; tauto).
      simpl. lia.
    + rewrite decide_False; [lia|]. rewrite elem_of_app, list_elem_of_singleton. tauto.
Qed.

Section one_turn.
Context (c : string) (result0 rest : list string).
Context (Hnd : NoDup (result0 ++ c :: rest)).
Context (Hsrc : ∀ v, v ∈ result0 ++ c :: rest → sourcesIn result0 v).
Let outE := filter (fun e => source e = c) (edges graph).

Definition midInv (done : list Edge) (l : Locals) : Prop :=
  result l = result0 ++ [c] ∧
  ∃ added, queue l = rest ++ added ∧ NoDup added ∧
    (∀ v, v ∈ added →
          (v ∉ result0 ++ c :: rest) ∧ (degreeOf l v ≤ 0)%Z ∧ sourcesIn (result0 ++ [c]) v) ∧
    (∀ v, degreeOf l v = (pending result0 v - countTo v done)%Z).

Lemma c_not_output : c ∉ result0.
Proof. apply NoDup_app in Hnd as (_ & H & _). intros Hc. apply (H c Hc). by left. Qed.

Lemma midInv_step done e todo l :
  done ++ e :: todo = outE → midInv done l → midInv (done ++ [e]) (released l (target e)).
Proof.
  intros Hout (Hres & added & Hq & Hadd & Hprop & Hdeg).
  assert (e ∈ outE) as He by (rewrite <- Hout, elem_of_app; right; by left).
  apply list_elem_of_filter in He as [Hse He].
  split; [done|].
  assert (∀ v, degreeOf (released l (target e)) v =
               (pending result0 v - countTo v (done ++ [e]))%Z) as Hdeg'.
  { intros v. rewrite degreeOf_released, countTo_snoc, !Hdeg.
    destruct (decide (v = target e)) as [->|Hne].
    - rewrite decide_True by done. lia.
    - rewrite decide_False by done. lia. }
  unfold released at 1. simpl. case_bool_decide as H0.
  - exists (added ++ [target e]). split; [by rewrite Hq, app_assoc|].
    assert (target e ∉ result0 ++ c :: rest) as Hfresh.
    { intros Hin. pose proof (Hsrc _ Hin e He eq_refl) as Hs. rewrite Hse in Hs.
      by apply c_not_output. }
    assert (target e ∉ added) as Hnew.
    { intros Hin. destruct (Hprop _ Hin) as (_ & Hle & _). lia. }
    split; [|split; [|done]].
    + apply NoDup_app. split; [done|]. split; [|apply NoDup_singleton].
      intros x Hx Hx'. apply list_elem_of_singleton in Hx' as ->. done.
    + intros v Hv. apply elem_of_app in Hv as [Hv|Hv].
      * destruct (Hprop v Hv) as (H1 & H2 & H3). split; [done|]. split; [|done].
        rewrite degreeOf_released. case_decide as Ev; [rewrite <- Ev|]; lia.
      * apply list_elem_of_singleton in Hv as ->. split; [done|]. split.
        { rewrite degreeOf_released, decide_True by done. lia. }
        (* every edge into the target that was pending comes out of [c] *)
        assert (pending result0 (target e) ≤ countTo (target e) outE)%Z as Hle.
        { pose proof (countTo_prefix (target e) (done ++ [e]) todo) as Hp.
          rewrite <- app_assoc in Hp. simpl in Hp. rewrite Hout in Hp.
          pose proof (Hdeg' (target e)) as Hd.
          rewrite degreeOf_released, decide_True in Hd by done. lia. }
        intros e' He' Ht'. rewrite elem_of_app, list_elem_of_singleton.
        destruct (decide (source e' ∈ result0)) as [|Hn]; [by left|]. right.
        unfold pending, countTo, outE in Hle. rewrite list_filter_filter in Hle.
        apply Nat2Z.inj_le in Hle.
        refine (proj2 (length_filter_same _ _ (edges graph) _ Hle e' He' (conj Ht' Hn))).
        intros x _ [Hx1 Hx2]. split; [done|]. rewrite Hx2. apply c_not_output.
  - exists added. split; [done|]. split; [done|]. split; [|done].
    intros v Hv. destruct (Hprop v Hv) as (H1 & H2 & H3). split; [done|]. split; [|done].
    rewrite degreeOf_released. case_decide as Ev; [rewrite <- Ev|]; lia.
Qed.

Lemma midInv_all todo done st st' :
  done ++ todo = outE → midInv done (loc st) →
  forEach (release graph) st todo = Returned st' → midInv outE (loc st').
Proof.
  revert done st. induction todo as [|e todo IH]; intros done st Hout Hinv H; simpl in H.
  - apply Returned_inj in H as <-. by rewrite app_nil_r in Hout; subst.
  - apply bind_Returned in H as (st1 & H1 & H).
    apply (IH (done ++ [e]) st1); [by rewrite <- app_assoc| |done].
    rewrite (release_loc _ _ _ H1). by eapply midInv_step.
Qed.
End one_turn.

Lemma turn_headInv c rest st st' :
  queue (loc st) = c :: rest → headInv (loc st) →
  turn graph c rest st = Returned st' → headInv (loc st').
Proof.
  intros Hq (Hnd & Hdeg & Hsrc & Hresp & Hnodes) H. rewrite Hq in *.
  unfold turn in H. cbv zeta in H. destruct (getNode graph c) as [cn|] eqn:Ec; [|done].
  apply bind_Returned in H as (st1 & H1 & H). apply Returned_inj in H as <-.
  apply (midInv_all c (result (loc st)) rest Hnd Hsrc _ [] _ _ eq_refl) in H1.
  - destruct H1 as (Hres & added & Hq' & Hadd & Hprop & Hdeg').
    pose proof (c_not_output c _ _ Hnd) as Hc.
    unfold headInv. loc_simpl. rewrite Hres, Hq'.
    assert ((result (loc st) ++ [c]) ++ rest ++ added = (result (loc st) ++ c :: rest) ++ added)
      as Hre by (by rewrite <- !app_assoc).
    rewrite Hre. repeat split.
    + apply NoDup_app. split; [done|]. split; [|done].
      intros x Hx Hx'. by destruct (Hprop x Hx') as (Hn & _).
    + intros v. rewrite Hdeg'. rewrite (pending_snoc _ c v Hc). lia.
    + intros v Hv. apply elem_of_app in Hv as [Hv|Hv].
      * intros e He Ht. rewrite elem_of_app. left. by apply (Hsrc v Hv).
      * by destruct (Hprop v Hv) as (_ & _ & Hs).
    + intros e j He Hj. destruct (decide (j < length (result (loc st)))) as [Hlt|Hge].
      * rewrite lookup_app_l in Hj by done. destruct (Hresp e j He Hj) as (i & Hi & Hi').
        exists i. split; [done|]. rewrite lookup_app_l by lia. done.
      * apply lookup_lt_Some in Hj as Hlen. rewrite length_app in Hlen. simpl in Hlen.
        rewrite lookup_app_r in Hj by lia.
        replace (j - length (result (loc st))) with 0 in Hj by lia. simpl in Hj.
        injection Hj as Hj.
        assert (source e ∈ result (loc st)) as Hs.
        { apply (Hsrc c); [|done|done]. rewrite elem_of_app. right. by left. }
        apply list_elem_of_lookup in Hs as [i Hi]. exists i.
        apply lookup_lt_Some in Hi as Hlt. split; [lia|]. by rewrite lookup_app_l.
    + intros v Hv. apply elem_of_app in Hv as [Hv|Hv]; [by apply Hnodes|].
      apply list_elem_of_singleton in Hv as ->. apply getNode_Some in Ec as [Hin <-].
      by apply list_elem_of_fmap_2.
  - split; [by loc_simpl|]. exists []. loc_simpl. split; [by rewrite app_nil_r|].
    split; [constructor|]. split; [intros v Hv; by apply elem_of_nil in Hv|].
    intros v. unfold degreeOf in *. simpl. rewrite Hdeg. unfold countTo. simpl. lia.
Qed.

Lemma while_headInv fuel st st' :
  headInv (loc st) → while fuel graph st = Returned st' →
  headInv (loc st') ∧ queue (loc st') = [].
Proof.
  revert st. induction fuel as [|fuel IH]; intros st Hinv H; simpl in H.
  - destruct (queue (loc st)) eqn:E; [|done]. by apply Returned_inj in H as <-.
  - destruct (queue (loc st)) as [|c rest] eqn:E; [by apply Returned_inj in H as <-|].
    apply bind_Returned in H as (st1 & H1 & H).
    eapply IH; [|done]. by eapply turn_headInv.
Qed.

Lemma counted_degree (m : gmap string Z) es v :
  default 0%Z (foldl (fun m edge => <[target edge := (default 0%Z (m !! target edge) + 1)%Z]> m)
                 m es !! v) =
  (default 0%Z (m !! v) + countTo v es)%Z.
Proof.
  revert m. induction es as [|e es IH]; intros m; simpl; [unfold countTo; simpl; lia|].
  rewrite IH. unfold countTo. rewrite filter_cons.
  destruct (decide (target e = v)) as [->|Hne].
  - rewrite lookup_insert_eq. simpl. lia.
  - rewrite lookup_insert_ne by done. lia.
Qed.

Lemma zeros_degree (ns : list Node) (m : gmap string Z) v :
  default 0%Z (m !! v) = 0%Z →
  default 0%Z (foldl (fun m n => <[node_id n := 0%Z]> m) m ns !! v) = 0%Z.
Proof.
  revert m. induction ns as [|n ns IH]; intros m Hm; simpl; [done|]. apply IH.
  destruct (decide (node_id n = v)) as [->|Hne].
  - by rewrite lookup_insert_eq.
  - by rewrite lookup_insert_ne.
Qed.

Lemma start_queue (ns : list Node) (st : St Locals) :
  loc (foldl (fun st n =>
                if bool_decide (inDegree (loc st) !! node_id n = Some 0%Z) then
                  let st := onLoc (fun l => mkLocals (inDegree l) (queue l ++ [node_id n]) (result l)) st in
                  setNode (node_id n) NodeState.VISITING st
                else st) st ns) =
  mkLocals (inDegree (loc st))
    (queue (loc st) ++ filter (fun id => inDegree (loc st) !! id = Some 0%Z) (node_id <$> ns))
    (result (loc st)).
Proof.
  revert st. induction ns as [|n ns IH]; intros st; simpl.
  - rewrite app_nil_r. by destruct (loc st).
  - rewrite IH. rewrite filter_cons. case_bool_decide as E; simpl.
    + rewrite decide_True by done. by rewrite <- app_assoc.
    + by rewrite decide_False.
Qed.

Lemma start_headInv : headInv (loc (start graph)).
Proof.
  unfold start. cbv zeta. loc_simpl. rewrite start_queue. loc_simpl.
  set (counted := foldl _ (foldl _ ∅ (nodes graph)) (edges graph)).
  assert (∀ v, default 0%Z (counted !! v) = pending [] v) as Hdeg.
  { intros v. unfold counted. rewrite counted_degree, zeros_degree by done.
    unfold pending, countTo. rewrite Z.add_0_l. f_equal. f_equal. apply list_filter_iff.
    intros e. split; [intros ?; split; [done|apply not_elem_of_nil]|by intros [? _]]. }
  unfold headInv. simpl. repeat split.
  - by apply NoDup_filter.
  - apply Hdeg.
  - intros v Hv. apply list_elem_of_filter in Hv as [Hv _].
    intros e He Ht. exfalso.
    assert (pending [] v = 0%Z) as Hp by (rewrite <- Hdeg, Hv; done).
    unfold pending in Hp.
    assert (e ∈ filter (fun e => target e = v ∧ source e ∉ []) (edges graph)) as Hin.
    { apply list_elem_of_filter. split; [|done]. split; [done|apply not_elem_of_nil]. }
    destruct (filter _ (edges graph)); [by apply elem_of_nil in Hin|simpl in Hp; lia].
  - intros e j He Hj. by rewrite lookup_nil in Hj.
  - intros v Hv. by apply elem_of_nil in Hv.
Qed.
End topological_order.

(** X17. On a directed graph whose node ids are distinct, the trace of
    [executeTopologicalSort] ends with a step showing a result in which no
    id is repeated, every id is a node, and the target of an edge never comes
    before (or without) the source of the edge; the step is "Complete"
    exactly when the result holds all the nodes, and "Cycle Detected" exactly
    when it is shorter. *)
Theorem executeTopologicalSort_respects_edges graph params :
  directed graph = true → NoDup (node_id <$> nodes graph) →
  finished (topological.executeTopologicalSort graph params) (sortsTopologically graph).
Proof.
  intros Hd Hids.
  destruct (topological.executeTopologicalSort graph params) as [steps| |] eqn:H; simpl;
    [|done|by apply executeTopologicalSort_finishes in H].
  unfold topological.executeTopologicalSort in H. rewrite Hd in H. simpl in H.
  apply bind_Returned in H as (st & Hw & H). apply Returned_inj in H as <-.
  destruct (while_headInv graph _ _ _ (start_headInv graph Hids) Hw)
    as ((Hnd & Hdeg & Hsrc & Hresp & Hnodes) & Hq).
  rewrite Hq, app_nil_r in Hnd.
  assert (length (topological.result (loc st)) ≤ length (nodes graph)) as Hlen.
  { rewrite <- (length_fmap node_id). apply submseteq_length, NoDup_submseteq; done. }
  unfold sortsTopologically, topologicalOrder. rewrite Hw. simpl.
  unfold topological.finish. cbv zeta. case_bool_decide as Hlt; simpl; rewrite last_snoc;
    eexists _, _; (do 6 (split; [done|])); simpl; (split; split).
  - intros [=].
  - intros Hperm. apply Permutation_length in Hperm. rewrite length_fmap in Hperm. lia.
  - done.
  - done.
  - intros _. apply submseteq_length_Permutation.
    + by apply NoDup_submseteq.
    + rewrite length_fmap. lia.
  - done.
  - intros [=].
  - intros. lia.
Qed.

Lemma executeTopologicalSort_respects_edges_witness :
  directed dagABC = true ∧ NoDup (node_id <$> nodes dagABC) ∧
  ∃ steps, topological.executeTopologicalSort dagABC noParams = Returned steps ∧
           sortsTopologically dagABC steps.
Proof.
  split; [reflexivity|].
  assert (NoDup (node_id <$> nodes dagABC)) as Hnd.
  { refine (bool_decide_unpack _ _). by vm_compute. }
  split; [exact Hnd|].
  pose proof (executeTopologicalSort_respects_edges dagABC noParams eq_refl Hnd) as H.
  destruct (returns_Returned (topological.executeTopologicalSort dagABC noParams)) as [steps E];
    [vm_compute; reflexivity|].
  rewrite E in H. exists steps. split; [exact E|exact H].
Defined.

(** [r] is the root that the parents of [x] lead to. *)
Inductive rootOf (uf : UnionFind.t) : UnionFind.key → UnionFind.key → Prop :=
| rootOf_here x : UnionFind.parentOf uf x = x → rootOf uf x x
| rootOf_up x r :
    UnionFind.parentOf uf x ≠ x → rootOf uf (UnionFind.parentOf uf x) r → rootOf uf x r.

(** The union-finds that the constructor builds and [n] calls of [union]
    (and any calls of [find]) have changed; [fuel] bounds the depth of the
    calls of [find]. *)
Inductive built (nodes : list string) : nat → UnionFind.t → Prop :=
| built_new : built nodes 0 (UnionFind.new nodes)
| built_find n uf fuel x r uf' :
    built nodes n uf → n + 1 < fuel →
    UnionFind.find fuel x uf = Returned (r, uf') → built nodes n uf'
| built_union n uf fuel x y joined uf' :
    built nodes n uf → n + 1 < fuel →
    UnionFind.union fuel x y uf = Returned (joined, uf') → built nodes (S n) uf'.

(** ** UnionFind: roots *)

Lemma rootOf_root uf x r : rootOf uf x r → UnionFind.parentOf uf r = r.
Proof. induction 1; done. Qed.

Lemma rootOf_functional uf x r r' : rootOf uf x r → rootOf uf x r' → r = r'.
Proof.
  intros H. revert r'. induction H as [x Hx|x r Hx H IH]; intros r' H'.
  - by inversion H'; subst.
  - inversion H'; subst; [done|]. by apply IH.
Qed.

(** Pointing [x] at its root changes no root. *)
Lemma rootOf_compress uf x r k r' :
  rootOf uf x r → rootOf uf k r' →
  rootOf (UnionFind.mk (<[x := r]> (UnionFind.parent uf)) (UnionFind.rank uf)) k r'.
Proof.
  intros Hx Hk. pose proof (rootOf_root _ _ _ Hx) as Hroot.
  induction Hk as [k Hk|k r' Hk H IH].
  - apply rootOf_here. rewrite parentOf_insert. case_decide as E; [|done].
    subst k. inversion Hx; subst; done.
  - destruct (decide (k = x)) as [->|Hkx].
    + assert (r' = r) as ->.
      { apply (rootOf_functional uf x); [by apply rootOf_up|done]. }
      assert (r ≠ x) as Hne by (intros ->; done).
      apply rootOf_up; rewrite parentOf_insert, decide_True by done; [done|].
      apply rootOf_here. by rewrite parentOf_insert, decide_False.
    + apply rootOf_up; rewrite parentOf_insert, decide_False by done; done.
Qed.

(** ... and creates none. *)
Lemma rootOf_compress_rev uf x r k r' :
  rootOf uf x r →
  rootOf (UnionFind.mk (<[x := r]> (UnionFind.parent uf)) (UnionFind.rank uf)) k r' →
  rootOf uf k r'.
Proof.
  intros Hx Hk. pose proof (rootOf_root _ _ _ Hx) as Hroot.
  induction Hk as [k Hk|k r' Hk H IH]; rewrite parentOf_insert in Hk.
  - case_decide as E; [|by apply rootOf_here]. by subst.
  - rewrite parentOf_insert in H, IH. case_decide as E.
    + subst k. assert (r' = r) as -> by (apply (rootOf_functional uf r); [done|by apply rootOf_here]).
      done.
    + by apply rootOf_up.
Qed.

(** Hanging the root [a] under the root [b] moves the keys of [a] to [b]. *)
Lemma rootOf_link uf a b rk k r :
  UnionFind.parentOf uf a = a → UnionFind.parentOf uf b = b → a ≠ b →
  rootOf uf k r →
  rootOf (UnionFind.mk (<[a := b]> (UnionFind.parent uf)) rk) k (if decide (r = a) then b else r).
Proof.
  intros Ha Hb Hab Hk. induction Hk as [k Hk|k r Hk H IH].
  - destruct (decide (k = a)) as [->|Hne].
    + apply rootOf_up; rewrite parentOf_insert, decide_True by done; [done|].
      apply rootOf_here. by rewrite parentOf_insert, decide_False.
    + apply rootOf_here. by rewrite parentOf_insert, decide_False.
  - assert (k ≠ a) by congruence.
    apply rootOf_up; rewrite parentOf_insert, decide_False by done; done.
Qed.

Lemma UnionFind_find_root fuel x uf r uf' :
  UnionFind.find fuel x uf = Returned (r, uf') →
  rootOf uf x r ∧ (∀ k r', rootOf uf k r' ↔ rootOf uf' k r') ∧
  UnionFind.parentOf uf' x = r.
Proof.
  revert x uf r uf'. induction fuel as [|fuel IH]; intros x uf r uf' H; [done|]. simpl in H.
  case_bool_decide as Hx.
  - apply bind_Returned in H as ([r1 uf1] & H1 & H). simpl in H.
    apply Returned_inj in H. injection H as <- <-.
    destruct (IH _ _ _ _ H1) as (Hroot & Hkeep & _).
    assert (rootOf uf x r1) as Hxr by by apply rootOf_up.
    rewrite parentOf_insert, decide_True by done.
    split; [done|]. split; [|done].
    intros k r'. rewrite Hkeep. split.
    + apply rootOf_compress. by apply Hkeep.
    + apply rootOf_compress_rev. by apply Hkeep.
  - apply Returned_inj in H. injection H as <- <-.
    assert (UnionFind.parentOf uf x = x) as E by (by destruct (decide (UnionFind.parentOf uf x = x))).
    rewrite E. split; [by apply rootOf_here|]. done.
Qed.

Lemma UnionFind_find_no_throw fuel x uf : UnionFind.find fuel x uf ≠ Threw.
Proof.
  revert x uf. induction fuel as [|fuel IH]; intros x uf; [done|]. simpl.
  case_bool_decide; [|done].
  specialize (IH (UnionFind.parentOf uf x) uf).
  by destruct (UnionFind.find fuel (UnionFind.parentOf uf x) uf) as [[r1 uf1]| |].
Qed.

Lemma UnionFind_union_no_throw fuel x y uf : UnionFind.union fuel x y uf ≠ Threw.
Proof.
  unfold UnionFind.union. pose proof (UnionFind_find_no_throw fuel x uf) as H1.
  destruct (UnionFind.find fuel x uf) as [[rx uf1]| |]; [|done..]. simpl.
  pose proof (UnionFind_find_no_throw fuel y uf1) as H2.
  destruct (UnionFind.find fuel y uf1) as [[ry uf2]| |]; [|done..]. simpl.
  repeat case_bool_decide; done.
Qed.

Lemma UnionFind_union_roots fuel x y uf joined uf' :
  UnionFind.union fuel x y uf = Returned (joined, uf') →
  ∃ rx ry r, rootOf uf x rx ∧ rootOf uf y ry ∧ (joined = false ↔ rx = ry) ∧
    (r = rx ∨ r = ry) ∧
    ∀ k r', rootOf uf k r' → rootOf uf' k (if decide (r' = rx ∨ r' = ry) then r else r').
Proof.
  unfold UnionFind.union. intros H.
  apply bind_Returned in H as ([rx uf1] & H1 & H). simpl in H.
  apply bind_Returned in H as ([ry uf2] & H2 & H). simpl in H.
  destruct (UnionFind_find_root _ _ _ _ _ H1) as (Hx & Hk1 & _).
  destruct (UnionFind_find_root _ _ _ _ _ H2) as (Hy1 & Hk2 & _).
  assert (∀ k r', rootOf uf k r' → rootOf uf2 k r') as Hk by (intros; by apply Hk2, Hk1).
  assert (rootOf uf y ry) as Hy by by apply Hk1.
  pose proof (rootOf_root _ _ _ (Hk _ _ Hx)) as Hrx.
  pose proof (rootOf_root _ _ _ (Hk _ _ Hy)) as Hry.
  exists rx, ry.
  case_bool_decide as Exy.
  { apply Returned_inj in H. injection H as <- <-. exists rx. repeat (split; [done|]).
    split; [by left|]. intros k r' Hr. case_decide as E; [|by apply Hk].
    assert (r' = rx) as <- by (destruct E; congruence). by apply Hk. }
  assert (∀ k r', rootOf uf k r' →
            rootOf (UnionFind.mk (<[rx := ry]> (UnionFind.parent uf2)) (UnionFind.rank uf2)) k
                   (if decide (r' = rx ∨ r' = ry) then ry else r')) as Hxy.
  { intros k r' Hr. pose proof (rootOf_link uf2 rx ry (UnionFind.rank uf2) k r' Hrx Hry Exy
                                  (Hk _ _ Hr)) as Hl.
    repeat case_decide; try done; intuition congruence. }
  assert (∀ rk k r', rootOf uf k r' →
            rootOf (UnionFind.mk (<[ry := rx]> (UnionFind.parent uf2)) rk) k
                   (if decide (r' = rx ∨ r' = ry) then rx else r')) as Hyx.
  { intros rk k r' Hr.
    pose proof (rootOf_link uf2 ry rx rk k r' Hry Hrx (not_eq_sym Exy) (Hk _ _ Hr)) as Hl.
    repeat case_decide; try done; intuition congruence. }
  cbv zeta in H. case_bool_decide; [|case_bool_decide];
    apply Returned_inj in H; injection H as <- <-.
  - exists ry. split; [done|]. split; [done|]. split; [done|]. split; [by right|done].
  - exists rx. split; [done|]. split; [done|]. split; [done|]. split; [by left|apply Hyx].
  - exists rx. split; [done|]. split; [done|]. split; [done|]. split; [by left|apply Hyx].
Qed.

Lemma built_ok nodes n uf : built nodes n uf → ∃ potential, ufOk potential (n + 1) uf.
Proof.
  induction 1 as [|n uf fuel x r uf' Hb [potential IH] Hfuel Hf
                  |n uf fuel x y joined uf' Hb [potential IH] Hfuel Hu].
  - eexists. apply UnionFind_new_ok.
  - exists potential.
    pose proof (UnionFind_find_finishes potential (n + 1) fuel x uf IH ltac:(lia)) as Hfin.
    rewrite Hf in Hfin. simpl in Hfin. tauto.
  - pose proof (UnionFind_union_finishes potential (n + 1) fuel x y uf IH ltac:(lia)) as Hfin.
    rewrite Hu in Hfin. simpl in Hfin. destruct Hfin as [potential' Hok].
    exists potential'. replace (S n + 1) with (n + 1 + 1) by lia. done.
Qed.

(** X18. In a union-find that the constructor and [n] unions have built,
    [find] returns (with a call depth of [n + 2]) the root of its argument:
    the key that the parents lead to and that is its own parent. The path
    compression leaves the root of every key as it was, and the argument
    points at its root afterwards. *)
Theorem UnionFind_find_returns_root nodes n uf fuel x :
  built nodes n uf → n + 1 < fuel →
  ∃ r uf', UnionFind.find fuel x uf = Returned (r, uf') ∧
    rootOf uf x r ∧ UnionFind.parentOf uf' r = r ∧ UnionFind.parentOf uf' x = r ∧
    ∀ k r', rootOf uf k r' ↔ rootOf uf' k r'.
Proof.
  intros Hb Hfuel. destruct (built_ok _ _ _ Hb) as [potential Hok].
  pose proof (UnionFind_find_finishes potential (n + 1) fuel x uf Hok ltac:(lia)) as Hfin.
  pose proof (UnionFind_find_no_throw fuel x uf) as Hthrow.
  destruct (UnionFind.find fuel x uf) as [[r uf']| |] eqn:E; simpl in Hfin; [|done..].
  exists r, uf'. split; [done|].
  destruct (UnionFind_find_root _ _ _ _ _ E) as (H1 & H2 & H3).
  split; [done|]. split; [|done].
  apply (rootOf_root uf' x). by apply H2.
Qed.

Lemma UnionFind_find_returns_root_witness :
  built ["A"; "B"] 0 (UnionFind.new ["A"; "B"]) ∧ 0 + 1 < 2 ∧
  ∃ r uf', UnionFind.find 2 (Some "A") (UnionFind.new ["A"; "B"]) = Returned (r, uf') ∧
           rootOf (UnionFind.new ["A"; "B"]) (Some "A") r.
Proof.
  split; [constructor|]. split; [lia|].
  destruct (UnionFind_find_returns_root ["A"; "B"] 0 (UnionFind.new ["A"; "B"]) 2 (Some "A"))
    as (r & uf' & H1 & H2 & _); [constructor|lia|].
  by exists r, uf'.
Defined.

(** X19. In such a union-find, [union] returns [false] exactly when its two
    arguments have the same root already; afterwards the two arguments have
    the same root, one of their two former roots, to which every key of the
    two sets leads, and the root of every other key is as it was. *)
Theorem UnionFind_union_joins nodes n uf fuel x y :
  built nodes n uf → n + 1 < fuel →
  ∃ joined uf' rx ry r,
    UnionFind.union fuel x y uf = Returned (joined, uf') ∧
    rootOf uf x rx ∧ rootOf uf y ry ∧ (joined = false ↔ rx = ry) ∧ (r = rx ∨ r = ry) ∧
    rootOf uf' x r ∧ rootOf uf' y r ∧
    ∀ k r', rootOf uf k r' → rootOf uf' k (if decide (r' = rx ∨ r' = ry) then r else r').
Proof.
  intros Hb Hfuel. destruct (built_ok _ _ _ Hb) as [potential Hok].
  pose proof (UnionFind_union_finishes potential (n + 1) fuel x y uf Hok ltac:(lia)) as Hfin.
  pose proof (UnionFind_union_no_throw fuel x y uf) as Hthrow.
  destruct (UnionFind.union fuel x y uf) as [[joined uf']| |] eqn:E; simpl in Hfin; [|done..].
  destruct (UnionFind_union_roots _ _ _ _ _ _ E) as (rx & ry & r & Hx & Hy & Hj & Hr & Hall).
  exists joined, uf', rx, ry, r. repeat (split; [done|]).
  split; [|split; [|done]].
  - pose proof (Hall _ _ Hx) as H. by rewrite decide_True in H by by left.
  - pose proof (Hall _ _ Hy) as H. by rewrite decide_True in H by by right.
Qed.

Lemma UnionFind_union_joins_witness :
  built ["A"; "B"] 0 (UnionFind.new ["A"; "B"]) ∧ 0 + 1 < 2 ∧
  ∃ joined uf' r,
    UnionFind.union 2 (Some "A") (Some "B") (UnionFind.new ["A"; "B"]) = Returned (joined, uf') ∧
    rootOf uf' (Some "A") r ∧ rootOf uf' (Some "B") r.
Proof.
  split; [constructor|]. split; [lia|].
  destruct (UnionFind_union_joins ["A"; "B"] 0 (UnionFind.new ["A"; "B"]) 2 (Some "A") (Some "B"))
    as (joined & uf' & rx & ry & r & H1 & _ & _ & _ & _ & H2 & H3 & _); [constructor|lia|].
  by exists joined, uf', r.
Defined.

(** What the last step of Prim shows: every node of the graph is in the
    tree, whether an edge leads to it or not. *)
Definition spansAllNodes (graph : Graph) (steps : list AlgorithmStep) : Prop :=
  ∃ final,
    last steps = Some final ∧
    (∀ n, n ∈ nodes graph → nodeStates final !! node_id n = Some NodeState.IN_SOLUTION) ∧
    nodesVisited (metrics final) = length (remove_dups (node_id <$> nodes graph)) ∧
    viewOf final "nodeCount" = Some (VCount (length (remove_dups (node_id <$> nodes graph)))).

(** ** Prim puts every node in the tree *)

Section prim_spans.
Context (graph : Graph).
Let adj := toAdjacencyList graph.
Import prim.

Definition primInv (st : St Locals) : Prop :=
  allQueued graph (loc st) ∧
  NoDup (inMST (loc st)) ∧
  (∀ v, v ∈ inMST (loc st) → v ∈ node_id <$> nodes graph) ∧
  nodesVisited (r_metrics (run st)) = length (inMST (loc st)) ∧
  (∀ v, v ∈ inMST (loc st) → r_nodeStates (run st) !! v = Some NodeState.IN_SOLUTION).

Lemma prim_check_inv c node st nb st' :
  primInv st → check graph c node st nb = Returned st' → primInv st'.
Proof.
  intros (Hq & Hnd & Hids & Hm & Hn) H. unfold check in H. destruct nb as [n w].
  destruct (Js.setHas n (inMST (loc st))) eqn:En; [by apply Returned_inj in H as <-|].
  apply setHas_false in En.
  destruct (getNode graph n) as [nn|] eqn:Enn; [|done]. cbv zeta in H.
  destruct (Js.lt w _) eqn:Elt; apply Returned_inj in H as <-; unfold primInv; run_simpl.
  - repeat split; try done.
    + intros m Hmem. destruct (Hq m Hmem) as [Hm'|Hm']; [left|by right].
      simpl. apply enqueue_contains. by right.
    + intros v Hv. rewrite lookup_insert_ne by (intros ->; done). by apply Hn.
  - repeat split; done.
Qed.

Lemma prim_turn_inv p c rest st st' :
  pq (loc st) = (p, c) :: rest → primInv st →
  turn graph adj c rest st = Returned st' → primInv st'.
Proof.
  intros Hpq (Hq & Hnd & Hids & Hm & Hn) H.
  unfold turn, turnWith, dequeue in H. cbv zeta in H. revert H. run_simpl.
  destruct (Js.setHas c (inMST (loc st))) eqn:Ec.
  - intros H. apply Returned_inj in H as <-. apply setHas_true in Ec.
    unfold primInv. run_simpl. repeat split; try done.
    intros m Hmem. destruct (Hq m Hmem) as [Hm'|Hm']; [|by right].
    rewrite Hpq in Hm'. simpl in Hm'. apply elem_of_cons in Hm' as [->|?]; [by right|by left].
  - intros H. apply setHas_false in Ec.
    apply bind_Returned in H as ([cn st1] & Hadd & H). simpl in H.
    assert (primInv st1) as Hinv1.
    { unfold add in Hadd. cbv zeta in Hadd. revert Hadd. run_simpl.
      destruct (getNode graph c) as [cn'|] eqn:Ecn; [|done].
      apply getNode_Some in Ecn as [Hcin Hcid].
      intros Hadd. apply Returned_inj in Hadd. injection Hadd as _ <-.
      assert (∀ v, v ∈ Js.setAdd c (inMST (loc st)) →
                <[c := NodeState.IN_SOLUTION]> (r_nodeStates (run st)) !! v
                = Some NodeState.IN_SOLUTION) as Hstates.
      { intros v Hv. apply elem_of_setAdd in Hv as [->|Hv]; [by rewrite lookup_insert_eq|].
        rewrite lookup_insert_ne by (intros ->; done). by apply Hn. }
      unfold primInv.
      destruct (Js.truthyStr _) as [pid|]; [destruct (getEdgeBetween graph pid c)|];
        run_simpl; (repeat split;
          [intros m Hmem; destruct (Hq m Hmem) as [Hm'|Hm'];
             [rewrite Hpq in Hm'; simpl in Hm'; apply elem_of_cons in Hm' as [->|?];
                [right; apply elem_of_setAdd; by left|by left]
             |right; apply elem_of_setAdd; by right]
          |by apply NoDup_setAdd
          |intros v Hv; apply elem_of_setAdd in Hv as [->|?];
             [rewrite <- Hcid; by apply list_elem_of_fmap_2|by apply Hids]
          |rewrite length_setAdd by done; lia
          |done]). }
    clear Hadd. revert st1 Hinv1 H. generalize (neighborsOf adj c).
    induction l as [|nb nbs IH]; intros st1 Hinv1 H; simpl in H.
    + by apply Returned_inj in H as <-.
    + apply bind_Returned in H as (st2 & H2 & H). eapply IH; [|done].
      by eapply prim_check_inv.
Qed.

Lemma prim_while_inv fuel st st' :
  primInv st → while fuel graph adj st = Returned st' →
  primInv st' ∧ pq (loc st') = [].
Proof.
  unfold while. revert st. induction fuel as [|fuel IH]; intros st Hinv H; simpl in H.
  - destruct (pq (loc st)) as [|[p c] rest] eqn:E; [|done]. by apply Returned_inj in H as <-.
  - destruct (pq (loc st)) as [|[p c] rest] eqn:E; [by apply Returned_inj in H as <-|].
    apply bind_Returned in H as (st1 & H1 & H).
    eapply IH; [|done]. by eapply (prim_turn_inv p).
Qed.

Lemma prim_initLocals_inMST startNodeId ns : inMST (initLocals startNodeId ns) = [].
Proof.
  induction ns as [|n ns IH] using rev_ind; [done|]. by rewrite initLocals_snoc.
Qed.

Lemma prim_start_inv startNodeId : primInv (start graph startNodeId).
Proof.
  unfold primInv, start. run_simpl. rewrite prim_initLocals_inMST.
  destruct (prim_initLocals_queued startNodeId (nodes graph)) as [H1 _].
  repeat split.
  - intros n Hn. left. by apply H1.
  - constructor.
  - intros v Hv. by apply elem_of_nil in Hv.
  - intros v Hv. by apply elem_of_nil in Hv.
Qed.
End prim_spans.

(** X20. Whenever [executePrim] is given a start id that is not empty, known
    or not, the trace it returns ends with a step in which every node of the
    graph is [in_solution], and the node count it reports is the number of
    distinct node ids: the nodes that no edge joins to the start are added to
    the tree as well, with no edge. *)
Theorem executePrim_spans_all_nodes graph params start :
  startNodeId params = Some start → start ≠ "" →
  finished (prim.executePrim graph params) (spansAllNodes graph).
Proof.
  intros Hp Hs.
  destruct (prim.executePrim graph params) as [steps| |] eqn:H; simpl;
    [|done|by apply executePrim_finishes in H].
  unfold prim.executePrim, prim.executePrimWith in H. rewrite Hp in H. simpl in H.
  rewrite bool_decide_eq_false_2 in H by done.
  apply bind_Returned in H as (st & Hw & H). apply Returned_inj in H as <-.
  destruct (prim_while_inv graph _ _ _ (prim_start_inv graph start) Hw)
    as ((Hq & Hnd & Hids & Hm & Hn) & Hpq).
  assert (∀ v, v ∈ node_id <$> nodes graph → v ∈ prim.inMST (loc st)) as Hall.
  { intros v Hv. apply list_elem_of_fmap in Hv as (n & -> & Hn').
    destruct (Hq n Hn') as [H|H]; [|done]. rewrite Hpq in H. by apply elem_of_nil in H. }
  assert (length (prim.inMST (loc st)) = length (remove_dups (node_id <$> nodes graph))) as Hlen.
  { apply Permutation_length, NoDup_Permutation; [done|apply NoDup_remove_dups|].
    intros v. rewrite elem_of_remove_dups. split; [apply Hids|apply Hall]. }
  unfold spansAllNodes, prim.finish. simpl. rewrite last_snoc. eexists. split; [done|].
  simpl. split; [|split].
  - intros n Hn'. apply Hn, Hall. by apply list_elem_of_fmap_2.
  - by rewrite Hm.
  - unfold viewOf. simpl. by rewrite Hlen.
Qed.

Lemma executePrim_spans_all_nodes_witness :
  startNodeId (from "Z") = Some "Z" ∧ "Z" ≠ "" ∧
  ∃ steps, prim.executePrim singleA (from "Z") = Returned steps ∧ spansAllNodes singleA steps.
Proof.
  split; [reflexivity|]. split; [discriminate|].
  pose proof (executePrim_spans_all_nodes singleA (from "Z") "Z" eq_refl ltac:(discriminate)) as H.
  destruct (returns_Returned (prim.executePrim singleA (from "Z"))) as [steps E];
    [vm_compute; reflexivity|].
  rewrite E in H. exists steps. split; [exact E|exact H].
Defined.

(** Consecutive ids of [path] are joined by an edge of the graph, in its
    direction. *)
Fixpoint walksAlong (graph : Graph) (path : list string) : Prop :=
  match path with
  | u :: rest =>
      match rest with
      | w :: _ => (∃ e, e ∈ edges graph ∧ joins graph u w e) ∧ walksAlong graph rest
      | [] => True
      end
  | [] => True
  end.

Definition route (graph : Graph) (s t : string) (path : list string) : Prop :=
  head path = Some s ∧ last path = Some t ∧ walksAlong graph path.

(** What a last step with a "path" view shows: the labels of a route from
    [s] to [t], whose nodes are [in_solution]. *)
Definition showsRoute (graph : Graph) (s t : string) (steps : list AlgorithmStep) : Prop :=
  ∀ final labels,
    last steps = Some final → viewOf final "path" = Some (VLabels labels) →
    ∃ path, labels = labelOf graph <$> path ∧ route graph s t path ∧
      ∀ p, p ∈ path → nodeStates final !! p = Some NodeState.IN_SOLUTION.

(** ** The path that Dijkstra and A* report *)

Lemma getNeighbors_joins graph p n :
  n ∈ getNeighbors graph p → ∃ e, e ∈ edges graph ∧ joins graph p n e.
Proof.
  unfold getNeighbors.
  assert (∀ es acc,
    n ∈ foldl (fun neighbors edge =>
                 let neighbors := if bool_decide (source edge = p)
                                  then neighbors ++ [target edge] else neighbors in
                 if negb (directed graph) && bool_decide (target edge = p)
                 then neighbors ++ [source edge] else neighbors) acc es →
    n ∈ acc ∨ ∃ e, e ∈ es ∧ joins graph p n e) as H.
  { induction es as [|e es IH]; intros acc Hn; simpl in Hn; [by left|].
    apply IH in Hn as [Hn|(e' & He' & Hj)]; [|right; exists e'; split; [by right|done]].
    assert (n ∈ acc ∨ joins graph p n e) as [?|?]; [|by left|right; exists e; split; [by left|done]].
    unfold joins. destruct (directed graph); simpl in Hn;
      repeat case_bool_decide; rewrite ?elem_of_app, ?list_elem_of_singleton in Hn;
      intuition (subst; auto). }
  intros Hn. apply H in Hn as [Hn|Hn]; [by apply elem_of_nil in Hn|done].
Qed.

Lemma neighbor_joins graph p nb :
  nb ∈ neighborsOf (toAdjacencyList graph) p →
  p ∈ node_id <$> nodes graph ∧ ∃ e, e ∈ edges graph ∧ joins graph p nb.1 e.
Proof.
  intros Hnb.
  assert ((neighborsOf (toAdjacencyList graph) p).*1 =
          if decide (p ∈ node_id <$> nodes graph) then getNeighbors graph p else []) as E
    by apply (adjOver_neighbors graph (edges graph)).
  assert (nb.1 ∈ (neighborsOf (toAdjacencyList graph) p).*1) as H by (by apply list_elem_of_fmap_2).
  rewrite E in H. case_decide; [|by apply elem_of_nil in H].
  split; [done|]. by apply getNeighbors_joins.
Qed.

Lemma walksAlong_snoc graph l p c :
  walksAlong graph l → last l = Some p → (∃ e, e ∈ edges graph ∧ joins graph p c e) →
  walksAlong graph (l ++ [c]).
Proof.
  induction l as [|u l IH]; intros H Hl He; [done|].
  destruct l as [|w l].
  - simpl in Hl. injection Hl as ->. simpl. done.
  - destruct H as [H1 H2]. split; [done|]. by apply IH.
Qed.

(** The walk back from [c] stops at [s], having gone along edges. *)
Lemma walkBack_route graph (known : string → Prop) next s fuel c path result :
  (∀ k p, next k = Some p → known p ∧ p ≠ "" ∧ ∃ e, e ∈ edges graph ∧ joins graph p k e) →
  (∀ k, known k → k = s ∨ is_Some (next k)) →
  next s = None → known c → c ≠ "" →
  walkBack fuel next (Some c) path = Returned result →
  ∃ pre, result = pre ++ path ∧ head pre = Some s ∧ last pre = Some c ∧ walksAlong graph pre.
Proof.
  intros Hnext Hknown Hs. revert c path.
  induction fuel as [|fuel IH]; intros c path Hc Hne H; simpl in H;
    rewrite bool_decide_eq_false_2 in H by done; [done|].
  destruct (next c) as [p|] eqn:Ep.
  - destruct (Hnext c p Ep) as (Hp & Hpne & He).
    destruct (IH p (c :: path) Hp Hpne H) as (pre & -> & Hhead & Hlast & Hwalk).
    exists (pre ++ [c]). split; [by rewrite <- app_assoc|].
    split; [by destruct pre|]. split; [by rewrite last_snoc|].
    by apply (walksAlong_snoc _ _ p).
  - assert (result = c :: path) as -> by (destruct fuel; simpl in H; by apply Returned_inj in H).
    destruct (Hknown c Hc) as [->|[p Hp]]; [|congruence].
    by exists [s].
Qed.

Lemma nodes_markPath graph prev path (st : St dijkstra.Locals) v :
  r_nodeStates (run (dijkstra.markPath graph prev path st)) !! v =
  if decide (v ∈ path) then Some NodeState.IN_SOLUTION else r_nodeStates (run st) !! v.
Proof.
  revert prev st. induction path as [|i path IH]; intros prev st; simpl; [done|].
  rewrite IH. assert (r_nodeStates (run (match prev with
      | Some q => setEdgeIf (getEdgeBetween graph q i) EdgeState.IN_SOLUTION
                    (setNode i NodeState.IN_SOLUTION st)
      | None => setNode i NodeState.IN_SOLUTION st
      end)) = <[i := NodeState.IN_SOLUTION]> (r_nodeStates (run st))) as ->.
  { destruct prev; [by rewrite nodes_setEdgeIf|done]. }
  destruct (decide (v ∈ path)) as [Hv|Hv].
  - rewrite decide_True; [done|by right].
  - destruct (decide (i = v)) as [->|Hne].
    + rewrite lookup_insert_eq. rewrite decide_True; [done|by left].
    + rewrite lookup_insert_ne by done. rewrite decide_False; [done|].
      rewrite elem_of_cons. intros [->|]; done.
Qed.

Lemma nodes_markEdges graph path (st : St astar.Locals) :
  r_nodeStates (run (astar.markEdges graph path st)) = r_nodeStates (run st).
Proof.
  revert st. induction path as [|p path IH]; intros st; [done|].
  destruct path as [|q path]; [done|].
  change (astar.markEdges graph (p :: q :: path) st)
    with (astar.markEdges graph (q :: path)
            (setEdgeIf (getEdgeBetween graph p q) EdgeState.IN_SOLUTION st)).
  by rewrite IH, nodes_setEdgeIf.
Qed.

Section dijkstra_route.
Context (graph : Graph) (s : string).
Context (Hids : "" ∉ node_id <$> nodes graph).
Let adj := toAdjacencyList graph.
Import dijkstra.

(** The start has no parent; a parent is a visited node joined to its child
    by an edge; every other id that is queued or visited has a parent. *)
Definition dijkstraRouteInv (l : Locals) : Prop :=
  mjoin (parent l !! s) = None ∧
  (∀ k p, mjoin (parent l !! k) = Some p →
     p ∈ visited l ∧ p ≠ "" ∧ ∃ e, e ∈ edges graph ∧ joins graph p k e) ∧
  (∀ k, k ∈ visited l ∨ k ∈ (pq l).*2 → k = s ∨ is_Some (mjoin (parent l !! k))) ∧
  (s ∈ visited l ∨ (visited l = [] ∧ pq l = [(0%float, s)] ∧ dist l !! s = Some 0%float)).

Lemma dijkstra_relax_route c st nb :
  nb ∈ neighborsOf adj c → c ∈ visited (loc st) → s ∈ visited (loc st) →
  dijkstraRouteInv (loc st) →
  dijkstraRouteInv (loc (relax graph c st nb)) ∧
  visited (loc (relax graph c st nb)) = visited (loc st).
Proof.
  intros Hnb Hc Hs (HA & HB & HC & HD). unfold relax.
  destruct (neighbor_joins graph c nb Hnb) as (Hcid & Hjoin).
  destruct nb as [n w]. simpl in Hjoin.
  destruct (Js.setHas n (visited (loc st))) eqn:Hn; [done|].
  apply setHas_false in Hn. cbv zeta. loc_simpl.
  destruct (Js.lt _ _); loc_simpl; [|done].
  assert (n ≠ s) as Hns by (intros ->; done).
  assert (c ≠ "") as Hcne by (intros ->; done).
  match goal with |- context [if ?b then _ else _] => destruct b end; loc_simpl.
  all: split; [|done].
  all: unfold dijkstraRouteInv; simpl; split; [by rewrite lookup_insert_ne|].
  all: split; [|split; [|by left]].
  all: try (intros k p; destruct (decide (n = k)) as [->|Hne];
        [rewrite lookup_insert_eq; simpl; intros [= <-]; done
        |rewrite lookup_insert_ne by done; apply HB]).
  all: intros k; rewrite PriorityQueue_enqueue_values, elem_of_cons;
    destruct (decide (n = k)) as [->|Hne];
    [rewrite lookup_insert_eq; simpl; eauto
    |rewrite lookup_insert_ne by done; intros [?|[?|?]]; [| congruence |]; apply HC; auto].
Qed.

Lemma dijkstra_relax_all_route c nbs st :
  (∀ nb, nb ∈ nbs → nb ∈ neighborsOf adj c) →
  c ∈ visited (loc st) → s ∈ visited (loc st) → dijkstraRouteInv (loc st) →
  dijkstraRouteInv (loc (foldl (relax graph c) st nbs)) ∧
  visited (loc (foldl (relax graph c) st nbs)) = visited (loc st).
Proof.
  revert st. induction nbs as [|nb nbs IH]; intros st Hnbs Hc Hs Hinv; simpl; [done|].
  destruct (dijkstra_relax_route c st nb) as [H1 H2]; [apply Hnbs; by left|done..|].
  destruct (IH (relax graph c st nb)) as [H3 H4];
    [intros nb' ?; apply Hnbs; by right|by rewrite H2..|done|].
  split; [done|congruence].
Qed.

Lemma dijkstra_reached_route c d st st' :
  dijkstraRouteInv (loc st) → c ∈ visited (loc st) → c ≠ "" →
  reached graph c d st = Returned st' →
  ∃ final path,
    last (r_steps (run st')) = Some final ∧
    viewOf final "path" = Some (VLabels (labelOf graph <$> path)) ∧
    route graph s c path ∧
    ∀ p, p ∈ path → nodeStates final !! p = Some NodeState.IN_SOLUTION.
Proof.
  intros (HA & HB & HC & HD) Hc Hne H. unfold reached in H. cbv zeta in H.
  apply bind_Returned in H as (path & Hw & H). apply Returned_inj in H as <-.
  simpl in Hw.
  apply (walkBack_route graph (fun k => k ∈ visited (loc st)) _ s) in Hw
    as (pre & -> & Hhead & Hlast & Hwalk); try done.
  - rewrite app_nil_r. eexists _, pre. split; [simpl; apply last_snoc|].
    split; [done|]. split; [done|].
    intros p Hp. simpl. rewrite nodes_markPath. by rewrite decide_True.
  - intros k Hk. apply HC. by left.
Qed.

Lemma dijkstra_while_route fuel e st st' :
  dijkstraRouteInv (loc st) →
  while fuel graph adj e st = Returned (true, st') →
  ∃ t final path,
    Js.truthyStr e = Some t ∧
    last (r_steps (run st')) = Some final ∧
    viewOf final "path" = Some (VLabels (labelOf graph <$> path)) ∧
    route graph s t path ∧
    ∀ p, p ∈ path → nodeStates final !! p = Some NodeState.IN_SOLUTION.
Proof.
  revert st. induction fuel as [|fuel IH]; intros st Hinv; simpl.
  { by destruct (pq (loc st)) as [|[d c] rest]. }
  destruct (pq (loc st)) as [|[d c] rest] eqn:Hpq; [done|]. loc_simpl.
  destruct Hinv as (HA & HB & HC & HD).
  assert (s ∈ visited (loc st) ∨ (visited (loc st) = [] ∧ c = s ∧ d = 0%float ∧ rest = [] ∧
            dist (loc st) !! s = Some 0%float)) as HD'.
  { destruct HD as [?|(H1 & H2 & H3)]; [by left|right]. rewrite Hpq in H2.
    injection H2 as -> -> ->. done. }
  assert (∀ k, k ∈ visited (loc st) ∨ k ∈ rest.*2 →
            k = s ∨ is_Some (mjoin (parent (loc st) !! k))) as HCrest.
  { intros k [?|?]; apply HC; [by left|right]. rewrite Hpq. simpl. by right. }
  assert (s ∈ visited (loc st) →
            dijkstraRouteInv (mkLocals (dist (loc st)) (parent (loc st)) (visited (loc st)) rest))
    as Hskip.
  { intros Hs. split; [done|]. split; [done|]. split; [done|by left]. }
  destruct (Js.gt d _) eqn:Egt.
  { apply IH. loc_simpl. apply Hskip.
    destruct HD' as [?|(_ & -> & -> & _ & Hd)]; [done|]. rewrite Hd in Egt. by vm_compute in Egt. }
  destruct (Js.setHas c (visited (loc st))) eqn:Ec.
  { apply IH. loc_simpl. apply Hskip.
    destruct HD' as [?|(Hv & _)]; [done|]. rewrite Hv in Ec. done. }
  apply setHas_false in Ec.
  assert (s ∈ Js.setAdd c (visited (loc st))) as Hs'.
  { apply elem_of_setAdd. destruct HD' as [?|(_ & -> & _)]; [by right|by left]. }
  assert (dijkstraRouteInv (mkLocals (dist (loc st)) (parent (loc st))
            (Js.setAdd c (visited (loc st))) rest)) as Hinv1.
  { split; [done|]. split; [|split; [|by left]]; simpl.
    - intros k p Hp. destruct (HB k p Hp) as (H1 & H2). split; [|done].
      apply elem_of_setAdd. by right.
    - intros k [Hk|Hk].
      + apply elem_of_setAdd in Hk as [->|Hk]; apply HC; [right|by left].
        rewrite Hpq. simpl. by left.
      + apply HCrest. by right. }
  destruct (isTarget e c) eqn:Et.
  { intros H. apply bind_Returned in H as (st1 & Hr & H). apply Returned_inj in H.
    injection H as <-. unfold isTarget in Et.
    destruct (Js.truthyStr e) as [t|] eqn:Ee; [|done]. apply bool_decide_eq_true in Et as ->.
    assert (t ≠ "") as Hne.
    { destruct e as [e'|]; [|done]. simpl in Ee. case_bool_decide; [done|]. congruence. }
    exists t. eapply dijkstra_reached_route in Hr as (final & path & H); [| |loc_simpl|done].
    - by exists final, path.
    - by loc_simpl.
    - apply elem_of_setAdd. by left. }
  match goal with |- context [foldl (relax graph c) ?st0 ?nbs] =>
    destruct (dijkstra_relax_all_route c nbs st0) as (H1 & H2)
  end; [done|loc_simpl; apply elem_of_setAdd; by left|by loc_simpl|by loc_simpl|].
  apply IH. by loc_simpl.
Qed.

Lemma dijkstra_start_route :
  s ∈ node_id <$> nodes graph → dijkstraRouteInv (loc (start graph s)).
Proof.
  intros Hs. unfold start. cbv zeta. loc_simpl.
  assert (∀ ns (m : gmap string (option string)),
            (∀ k, mjoin (m !! k) = None) →
            ∀ k, mjoin (foldl (fun m n => <[node_id n := None]> m) m ns !! k) = None) as Hparent.
  { induction ns as [|n' ns IH]; intros m Hm k'; simpl; [done|]. apply IH.
    intros k''. destruct (decide (node_id n' = k'')) as [->|].
    - by rewrite lookup_insert_eq.
    - by rewrite lookup_insert_ne. }
  assert (∀ ns, s ∈ node_id <$> ns →
            foldl (fun m n => <[node_id n :=
                     if bool_decide (node_id n = s) then 0%float else infinity]> m)
                  (∅ : gmap string float) ns !! s = Some 0%float) as Hdist.
  { induction ns as [|n' ns IH] using rev_ind; intros Hin; [by apply elem_of_nil in Hin|].
    rewrite foldl_snoc. destruct (decide (node_id n' = s)) as [E|E].
    - rewrite E, lookup_insert_eq. by rewrite bool_decide_eq_true_2.
    - rewrite lookup_insert_ne by done. apply IH.
      rewrite fmap_app in Hin. apply elem_of_app in Hin as [?|Hin]; [done|].
      apply list_elem_of_singleton in Hin. simpl in Hin. congruence. }
  split; [apply Hparent; intros k; by rewrite lookup_empty|].
  split; [|split].
  - intros k p Hp. simpl in Hp. rewrite Hparent in Hp; [done|]. intros k'. by rewrite lookup_empty.
  - intros k [Hk|Hk]; simpl in Hk; [by apply elem_of_nil in Hk|].
    apply list_elem_of_singleton in Hk. by left.
  - right. simpl. split; [done|]. split; [done|]. by apply Hdist.
Qed.
End dijkstra_route.

(** X21. Without a node whose id is the empty string, whenever the trace of
    [executeDijkstra] ends with a step that shows a path, the path starts
    at the start node, ends at the end node, goes along edges of the graph in
    their direction, and its nodes are [in_solution] in that step. *)
Theorem executeDijkstra_path_is_route graph params s t :
  "" ∉ node_id <$> nodes graph →
  startNodeId params = Some s → endNodeId params = Some t →
  finished (dijkstra.executeDijkstra graph params) (showsRoute graph s t).
Proof.
  intros Hids Hs Ht.
  destruct (dijkstra.executeDijkstra graph params) as [steps| |] eqn:H; simpl;
    [|done|by apply executeDijkstra_finishes in H].
  unfold dijkstra.executeDijkstra in H. rewrite Hs, Ht in H. simpl in H.
  case_bool_decide as Hne; [by apply Returned_inj in H as <-|].
  destruct (getNode graph s) as [sn|] eqn:Esn; [|by apply Returned_inj in H as <-].
  apply getNode_Some in Esn as [Hsn Hsid].
  apply bind_Returned in H as ([returned st] & Hw & H).
  destruct returned; apply Returned_inj in H as <-.
  - apply (dijkstra_while_route graph s Hids) in Hw
      as (t' & final & path & Ht' & Hlast & Hview & Hroute & Hstates).
    + assert (t' = t) as -> by (simpl in Ht'; case_bool_decide; congruence).
      intros final' labels Hlast' Hview'. rewrite Hlast in Hlast'. injection Hlast' as <-.
      rewrite Hview in Hview'. injection Hview' as <-. by exists path.
    + apply dijkstra_start_route. rewrite <- Hsid. by apply list_elem_of_fmap_2.
  - intros final labels Hlast Hview. unfold dijkstra.finish in Hlast. simpl in Hlast.
    case_bool_decide; simpl in Hlast; rewrite last_snoc in Hlast;
      injection Hlast as <-; done.
Qed.

Lemma executeDijkstra_path_is_route_witness :
  ("" ∉ node_id <$> nodes triangle) ∧
  ∃ steps, dijkstra.executeDijkstra triangle (fromTo "A" "C") = Returned steps ∧
    showsRoute triangle "A" "C" steps.
Proof.
  assert ("" ∉ node_id <$> nodes triangle) as Hids by (refine (bool_decide_unpack _ _); by vm_compute).
  split; [exact Hids|].
  pose proof (executeDijkstra_path_is_route triangle (fromTo "A" "C") "A" "C" Hids eq_refl eq_refl) as H.
  destruct (returns_Returned (dijkstra.executeDijkstra triangle (fromTo "A" "C"))) as [steps E];
    [vm_compute; reflexivity|].
  rewrite E in H. exists steps. split; [exact E|exact H].
Defined.

Section astar_route.
Context (graph : Graph) (s : string).
Context (Hids : "" ∉ node_id <$> nodes graph).
Let adj := toAdjacencyList graph.
Import astar.

(** The start came from nowhere; an id came from a closed node joined to it
    by an edge; every other id that is open or closed came from somewhere. *)
Definition astarRouteInv (l : Locals) : Prop :=
  cameFrom l !! s = None ∧
  (∀ k p, cameFrom l !! k = Some p →
     p ∈ closedSet l ∧ p ≠ "" ∧ ∃ e, e ∈ edges graph ∧ joins graph p k e) ∧
  (∀ k, k ∈ closedSet l ∨ k ∈ (openSet l).*2 → k = s ∨ is_Some (cameFrom l !! k)) ∧
  (s ∈ closedSet l ∨ (closedSet l = [] ∧ (openSet l).*2 = [s])).

Lemma astar_examine_route endNode hr c st nb st' :
  nb ∈ neighborsOf adj c → c ∈ closedSet (loc st) → s ∈ closedSet (loc st) →
  astarRouteInv (loc st) →
  examine graph endNode hr c st nb = Returned st' →
  astarRouteInv (loc st') ∧ closedSet (loc st') = closedSet (loc st).
Proof.
  intros Hnb Hc Hs (HA & HB & HC & HD). unfold examine.
  destruct (neighbor_joins graph c nb Hnb) as (Hcid & Hjoin).
  destruct nb as [n w]. simpl in Hjoin.
  destruct (Js.setHas n (closedSet (loc st))) eqn:Hn.
  { intros H. by apply Returned_inj in H as <-. }
  apply setHas_false in Hn.
  destruct (getNode graph n); [|done]. cbv zeta. loc_simpl.
  destruct (Js.lt _ _); intros H; apply Returned_inj in H as <-; loc_simpl; [|done].
  assert (n ≠ s) as Hns by (intros ->; done).
  assert (c ≠ "") as Hcne by (intros ->; done).
  assert (∀ k p, <[n := c]> (cameFrom (loc st)) !! k = Some p →
            p ∈ closedSet (loc st) ∧ p ≠ "" ∧ ∃ e, e ∈ edges graph ∧ joins graph p k e) as HB'.
  { intros k p. destruct (decide (n = k)) as [->|Hne].
    - rewrite lookup_insert_eq. by intros [= <-].
    - rewrite lookup_insert_ne by done. apply HB. }
  unfold PriorityQueue.has. case_bool_decide as Hin; simpl; loc_simpl.
  all: split; [|done].
  all: unfold astarRouteInv; simpl; split; [by rewrite lookup_insert_ne|].
  all: split; [done|split; [|by left]].
  - intros k Hk. destruct (decide (n = k)) as [->|Hne].
    + rewrite lookup_insert_eq. eauto.
    + rewrite lookup_insert_ne by done. by apply HC.
  - intros k. rewrite PriorityQueue_enqueue_values, elem_of_cons.
    destruct (decide (n = k)) as [->|Hne].
    + rewrite lookup_insert_eq. eauto.
    + rewrite lookup_insert_ne by done. intros [?|[?|?]]; [|congruence|]; apply HC; auto.
Qed.

Lemma astar_examine_all_route endNode hr c nbs st st' :
  (∀ nb, nb ∈ nbs → nb ∈ neighborsOf adj c) →
  c ∈ closedSet (loc st) → s ∈ closedSet (loc st) → astarRouteInv (loc st) →
  forEach (examine graph endNode hr c) st nbs = Returned st' →
  astarRouteInv (loc st') ∧ closedSet (loc st') = closedSet (loc st).
Proof.
  revert st. induction nbs as [|nb nbs IH]; intros st Hnbs Hc Hs Hinv H; simpl in H.
  - by apply Returned_inj in H as <-.
  - apply bind_Returned in H as (st1 & H1 & H).
    destruct (astar_examine_route endNode hr c st nb st1) as [H2 H3];
      [apply Hnbs; by left|done..|].
    destruct (IH st1) as [H4 H5];
      [intros nb' ?; apply Hnbs; by right|by rewrite H3..|done|done|].
    split; [done|congruence].
Qed.

Lemma astar_reached_route e c st st' :
  cameFrom (loc st) !! s = None →
  (∀ k p, cameFrom (loc st) !! k = Some p →
     p ∈ closedSet (loc st) ∧ p ≠ "" ∧ ∃ e, e ∈ edges graph ∧ joins graph p k e) →
  (∀ k, k ∈ closedSet (loc st) ∨ k = c → k = s ∨ is_Some (cameFrom (loc st) !! k)) →
  c ≠ "" →
  reached graph e c st = Returned st' →
  ∃ final path,
    last (r_steps (run st')) = Some final ∧
    viewOf final "path" = Some (VLabels (labelOf graph <$> path)) ∧
    route graph s c path ∧
    ∀ p, p ∈ path → nodeStates final !! p = Some NodeState.IN_SOLUTION.
Proof.
  intros HA HB HC Hne H. unfold reached in H.
  apply bind_Returned in H as (path & Hw & H). apply Returned_inj in H as <-.
  apply (walkBack_route graph (fun k => k ∈ closedSet (loc st) ∨ k = c) _ s) in Hw
    as (pre & -> & Hhead & Hlast & Hwalk); try done.
  - rewrite app_nil_r. eexists _, pre. split; [simpl; apply last_snoc|].
    split; [done|]. split; [done|].
    intros p Hp. simpl. rewrite nodes_markEdges, nodes_foldl_setNode. by rewrite decide_True.
  - intros k p Hp. destruct (HB k p Hp) as (H1 & H2). split; [by left|done].
  - by right.
Qed.

Lemma astar_while_route fuel endNode hr e st st' :
  astarRouteInv (loc st) →
  while fuel graph adj endNode hr e st = Returned (true, st') →
  ∃ final path,
    last (r_steps (run st')) = Some final ∧
    viewOf final "path" = Some (VLabels (labelOf graph <$> path)) ∧
    route graph s e path ∧
    ∀ p, p ∈ path → nodeStates final !! p = Some NodeState.IN_SOLUTION.
Proof.
  revert st. induction fuel as [|fuel IH]; intros st Hinv; simpl.
  { by destruct (openSet (loc st)) as [|[d c] rest]. }
  destruct (openSet (loc st)) as [|[d c] rest] eqn:Hopen; [done|].
  destruct Hinv as (HA & HB & HC & HD).
  destruct (getNode graph c) as [cn|] eqn:Ecn; [|done]. loc_simpl.
  apply getNode_Some in Ecn as [Hcn Hcid].
  assert (c ≠ "") as Hne.
  { intros ->. apply Hids. rewrite <- Hcid. by apply list_elem_of_fmap_2. }
  case_bool_decide as Hce.
  { intros H. apply bind_Returned in H as (st1 & Hr & H). apply Returned_inj in H.
    injection H as <-. subst e.
    eapply astar_reached_route in Hr; [done|by loc_simpl|by loc_simpl| |done].
    loc_simpl. intros k [Hk| ->]; apply HC; [by left|right].
    rewrite Hopen. simpl. by left. }
  intros H. apply bind_Returned in H as (st1 & Hex & H).
  apply astar_examine_all_route in Hex as [H1 H2]; [by eapply IH|done|..].
  - loc_simpl. apply elem_of_setAdd. by left.
  - loc_simpl. apply elem_of_setAdd. destruct HD as [?|(_ & Ho)]; [by right|left].
    rewrite Hopen in Ho. simpl in Ho. by injection Ho as ->.
  - loc_simpl. split; [done|]. split; [|split; [|left]]; simpl.
    + intros k p Hp. destruct (HB k p Hp) as (H1 & H2). split; [|done].
      apply elem_of_setAdd. by right.
    + intros k [Hk|Hk]; apply HC.
      * apply elem_of_setAdd in Hk as [->|Hk]; [right|by left]. rewrite Hopen. simpl. by left.
      * right. rewrite Hopen. simpl. by right.
    + apply elem_of_setAdd. destruct HD as [?|(_ & Ho)]; [by right|left].
      rewrite Hopen in Ho. simpl in Ho. by injection Ho as ->.
Qed.
End astar_route.

(** X22. Without a node whose id is the empty string, whenever the trace of
    [executeAStar] ends with a step that shows a path, the path starts at the
    start node, ends at the goal, goes along edges of the graph in their
    direction, and its nodes are [in_solution] in that step. *)
Theorem executeAStar_path_is_route graph params s t :
  "" ∉ node_id <$> nodes graph →
  startNodeId params = Some s → endNodeId params = Some t →
  finished (astar.executeAStar graph params) (showsRoute graph s t).
Proof.
  intros Hids Hs Ht.
  destruct (astar.executeAStar graph params) as [steps| |] eqn:H; simpl;
    [|done|by apply executeAStar_finishes in H].
  unfold astar.executeAStar in H. rewrite Hs, Ht in H. simpl in H.
  case_bool_decide as Hne; [by apply Returned_inj in H as <-|].
  case_bool_decide as Hne'; [by apply Returned_inj in H as <-|].
  destruct (getNode graph s) as [sn|] eqn:Esn; [|by apply Returned_inj in H as <-].
  destruct (getNode graph t) as [tn|] eqn:Etn; [|by apply Returned_inj in H as <-].
  apply bind_Returned in H as ([returned st] & Hw & H).
  destruct returned; apply Returned_inj in H as <-.
  - apply (astar_while_route graph s Hids) in Hw
      as (final & path & Hlast & Hview & Hroute & Hstates).
    + intros final' labels Hlast' Hview'. rewrite Hlast in Hlast'. injection Hlast' as <-.
      rewrite Hview in Hview'. injection Hview' as <-. by exists path.
    + unfold astar.start. loc_simpl. split; [done|]. split; [|split]; simpl.
      * intros k p Hp. by rewrite lookup_empty in Hp.
      * intros k [Hk|Hk]; [by apply elem_of_nil in Hk|].
        apply list_elem_of_singleton in Hk. by left.
      * by right.
  - intros final labels Hlast Hview. simpl in Hlast. rewrite last_snoc in Hlast.
    injection Hlast as <-. done.
Qed.

Lemma executeAStar_path_is_route_witness :
  ("" ∉ node_id <$> nodes triangle) ∧
  ∃ steps, astar.executeAStar triangle (fromTo "A" "C") = Returned steps ∧
    showsRoute triangle "A" "C" steps.
Proof.
  assert ("" ∉ node_id <$> nodes triangle) as Hids
    by (refine (bool_decide_unpack _ _); by vm_compute).
  split; [exact Hids|].
  pose proof (executeAStar_path_is_route triangle (fromTo "A" "C") "A" "C" Hids eq_refl eq_refl) as H.
  destruct (returns_Returned (astar.executeAStar triangle (fromTo "A" "C"))) as [steps E];
    [vm_compute; reflexivity|].
  rewrite E in H. exists steps. split; [exact E|exact H].
Defined.
